(** * Posted-jobs ledger (src/data/posted-jobs-manager-v2.js)

    A shallow embedding of [PostedJobsManagerV2]: the loader and the V1
    migration, the duplicate / reopening decision, the append operation,
    the monthly archiver and the atomic save with its read-back check.

    Conventions of the embedding.
    - A JavaScript [Date] and the ISO-8601 text [toISOString] prints for it
      are both represented by the millisecond count since the epoch, an
      integer of [Z]; the text is recomputed by [toISOString] where the
      source slices or splits it. A stored timestamp is thus taken to be a
      text that [toISOString] printed. A [Date] holds an instant only
      within [Clock.maxTime] of the epoch and is invalid beyond; the
      functions below do the arithmetic of the source in [Z] and agree with
      it when the clock reading and the cutoff computed from it are both in
      that range ([Clock.validTime]); a theorem that follows a cutoff
      through a run, the archiver or the statistics states this as a
      hypothesis ([clockInRange]). Outside it the source compares with an
      invalid [Date], every comparison is false, and the model does not
      apply.
    - Every method that reads the clock receives one instant [now]: the
      readings taken inside one call are taken to be equal.
    - [this.activeWindowDays] and [this.reopeningWindowDays] are the results
      of [parseInt], hence integers; the two quotients of [hasBeenPosted]
      are computed exactly, in [Q].
    - A file is represented by what [JSON.parse] makes of its text, sorted
      into the shapes the program tells apart; [JSON.stringify] followed by
      [JSON.parse] gives back the value written. The elements of a [jobs]
      array and of a bucket array are posting instances, as the program
      writes them. The disk holds the files by role, the directories made
      so far and the list of [fs] calls.
    - An [fs] call in the model fails only where the source handles the
      failure: a text that does not parse, and the read-back of a save. *)

From Stdlib Require Import ZArith QArith String Ascii List Lia Permutation.
From stdpp Require Import gmap strings list fin_maps pretty.

Open Scope Z_scope.

(** ** Clock arithmetic and [Date.prototype.toISOString] *)

Module Clock.

Definition msPerDay : Z := 24 * 60 * 60 * 1000.

(** Zero-padded decimal of a non-negative number, at least [width] digits. *)
Fixpoint zeros (n : nat) : string :=
  match n with
  | O => ""
  | S k => "0" +:+ zeros k
  end.

Definition pad (width : nat) (n : Z) : string :=
  let digits := pretty (Z.to_N n) in
  zeros (width - String.length digits) +:+ digits.

(** Year, month (1..12) and day of month of a day count since 1970-01-01,
    in the proleptic Gregorian calendar that ECMAScript dates use. *)
Definition civil (days : Z) : Z * Z * Z :=
  let z := days + 719468 in
  let era := z / 146097 in
  let doe := z - era * 146097 in
  let yoe := (doe - doe / 1460 + doe / 36524 - doe / 146096) / 365 in
  let doy := doe - (365 * yoe + yoe / 4 - yoe / 100) in
  let mp := (5 * doy + 2) / 153 in
  let d := doy - (153 * mp + 2) / 5 + 1 in
  let m := if mp <? 10 then mp + 3 else mp - 9 in
  let y := yoe + era * 400 + (if m <=? 2 then 1 else 0) in
  (y, m, d).

(** Four digits for the years 0..9999, a sign and six digits otherwise. *)
Definition isoYear (y : Z) : string :=
  if (0 <=? y) && (y <=? 9999) then pad 4 y
  else (if y <? 0 then "-" else "+") +:+ pad 6 (Z.abs y).

Definition isoDate (ms : Z) : string :=
  let '(y, m, d) := civil (ms / msPerDay) in
  isoYear y +:+ "-" +:+ pad 2 m +:+ "-" +:+ pad 2 d.

Definition isoTime (ms : Z) : string :=
  let t := ms mod msPerDay in
  pad 2 (t / 3600000) +:+ ":" +:+ pad 2 (t / 60000 mod 60) +:+ ":"
    +:+ pad 2 (t / 1000 mod 60) +:+ "." +:+ pad 3 (t mod 1000) +:+ "Z".

Definition toISOString (ms : Z) : string :=
  isoDate ms +:+ "T" +:+ isoTime ms.

(** [s.split('T')[0]]: the text before the first ['T']. *)
Fixpoint beforeT (s : string) : string :=
  match s with
  | EmptyString => EmptyString
  | String c rest =>
      if Ascii.eqb c "T"%char then EmptyString else String c (beforeT rest)
  end.

(** [s.slice(0, 7)]. *)
Definition slice07 (s : string) : string := String.substring 0 7 s.

(** The range of a [Date]: 100,000,000 days on either side of the epoch.
    [new Date(ms)] is an invalid date outside it. Every integer of the
    range is a double, so is a multiple of [msPerDay] of twice that
    magnitude: the difference [Date.now() - days * 24 * 60 * 60 * 1000] is
    computed without rounding when it and the clock reading are in range. *)
Definition maxTime : Z := 8640000000000000.

Definition validTime (ms : Z) : Prop := - maxTime <= ms <= maxTime.

End Clock.

(** ** Data model *)

(** [new Date(text)] of a date text received from the job source. *)
Inductive jsDate : Type :=
| ValidDate (ms : Z)
| InvalidDate.

(** The job record handed over by the caller; only the fields the manager
    reads. [None] stands for a missing member, [null] or the empty text,
    all of which are falsy. *)
Record JobData : Type := mkJobData {
  employer_name : option string;
  job_title : option string;
  job_posted_at_datetime_utc : option jsDate;
  job_apply_link : option string
}.

(** One posting instance, the object literal of [markAsPosted] and of
    [migrateFromV1]. *)
Record JobInstance : Type := mkJob {
  id : string;
  jobId : string;
  company : string;
  title : string;
  postedToDiscord : Z;
  sourceDate : option jsDate;
  sourceUrl : option string;
  discordThreadId : option string;
  instanceNumber : nat
}.

Record LastArchive : Type := mkLastArchive {
  la_date : Z;
  la_archived : nat;
  la_monthsAffected : option nat
}.

(** [data.metadata]; [None] is [undefined]. *)
Module Metadata.
Record t : Type := mk {
  totalJobs : nat;
  activeWindowDays : option Z;
  migratedFromV1 : option bool;
  migrationDate : option Z;
  lastArchive : option LastArchive
}.
End Metadata.

(** The V2 database object. *)
Record Store : Type := mkStore {
  version : Z;
  lastUpdated : Z;
  jobs : list JobInstance;
  metadata : Metadata.t
}.

(** What reading [length] from the [jobs] member of a parsed object
    yields when that member is neither missing nor [null]: a natural
    number (the length of an array or of a text, a [length] member of an
    object); any other value that converts to text, [undefined] included;
    or an object whose conversion to text throws, as a template literal
    finds when neither its [toString] nor its [valueOf] yields a primitive
    value. *)
Inductive lengthRead : Type :=
| NatLength (n : nat)
| OtherLength
| UnprintableLength.

(** What [JSON.parse(fs.readFileSync(postedJobsPath))] can yield, by the
    shapes [loadPostedJobs] and the read-back of [savePostedJobs] tell
    apart: a text that does not parse, [null], a number, string or boolean,
    an array, and an object. An array in this file is the V1 ledger, an
    array of job-id text. [LStore s] is an object with an integer [version]
    and a [jobs] array; [LObject v] is an object whose [jobs] member is
    missing or [null]; [LOddJobs v jobsLength] is every other object, one
    whose [jobs] member is present and not an array (a number, a text, a
    boolean or an object), or is an array while [version] is not an
    integer. In both, [v] is the [version] member when that is an integer,
    and [jobsLength] is what [jobs.length] reads. *)
Inductive ledgerData : Type :=
| LBadText
| LNull
| LScalar
| LIdArray (jobIds : list string)
| LStore (s : Store)
| LObject (v : option Z)
| LOddJobs (v : option Z) (jobsLength : lengthRead).

(** What [JSON.parse] of a monthly archive file can yield; an array in such
    a file is an array of posting instances. *)
Inductive bucketData : Type :=
| BBadText
| BNotArray
| BJobArray (entries : list JobInstance).

(** ** The file system *)

Inductive path : Type :=
| DataDir
| PostedJobsPath
| ArchiveDir
| ArchivePath (month : string)
| Tmp (target : path).

Inductive fsCall : Type :=
| ExistsSync (p : path)
| MkdirSync (p : path)
| ReadFileSync (p : path)
| OpenSync (p : path)
| WriteSync (p : path)
| FsyncSync (p : path)
| CloseSync (p : path)
| RenameSync (src dst : path).

(** Files by role: [posted_jobs.json] and its [.tmp] sibling, and the
    monthly buckets [archive/<month>.json] and their [.tmp] siblings, keyed
    by the month text. [rival] is what another writer puts in place of
    [posted_jobs.json] right after a rename onto it ([None]: this process
    is the only writer). [calls] lists the [fs] calls, oldest first. *)
Record disk : Type := mkDisk {
  ledger : option ledgerData;
  ledgerTmp : option ledgerData;
  buckets : gmap string bucketData;
  bucketTmps : gmap string bucketData;
  dirs : list path;
  rival : option ledgerData;
  calls : list fsCall
}.

Definition emptyDisk : disk :=
  mkDisk None None ∅ ∅ [] None [].

Definition logCall (c : fsCall) (d : disk) : disk :=
  mkDisk (ledger d) (ledgerTmp d) (buckets d) (bucketTmps d) (dirs d)
    (rival d) (calls d ++ [c]).

Fixpoint path_eqb (p q : path) : bool :=
  match p, q with
  | DataDir, DataDir | PostedJobsPath, PostedJobsPath
  | ArchiveDir, ArchiveDir => true
  | ArchivePath a, ArchivePath b => String.eqb a b
  | Tmp a, Tmp b => path_eqb a b
  | _, _ => false
  end.

Definition dirExists (d : disk) (p : path) : bool :=
  existsb (path_eqb p) (dirs d).

(** The directories [mkdirSync(p, { recursive: true })] makes sure of. *)
Definition withParents (p : path) : list path :=
  match p with
  | ArchiveDir => [ArchiveDir; DataDir]
  | _ => [p]
  end.

(** [if (!fs.existsSync(dir)) fs.mkdirSync(dir, { recursive: true })]. *)
Definition ensureDir (p : path) (d : disk) : disk :=
  let d1 := logCall (ExistsSync p) d in
  if dirExists d p then d1
  else
    let d2 := logCall (MkdirSync p) d1 in
    mkDisk (ledger d2) (ledgerTmp d2) (buckets d2) (bucketTmps d2)
      (withParents p ++ dirs d2) (rival d2) (calls d2).

(** [openSync(tmp, 'w'); writeSync; fsyncSync; closeSync] on the [.tmp]
    sibling of a bucket, then [renameSync(tmp, archivePath)]. *)
Definition writeBucketTmp (month : string) (b : bucketData) (d : disk) : disk :=
  let tmp := Tmp (ArchivePath month) in
  let d1 :=
    logCall (CloseSync tmp) (logCall (FsyncSync tmp)
      (logCall (WriteSync tmp) (logCall (OpenSync tmp) d))) in
  mkDisk (ledger d1) (ledgerTmp d1) (buckets d1)
    (<[month := b]> (bucketTmps d1)) (dirs d1) (rival d1) (calls d1).

Definition renameBucketTmp (month : string) (d : disk) : disk :=
  let d1 := logCall (RenameSync (Tmp (ArchivePath month)) (ArchivePath month)) d in
  match bucketTmps d1 !! month with
  | Some b =>
      mkDisk (ledger d1) (ledgerTmp d1) (<[month := b]> (buckets d1))
        (delete month (bucketTmps d1)) (dirs d1) (rival d1) (calls d1)
  | None => d1
  end.

(** The same five calls on [posted_jobs.json.tmp] and [posted_jobs.json]. *)
Definition writeLedgerTmp (x : ledgerData) (d : disk) : disk :=
  let tmp := Tmp PostedJobsPath in
  let d1 :=
    logCall (CloseSync tmp) (logCall (FsyncSync tmp)
      (logCall (WriteSync tmp) (logCall (OpenSync tmp) d))) in
  mkDisk (ledger d1) (Some x) (buckets d1) (bucketTmps d1) (dirs d1)
    (rival d1) (calls d1).

Definition renameLedgerTmp (d : disk) : disk :=
  let d1 := logCall (RenameSync (Tmp PostedJobsPath) PostedJobsPath) d in
  match ledgerTmp d1 with
  | Some x =>
      mkDisk (Some (default x (rival d1))) None (buckets d1) (bucketTmps d1)
        (dirs d1) (rival d1) (calls d1)
  | None => d1
  end.

(** ** Construction and loading *)

(** [process.env] after [parseInt]: [None] is [NaN] (variable unset or not
    a number). *)
Record processEnv : Type := mkEnv {
  ACTIVE_WINDOW_DAYS : option Z;
  REOPENING_WINDOW_DAYS : option Z
}.

(** [parseInt(v) || dflt]: [NaN] and [0] are falsy. *)
Definition orDefault (v : option Z) (dflt : Z) : Z :=
  match v with
  | None | Some 0 => dflt
  | Some n => n
  end.

(** The value [loadPostedJobs] returns: [rawData] itself, or an object the
    manager builds. *)
Inductive loaded : Type :=
| FromFile (rawData : ledgerData)
| Built (s : Store).

(** [this] while the constructor runs: a member not yet assigned reads as
    [undefined], here [None]. *)
Module This.
Record t : Type := mk {
  data : option loaded;
  archiveDir : option path;
  activeWindowDays : option Z;
  reopeningWindowDays : option Z
}.
Definition blank : t := mk None None None None.
End This.

Definition createEmptyDatabase (this : This.t) (now : Z) : Store :=
  {| version := 2;
     lastUpdated := now;
     jobs := [];
     metadata :=
       {| Metadata.totalJobs := 0;
          Metadata.activeWindowDays := This.activeWindowDays this;
          Metadata.migratedFromV1 := None;
          Metadata.migrationDate := None;
          Metadata.lastArchive := None |} |}.

Definition migrateFromV1 (this : This.t) (now : Z) (jobIdsArray : list string)
  : Store :=
  let eightDaysAgo := now - 8 * 24 * 60 * 60 * 1000 in
  let jobs :=
    imap (fun index jobId =>
      {| id := jobId +:+ "-migrated-" +:+ pretty index;
         jobId := jobId;
         company := "Unknown (migrated)";
         title := "Unknown (migrated)";
         postedToDiscord := eightDaysAgo;
         sourceDate := None;
         sourceUrl := None;
         discordThreadId := None;
         instanceNumber := 1 |}) jobIdsArray in
  {| version := 2;
     lastUpdated := now;
     jobs := jobs;
     metadata :=
       {| Metadata.totalJobs := length jobs;
          Metadata.activeWindowDays := This.activeWindowDays this;
          Metadata.migratedFromV1 := Some true;
          Metadata.migrationDate := Some now;
          Metadata.lastArchive := None |} |}.

(** [loadPostedJobs]. The [catch] returns the empty database for a text
    that does not parse, for [null] (reading [null.version] throws) and for
    a version-2 object without [jobs] (the log line of the V2 branch reads
    [rawData.jobs.length], which throws). A version-2 object with any other
    [jobs] member is returned as it is: reading [length] from a number, a
    text, a boolean or an object does not throw; but the log line throws
    when what it read does not convert to text. *)
Definition loadPostedJobs (this : This.t) (d : disk) (now : Z) : loaded * disk :=
  let d1 := logCall (ExistsSync PostedJobsPath) d in
  match ledger d with
  | None => (Built (createEmptyDatabase this now), d1)
  | Some rawData =>
      let d2 := logCall (ReadFileSync PostedJobsPath) d1 in
      match rawData with
      | LBadText =>
          (* [JSON.parse] throws *)
          (Built (createEmptyDatabase this now), d2)
      | LIdArray jobIds => (Built (migrateFromV1 this now jobIds), d2)
      | LNull =>
          (* [null.version] throws *)
          (Built (createEmptyDatabase this now), d2)
      | LScalar =>
          (* [version] is [undefined]: unknown format *)
          (Built (createEmptyDatabase this now), d2)
      | LStore s =>
          if version s =? 2 then (FromFile rawData, d2)
          else (Built (createEmptyDatabase this now), d2)
      | LObject v =>
          match v with
          | Some 2 =>
              (* [rawData.jobs.length] throws *)
              (Built (createEmptyDatabase this now), d2)
          | _ =>
              (* unknown format *)
              (Built (createEmptyDatabase this now), d2)
          end
      | LOddJobs v jobsLength =>
          match v with
          | Some 2 =>
              match jobsLength with
              | UnprintableLength =>
                  (* the template literal throws *)
                  (Built (createEmptyDatabase this now), d2)
              | _ =>
                  (* [rawData.jobs.length] is read and logged *)
                  (FromFile rawData, d2)
              end
          | _ =>
              (* unknown format *)
              (Built (createEmptyDatabase this now), d2)
          end
      end
  end.

(** The constructor: the database is loaded first, the three settings are
    assigned afterwards. *)
Definition constructor (env : processEnv) (d : disk) (now : Z) : This.t * disk :=
  let this0 := This.blank in
  let '(db, d1) := loadPostedJobs this0 d now in
  let this1 :=
    This.mk (Some db) (This.archiveDir this0) (This.activeWindowDays this0)
      (This.reopeningWindowDays this0) in
  let this2 :=
    This.mk (This.data this1) (Some ArchiveDir) (This.activeWindowDays this1)
      (This.reopeningWindowDays this1) in
  let this3 :=
    This.mk (This.data this2) (This.archiveDir this2)
      (Some (orDefault (ACTIVE_WINDOW_DAYS env) 7))
      (This.reopeningWindowDays this2) in
  let this4 :=
    This.mk (This.data this3) (This.archiveDir this3) (This.activeWindowDays this3)
      (Some (orDefault (REOPENING_WINDOW_DAYS env) 30)) in
  (this4, d1).

(** A constructed manager, as the methods below use it: every member is
    assigned and [data] is a database object. [archiveDir] is the directory
    the constructor assigns; the bucket of a month is [ArchivePath month],
    the file [<month>.json] in it. *)
Record manager : Type := mkManager {
  data : Store;
  archiveDir : path;
  activeWindowDays : Z;
  reopeningWindowDays : Z
}.

Definition storeOf (l : loaded) : option Store :=
  match l with
  | FromFile (LStore s) => Some s
  | FromFile _ => None
  | Built s => Some s
  end.

Definition ready (this : This.t) : option manager :=
  match This.data this, This.archiveDir this,
        This.activeWindowDays this, This.reopeningWindowDays this with
  | Some l, Some dir, Some a, Some r =>
      match storeOf l with
      | Some s => Some (mkManager s dir a r)
      | None => None
      end
  | _, _, _, _ => None
  end.

Definition setJobs (m : manager) (js : list JobInstance) : manager :=
  let s := data m in
  let md := metadata s in
  mkManager
    (mkStore (version s) (lastUpdated s) js
       (Metadata.mk (length js) (Metadata.activeWindowDays md)
          (Metadata.migratedFromV1 md) (Metadata.migrationDate md)
          (Metadata.lastArchive md)))
    (archiveDir m) (activeWindowDays m) (reopeningWindowDays m).

Definition setLastUpdated (m : manager) (now : Z) : manager :=
  let s := data m in
  mkManager (mkStore (version s) now (jobs s) (metadata s))
    (archiveDir m) (activeWindowDays m) (reopeningWindowDays m).

Definition setLastArchive (m : manager) (la : LastArchive) : manager :=
  let s := data m in
  let md := metadata s in
  mkManager
    (mkStore (version s) (lastUpdated s) (jobs s)
       (Metadata.mk (Metadata.totalJobs md) (Metadata.activeWindowDays md)
          (Metadata.migratedFromV1 md) (Metadata.migrationDate md) (Some la)))
    (archiveDir m) (activeWindowDays m) (reopeningWindowDays m).

(** ** The duplicate / reopening decision *)

(** [xs.sort((a, b) => new Date(a.postedToDiscord) - new Date(b.postedToDiscord))]:
    the stable ascending sort on the posting instant. *)
Fixpoint insertByPosted (j : JobInstance) (l : list JobInstance) : list JobInstance :=
  match l with
  | [] => [j]
  | k :: rest =>
      if postedToDiscord j <=? postedToDiscord k then j :: k :: rest
      else k :: insertByPosted j rest
  end.

Definition sortByPosted (l : list JobInstance) : list JobInstance :=
  foldr insertByPosted [] l.

(** [jobData && jobData.job_posted_at_datetime_utc]. *)
Definition sourceDateOf (jobData : option JobData) : option jsDate :=
  match jobData with
  | Some jd => job_posted_at_datetime_utc jd
  | None => None
  end.

Definition daysSinceSourcePost (now sourceMs : Z) : Q :=
  (inject_Z (now - sourceMs) / inject_Z (1000 * 60 * 60 * 24))%Q.

Definition monthsSince (now postedMs : Z) : Q :=
  (inject_Z (now - postedMs) / inject_Z (1000 * 60 * 60 * 24 * 30))%Q.

(** [hasBeenPosted]. [cutoffDate] and the comparisons with it are those of
    the source for a clock reading and a cutoff in the range of a [Date]
    ([Clock.validTime]). *)
Definition hasBeenPosted (m : manager) (now : Z) (jobId_ : string)
    (jobData : option JobData) : bool :=
  let instances := filter (fun job => jobId job = jobId_) (jobs (data m)) in
  if (length instances =? 0)%nat then false
  else
    let cutoffDate := now - activeWindowDays m * 24 * 60 * 60 * 1000 in
    let hasActiveInstance :=
      existsb (fun inst => bool_decide (cutoffDate < postedToDiscord inst))
        instances in
    if hasActiveInstance then true
    else
      match sourceDateOf jobData with
      | Some (ValidDate sourceMs) =>
          if Qle_bool (daysSinceSourcePost now sourceMs)
               (inject_Z (reopeningWindowDays m))
          then false else true
      | Some InvalidDate =>
          (* [NaN <= reopeningWindowDays] is false *)
          true
      | None =>
          match sortByPosted instances with
          | oldestInstance :: _ =>
              if Qle_bool 3 (monthsSince now (postedToDiscord oldestInstance))
              then false else true
          | [] => true
          end
      end.

(** ** Archiving *)

Record archiveStats : Type := mkStats {
  archived : nat;
  active : nat;
  months : option nat
}.

(** [job.postedToDiscord.slice(0, 7)]: the year and month of the stored
    text, which is the text [toISOString] printed for the instant. *)
Definition monthOf (job : JobInstance) : string :=
  Clock.slice07 (Clock.toISOString (postedToDiscord job)).

(** [jobsByMonth[month].push(job)], the keys kept in insertion order as
    [Object.entries] lists them. *)
Fixpoint pushGroup (month : string) (job : JobInstance)
    (groups : list (string * list JobInstance)) : list (string * list JobInstance) :=
  match groups with
  | [] => [(month, [job])]
  | (k, js) :: rest =>
      if decide (k = month) then (k, js ++ [job]) :: rest
      else (k, js) :: pushGroup month job rest
  end.

Definition groupByMonth (jobsToArchive : list JobInstance)
  : list (string * list JobInstance) :=
  fold_left (fun groups job => pushGroup (monthOf job) job groups)
    jobsToArchive [].

(** Load the existing archive of a month, or start a new one. *)
Definition readBucket (month : string) (d : disk) : list JobInstance * disk :=
  let d1 := logCall (ExistsSync (ArchivePath month)) d in
  match buckets d !! month with
  | None => ([], d1)
  | Some b =>
      let d2 := logCall (ReadFileSync (ArchivePath month)) d1 in
      match b with
      | BJobArray existingArchive => (existingArchive, d2)
      | BNotArray => ([], d2)
      | BBadText => ([], d2)
      end
  end.

(** The body of [Object.entries(jobsByMonth).forEach]. *)
Definition archiveMonth (acc : disk * nat) (group : string * list JobInstance)
  : disk * nat :=
  let '(d, totalArchived) := acc in
  let '(month, jobs) := group in
  let '(existingArchive, d1) := readBucket month d in
  let existingIds : gset string := list_to_set (id <$> existingArchive) in
  let newJobs := filter (fun j => id j ∉ existingIds) jobs in
  let mergedArchive := sortByPosted (existingArchive ++ newJobs) in
  let d2 :=
    renameBucketTmp month
      (writeBucketTmp month (BJobArray mergedArchive) d1) in
  (d2, (totalArchived + length newJobs)%nat).

(** [archiveOldJobs], with the same cutoff and the same proviso on its
    range as [hasBeenPosted]. *)
Definition archiveOldJobs (m : manager) (d : disk) (now : Z)
  : manager * disk * archiveStats :=
  let cutoffDate := now - activeWindowDays m * 24 * 60 * 60 * 1000 in
  let activeJobs :=
    filter (fun job => cutoffDate < postedToDiscord job) (jobs (data m)) in
  let jobsToArchive :=
    filter (fun job => ¬ cutoffDate < postedToDiscord job) (jobs (data m)) in
  if (length jobsToArchive =? 0)%nat then
    (m, d, mkStats 0 (length activeJobs) None)
  else
    let d1 := ensureDir (archiveDir m) d in
    let jobsByMonth := groupByMonth jobsToArchive in
    let '(d2, totalArchived) := fold_left archiveMonth jobsByMonth (d1, 0%nat) in
    (setJobs m activeJobs, d2,
     mkStats totalArchived (length activeJobs) (Some (length jobsByMonth))).

(** ** Saving and appending *)

(** How a call that may reach [process.exit(1)] ends. *)
Inductive outcome : Type :=
| Saved (m : manager) (d : disk)
| Exited (code : Z) (d : disk).

(** The read-back of [savePostedJobs]: [JSON.parse] and the comparison of
    [verifyData.jobs.length] with the length in memory; [false] when either
    throws or the two differ. The comparison is [!==] on whatever
    [jobs.length] reads, so a [jobs] member that is no array passes when
    its [length] is the number expected. On a mismatch the message of the
    error prints what was read; whether that throws in turn makes no
    difference to the outcome. *)
Definition verified (readBack : option ledgerData) (expected : nat) : bool :=
  match readBack with
  | Some (LStore verifyData) => (length (jobs verifyData) =? expected)%nat
  | Some (LOddJobs _ (NatLength n)) => (n =? expected)%nat
  | _ => false
  end.

Definition savePostedJobs (m : manager) (d : disk) (now : Z) : outcome :=
  let d1 := ensureDir DataDir d in
  let '(m1, d2, archiveStats) := archiveOldJobs m d1 now in
  let m2 := setLastUpdated m1 now in
  let m3 :=
    setLastArchive m2
      (mkLastArchive now (archived archiveStats) (months archiveStats)) in
  let d3 := renameLedgerTmp (writeLedgerTmp (LStore (data m3)) d2) in
  let d4 := logCall (ReadFileSync PostedJobsPath) d3 in
  if verified (ledger d3) (length (jobs (data m3))) then Saved m3 d4
  else Exited 1 d4.

(** [text || dflt]. *)
Definition orText (o : option string) (dflt : string) : string :=
  match o with
  | Some s => if decide (s = "") then dflt else s
  | None => dflt
  end.

(** [text || null]. *)
Definition orNull (o : option string) : option string :=
  match o with
  | Some s => if decide (s = "") then None else Some s
  | None => None
  end.

(** The object literal [newJob] of [markAsPosted]. *)
Definition newJob (m : manager) (now : Z) (jobId_ : string)
    (jobData : JobData) (discordThreadId_ : option string) : JobInstance :=
  let existingInstances := filter (fun job => jobId job = jobId_) (jobs (data m)) in
  let instanceNumber_ := (length existingInstances + 1)%nat in
  let instanceId :=
    jobId_ +:+ "-" +:+ Clock.beforeT (Clock.toISOString now) +:+ "-"
      +:+ pretty instanceNumber_ in
  {| id := instanceId;
     jobId := jobId_;
     company := orText (employer_name jobData) "Unknown";
     title := orText (job_title jobData) "Unknown";
     postedToDiscord := now;
     sourceDate := job_posted_at_datetime_utc jobData;
     sourceUrl := orNull (job_apply_link jobData);
     discordThreadId := discordThreadId_;
     instanceNumber := instanceNumber_ |}.

Definition markAsPosted (m : manager) (d : disk) (now : Z) (jobId_ : string)
    (jobData : JobData) (discordThreadId_ : option string) : outcome :=
  let job := newJob m now jobId_ jobData discordThreadId_ in
  let m1 := setLastUpdated (setJobs m (jobs (data m) ++ [job])) now in
  savePostedJobs m1 d now.

(** ** Runs of the manager *)

(** The calls a client makes, each with the instant at which it runs. *)
Inductive op : Type :=
| MarkAsPosted (now : Z) (jobId_ : string) (jobData : JobData)
    (discordThreadId_ : option string)
| ArchiveOldJobs (now : Z)
| SavePostedJobs (now : Z).

Definition opTime (o : op) : Z :=
  match o with
  | MarkAsPosted now _ _ _ => now
  | ArchiveOldJobs now => now
  | SavePostedJobs now => now
  end.

(** One call; [None] when the process exits. The second component lists
    the instance the call appended, if any. *)
Definition stepOp (o : op) (m : manager) (d : disk)
  : option (manager * disk * list JobInstance) :=
  match o with
  | MarkAsPosted now jobId_ jobData thread =>
      match markAsPosted m d now jobId_ jobData thread with
      | Saved m' d' => Some (m', d', [newJob m now jobId_ jobData thread])
      | Exited _ _ => None
      end
  | ArchiveOldJobs now =>
      let '(m', d', _) := archiveOldJobs m d now in Some (m', d', [])
  | SavePostedJobs now =>
      match savePostedJobs m d now with
      | Saved m' d' => Some (m', d', [])
      | Exited _ _ => None
      end
  end.

(** A sequence of calls; the result carries the instances appended, in call
    order. *)
Fixpoint run (ops : list op) (m : manager) (d : disk)
  : option (manager * disk * list JobInstance) :=
  match ops with
  | [] => Some (m, d, [])
  | o :: rest =>
      match stepOp o m d with
      | Some (m1, d1, appended) =>
          match run rest m1 d1 with
          | Some (m2, d2, later) => Some (m2, d2, appended ++ later)
          | None => None
          end
      | None => None
      end
  end.

(** The entries the archiver reads from the bucket of a month. *)
Definition bucketEntries (d : disk) (month : string) : list JobInstance :=
  match buckets d !! month with
  | Some (BJobArray entries) => entries
  | _ => []
  end.

(** An instance id is on record when it is in the active list or in some
    monthly bucket. *)
Definition recorded (i : string) (m : manager) (d : disk) : Prop :=
  i ∈ (id <$> jobs (data m)) ∨ ∃ month, i ∈ (id <$> bucketEntries d month).

(** ** Vocabulary of the properties *)

(** The instances of a job id in the active list. *)
Definition matching (m : manager) (jobId_ : string) : list JobInstance :=
  filter (fun job => jobId job = jobId_) (jobs (data m)).

(** [cutoffDate]: an instance is active when it was posted after it. *)
Definition cutoff (m : manager) (now : Z) : Z :=
  now - activeWindowDays m * Clock.msPerDay.

(** The clock reading and the cutoff computed from it are instants a
    [Date] can hold: the condition under which [cutoffDate] is the date the
    source computes. *)
Definition clockInRange (m : manager) (now : Z) : Prop :=
  Clock.validTime now ∧ Clock.validTime (cutoff m now).

(** A disk that holds [posted_jobs.json] and nothing else. *)
Definition withLedger (raw : ledgerData) : disk :=
  mkDisk (Some raw) None ∅ ∅ [DataDir] None [].

(** [rawData.version === 2]. *)
Definition isVersion2 (rawData : ledgerData) : Prop :=
  match rawData with
  | LStore s => version s = 2
  | LObject (Some 2) => True
  | LOddJobs (Some 2) _ => True
  | _ => False
  end.

(** An object whose [jobs] member is neither missing nor [null] and has
    a [length] that converts to text: the log line of the V2 branch of
    [loadPostedJobs] prints it without a throw. *)
Definition jobsLengthPrints (rawData : ledgerData) : Prop :=
  match rawData with
  | LStore _ => True
  | LOddJobs _ UnprintableLength => False
  | LOddJobs _ _ => True
  | _ => False
  end.

(** [newJobs]: the jobs of a month whose id the bucket does not hold. *)
Definition freshFor (existingArchive js : list JobInstance) : list JobInstance :=
  filter (fun j => id j ∉ (list_to_set (id <$> existingArchive) : gset string)) js.

(** [mergedArchive] for a month, from the disk as the loop finds it. *)
Definition mergedBucket (d : disk) (month : string) (js : list JobInstance)
  : list JobInstance :=
  sortByPosted (bucketEntries d month ++ freshFor (bucketEntries d month) js).

(** Ascending posting instants, the order in which a bucket is written. *)
Fixpoint ascending (l : list JobInstance) : Prop :=
  match l with
  | [] => True
  | j :: rest =>
      match rest with
      | [] => True
      | k :: _ => postedToDiscord j <= postedToDiscord k
      end ∧ ascending rest
  end.

(** The bucket of a month holds an array in ascending order. *)
Definition settled (d : disk) (month : string) : Prop :=
  ∃ entries, buckets d !! month = Some (BJobArray entries) ∧ ascending entries.

(** How often an id occurs in a list, in a bucket file, in all buckets,
    and across the active list and the buckets. *)
Definition countId (i : string) (l : list JobInstance) : nat :=
  length (filter (fun j => id j = i) l).

Definition entriesOf (b : bucketData) : list JobInstance :=
  match b with
  | BJobArray entries => entries
  | _ => []
  end.

Definition archivedCopies (i : string) (bs : gmap string bucketData) : nat :=
  sum_list ((fun kb => countId i (entriesOf kb.2)) <$> map_to_list bs).

Definition copies (i : string) (m : manager) (d : disk) : nat :=
  (countId i (jobs (data m)) + archivedCopies i (buckets d))%nat.

(** The five calls of an atomic replacement of [target]. *)
Definition atomicCalls (target : path) : list fsCall :=
  [OpenSync (Tmp target); WriteSync (Tmp target); FsyncSync (Tmp target);
   CloseSync (Tmp target); RenameSync (Tmp target) target].

(** The disk a call leaves behind, whichever way it ends. *)
Definition finalDisk (o : outcome) : disk :=
  match o with
  | Saved _ d => d
  | Exited _ d => d
  end.

(** The calls spent on one monthly bucket: the existence test, the read of
    an existing archive, and the replacement. *)
Definition bucketCalls (d : disk) (month : string) : list fsCall :=
  ExistsSync (ArchivePath month)
    :: match buckets d !! month with
       | Some _ => [ReadFileSync (ArchivePath month)]
       | None => []
       end
    ++ atomicCalls (ArchivePath month).

(** The calls of [if (!fs.existsSync(dir)) fs.mkdirSync(dir, ...)]. *)
Definition ensureCalls (d : disk) (p : path) : list fsCall :=
  ExistsSync p :: (if dirExists d p then [] else [MkdirSync p]).

(** [jobsToArchive]: the instances an archive cycle at [now] moves out of
    the active list. *)
Definition jobsToArchive (m : manager) (now : Z) : list JobInstance :=
  filter (fun job => ¬ cutoff m now < postedToDiscord job) (jobs (data m)).

(** The calls of an archive cycle on the disk [d]: none when no instance
    has aged, else the test for the archive directory and the calls of
    each month, in the order of [Object.entries(jobsByMonth)]. *)
Definition archiveCalls (m : manager) (d : disk) (now : Z) : list fsCall :=
  match jobsToArchive m now with
  | [] => []
  | _ =>
      ensureCalls d (archiveDir m)
        ++ mjoin (bucketCalls d <$> (groupByMonth (jobsToArchive m now)).*1)
  end.

(** What [verifyData.jobs.length] reads from the parsed ledger when that
    is a natural number; [None] when reading it throws or yields anything
    else. *)
Definition jobsLength (verifyData : ledgerData) : option nat :=
  match verifyData with
  | LStore s => Some (length (jobs s))
  | LOddJobs _ (NatLength n) => Some n
  | _ => None
  end.

(** ** Sample data *)

Module Sample.

(** 2023-11-14T22:13:20.000Z. *)
Definition t0 : Z := 1700000000000.
Definition day : Z := Clock.msPerDay.

Definition job : JobData :=
  mkJobData (Some "Acme"%string) (Some "Engineer"%string) None None.


(** The manager a constructor call builds on an empty disk with no
    settings in the environment. *)
Definition fresh : manager :=
  mkManager (createEmptyDatabase This.blank t0) ArchiveDir 7 30.

(** The same manager holding one instance of job ["A"] posted at [t0]. *)
Definition posted : JobInstance := newJob fresh t0 "A" job None.

Definition once : manager := setLastUpdated (setJobs fresh [posted]) t0.

(** Three announcements of job ["A"], ten days apart. *)
Definition threeAppends : list op :=
  [MarkAsPosted t0 "A" job None;
   MarkAsPosted (t0 + 10 * day) "A" job None;
   MarkAsPosted (t0 + 20 * day) "A" job None].

(** Two announcements with one archive cycle in between. *)
Definition appendArchiveAppend : list op :=
  [MarkAsPosted t0 "A" job None;
   ArchiveOldJobs (t0 + 8 * day);
   MarkAsPosted (t0 + 8 * day) "A" job None].

(** Job ["A"] announced at [t0], then twice on the seventh day after it,
    with a save in between that archives the first instance, and two saves
    a week later, one before and one after the third instance ages. *)
Definition hour : Z := 60 * 60 * 1000.

Definition sameDayAppends : list op :=
  [MarkAsPosted t0 "A" job None;
   MarkAsPosted (t0 + 7 * day - 2 * hour) "A" job None;
   SavePostedJobs (t0 + 7 * day);
   MarkAsPosted (t0 + 7 * day + hour) "A" job None;
   SavePostedJobs (t0 + 14 * day - 2 * hour);
   SavePostedJobs (t0 + 14 * day + hour)].

(** A V1 ledger of two ids and a window of fourteen days. *)
Definition legacyDisk : disk :=
  withLedger (LIdArray ["job-a"; "job-b"]%string).

Definition wideWindow : processEnv := mkEnv (Some 14) None.


(** A disk on which another writer replaces [posted_jobs.json] by an empty
    database. *)
Definition contended : disk :=
  mkDisk None None ∅ ∅ [] (Some (LStore (createEmptyDatabase This.blank t0))) [].

(** A disk on which the file read back after the rename does not parse. *)
Definition garbled : disk :=
  mkDisk None None ∅ ∅ [] (Some LBadText) [].

End Sample.

(** * The rest of the package

    The statistics of the manager and the other modules [index.js]
    exports: the subscription manager, the retry helper, the job
    normalizer, the two loggers and the date label. Each module of the
    package has a module here, and its facts a module after the facts of
    the ledger. An object used as a map is a list of its own members in
    the order the language lists them; a name that every object inherits
    from [Object.prototype] is told apart where the source reads a member
    by a name it was given. *)

(** ** Statistics ([getStats]) *)

(** The names every object literal inherits from [Object.prototype]. Reading
    one of them from a fresh [{}] yields a function, or the prototype itself
    for [__proto__]: a truthy value that is not a count. *)
Definition inheritedNames : list string :=
  ["constructor"; "__defineGetter__"; "__defineSetter__"; "hasOwnProperty";
   "__lookupGetter__"; "__lookupSetter__"; "isPrototypeOf";
   "propertyIsEnumerable"; "toString"; "valueOf"; "__proto__";
   "toLocaleString"]%string.

(** An own member of [instanceCounts]: a number, or the text that
    [value + 1] makes of a function or of an earlier such text. *)
Inductive countValue : Type :=
| Count (n : nat)
| CountText.

(** [instanceCounts[job.jobId] = (instanceCounts[job.jobId] || 0) + 1]. An
    assignment to [__proto__] with a text goes to the inherited setter,
    which ignores it. *)
Definition bumpCount (instanceCounts : gmap string countValue)
    (job : JobInstance) : gmap string countValue :=
  let key := jobId job in
  if decide (key = "__proto__"%string) then instanceCounts
  else
    match instanceCounts !! key with
    | Some (Count n) => <[key := Count (n + 1)]> instanceCounts
    | Some CountText => <[key := CountText]> instanceCounts
    | None =>
        if decide (key ∈ inheritedNames) then <[key := CountText]> instanceCounts
        else <[key := Count 1]> instanceCounts
    end.

(** [Math.max(...values, 0)]; [None] is [NaN], the result as soon as one
    value is not a number. *)
Fixpoint mathMax (values : list countValue) : option nat :=
  match values with
  | [] => Some 0%nat
  | Count n :: rest =>
      match mathMax rest with
      | Some k => Some (Nat.max n k)
      | None => None
      end
  | CountText :: _ => None
  end.

Module Stats.
Record t : Type := mk {
  version : Z;
  totalRecords : nat;
  uniqueJobs : nat;
  activeJobs : nat;
  toBeArchived : Z;
  maxInstances : option nat;
  activeWindowDays : Z;
  lastUpdated : Z
}.
End Stats.

(** [getStats], with the cutoff of [archiveOldJobs] and the same proviso
    on its range. *)
Definition getStats (m : manager) (now : Z) : Stats.t :=
  let cutoffDate := now - activeWindowDays m * 24 * 60 * 60 * 1000 in
  let activeCount :=
    length (filter (fun j => cutoffDate < postedToDiscord j) (jobs (data m))) in
  let toArchiveCount :=
    Z.of_nat (length (jobs (data m))) - Z.of_nat activeCount in
  let uniqueJobIds : gset string := list_to_set (jobId <$> jobs (data m)) in
  let instanceCounts := fold_left bumpCount (jobs (data m)) ∅ in
  let maxInstances := mathMax ((map_to_list instanceCounts).*2) in
  {| Stats.version := version (data m);
     Stats.totalRecords := length (jobs (data m));
     Stats.uniqueJobs := size uniqueJobIds;
     Stats.activeJobs := activeCount;
     Stats.toBeArchived := toArchiveCount;
     Stats.maxInstances := maxInstances;
     Stats.activeWindowDays := activeWindowDays m;
     Stats.lastUpdated := lastUpdated (data m) |}.

(** The number of instances of a job id in a list. *)
Definition countJob (k : string) (l : list JobInstance) : nat :=
  length (filter (fun job => jobId job = k) l).

(** ** Subscriptions (src/data/subscription-manager.js) *)

Module Subscriptions.

(** How a method call ends: with a value, or with the [TypeError] of a
    call on a value that has no such method. *)
Inductive result (A : Type) : Type :=
| Returned (a : A)
| Threw.
Arguments Returned {A} a.
Arguments Threw {A}.

(** The value of a decimal numeral, [None] for any other text. *)
Definition digitValue (c : ascii) : option N :=
  let n := N_of_ascii c in
  if (48 <=? n)%N && (n <=? 57)%N then Some (n - 48)%N else None.

Fixpoint digitsValue (acc : N) (s : string) : option N :=
  match s with
  | EmptyString => Some acc
  | String c rest =>
      match digitValue c with
      | Some v => digitsValue (acc * 10 + v)%N rest
      | None => None
      end
  end.

(** A property key is an array index when it is the canonical numeral of an
    integer from 0 to 2^32 - 2; an object lists these keys first, in
    ascending order, and the other keys after them, in the order of their
    creation. *)
Definition arrayIndex (key : string) : option N :=
  match key with
  | EmptyString => None
  | String c rest =>
      if Ascii.eqb c "0"%char && negb (String.eqb rest "") then None
      else
        match digitsValue 0 key with
        | Some n => if (n <=? 4294967294)%N then Some n else None
        | None => None
        end
  end.

(** [this.subscriptions]: the own members of the object, in the order
    [Object.entries] and [JSON.stringify] list them. *)
Definition subscriptions : Type := list (string * list string).

Fixpoint lookupKey (key : string) (subs : subscriptions) : option (list string) :=
  match subs with
  | [] => None
  | (k, v) :: rest => if decide (k = key) then Some v else lookupKey key rest
  end.

(** Assignment to an existing member keeps its place. *)
Fixpoint updateKey (key : string) (v : list string) (subs : subscriptions)
  : subscriptions :=
  match subs with
  | [] => []
  | (k, v0) :: rest =>
      if decide (k = key) then (k, v) :: rest
      else (k, v0) :: updateKey key v rest
  end.

Fixpoint insertIndex (n : N) (key : string) (v : list string)
    (subs : subscriptions) : subscriptions :=
  match subs with
  | [] => [(key, v)]
  | (k, v0) :: rest =>
      match arrayIndex k with
      | Some n0 =>
          if (n0 <? n)%N then (k, v0) :: insertIndex n key v rest
          else (key, v) :: subs
      | None => (key, v) :: subs
      end
  end.

(** Assignment to a member the object does not have. *)
Definition insertKey (key : string) (v : list string) (subs : subscriptions)
  : subscriptions :=
  match arrayIndex key with
  | Some n => insertIndex n key v subs
  | None => subs ++ [(key, v)]
  end.

(** [delete this.subscriptions[userId]]. *)
Definition deleteKey (key : string) (subs : subscriptions) : subscriptions :=
  filter (fun kv => kv.1 ≠ key) subs.

(** [tags.splice(index, 1)] at the first index of [tag]. *)
Fixpoint removeFirst (tag : string) (tags : list string) : list string :=
  match tags with
  | [] => []
  | t :: rest => if decide (t = tag) then rest else t :: removeFirst tag rest
  end.

(** What [JSON.parse] makes of [subscriptions.json]: a text that does not
    parse, an object from user ids to arrays of tags, as the program
    writes it, or any other value: [null], a number, a text, a boolean,
    an array, or an object with a member that is not an array of texts. *)
Inductive subsFile : Type :=
| SBadText
| SObject (subs : subscriptions)
| SOther.

(** What the constructor stores in [this.subscriptions]: an object from
    user ids to arrays of tags, or the value of another kind the file
    held. The methods below are those of a manager that holds such an
    object; on [null] every one of them throws, members added to an array
    are not written back, and a member that is no array has no
    [includes], [push] or [some]. *)
Inductive stored : Type :=
| Members (subs : subscriptions)
| OtherValue.

(** The file, whether the data directory exists, and whether [mkdirSync]
    and [writeFileSync] succeed. *)
Record disk : Type := mkDisk {
  file : option subsFile;
  dataDirExists : bool;
  mkdirWorks : bool;
  writeWorks : bool
}.

(** [loadSubscriptions] returns whatever [JSON.parse] yields, and [{}]
    when the file is missing or its text does not parse. *)
Definition loadSubscriptions (d : disk) : stored :=
  match file d with
  | Some (SObject subs) => Members subs
  | Some SOther => OtherValue
  | Some SBadText => Members []
  | None => Members []
  end.

(** [saveSubscriptions]: the directory is made when missing, then the file
    is written; an error of either call is caught and logged. *)
Definition saveSubscriptions (subs : subscriptions) (d : disk) : disk :=
  let made : option disk :=
    if dataDirExists d then Some d
    else if mkdirWorks d
      then Some (mkDisk (file d) true (mkdirWorks d) (writeWorks d))
      else None in
  match made with
  | None => d
  | Some d1 =>
      if writeWorks d1
      then mkDisk (Some (SObject subs)) (dataDirExists d1) (mkdirWorks d1)
             (writeWorks d1)
      else d1
  end.

(** Whether a save reaches the file. *)
Definition writable (d : disk) : bool :=
  (dataDirExists d || mkdirWorks d) && writeWorks d.

Definition subscribe (subs : subscriptions) (d : disk) (userId tag : string)
  : result bool * subscriptions * disk :=
  match lookupKey userId subs with
  | None =>
      if decide (userId ∈ inheritedNames) then
        (* the inherited member is truthy and has no [includes] *)
        (Threw, subs, d)
      else
        let subs1 := insertKey userId [] subs in
        let subs2 := updateKey userId ([] ++ [tag]) subs1 in
        (Returned true, subs2, saveSubscriptions subs2 d)
  | Some tags =>
      if decide (tag ∈ tags) then (Returned false, subs, d)
      else
        let subs2 := updateKey userId (tags ++ [tag]) subs in
        (Returned true, subs2, saveSubscriptions subs2 d)
  end.

Definition unsubscribe (subs : subscriptions) (d : disk) (userId tag : string)
  : result bool * subscriptions * disk :=
  match lookupKey userId subs with
  | None =>
      if decide (userId ∈ inheritedNames) then
        (* the inherited member is truthy and has no [indexOf] *)
        (Threw, subs, d)
      else (Returned false, subs, d)
  | Some tags =>
      if decide (tag ∈ tags) then
        let remaining := removeFirst tag tags in
        let subs1 := updateKey userId remaining subs in
        let subs2 :=
          if (length remaining =? 0)%nat then deleteKey userId subs1 else subs1 in
        (Returned true, subs2, saveSubscriptions subs2 d)
      else (Returned false, subs, d)
  end.

(** [getUsersForTags]: the users are added to a [Set] in the order of
    [Object.entries]; a user is added once, keys being distinct. *)
Definition getUsersForTags (subs : subscriptions) (tags : list string)
  : list string :=
  let users :=
    fold_left (fun (users : list string) (entry : string * list string) =>
      let '(userId, userTags) := entry in
      if existsb (fun tag => bool_decide (tag ∈ tags)) userTags then
        if decide (userId ∈ users) then users else users ++ [userId]
      else users) subs [] in
  users.

(** [this.subscriptions[userId] || []]; [None] stands for the inherited
    member returned for a name of [Object.prototype], which is no array. *)
Definition getUserSubscriptions (subs : subscriptions) (userId : string)
  : option (list string) :=
  match lookupKey userId subs with
  | Some tags => Some tags
  | None => if decide (userId ∈ inheritedNames) then None else Some []
  end.

(** The calls that change the subscriptions. *)
Inductive call : Type :=
| Subscribe (userId tag : string)
| Unsubscribe (userId tag : string).

Definition step (c : call) (subs : subscriptions) (d : disk)
  : result bool * subscriptions * disk :=
  match c with
  | Subscribe userId tag => subscribe subs d userId tag
  | Unsubscribe userId tag => unsubscribe subs d userId tag
  end.

(** A sequence of calls; a call that throws leaves the state as it was and
    the caller goes on. *)
Definition runCalls (cs : list call) (subs : subscriptions) (d : disk)
  : subscriptions * disk :=
  fold_left (fun sd c => let '(_, subs', d') := step c sd.1 sd.2 in (subs', d'))
    cs (subs, d).

Definition atLeast (lastIndex : option N) (n : N) : Prop :=
  match lastIndex with Some n0 => (n0 <= n)%N | None => True end.

(** Keys distinct and in the order an object lists them, no user without
    a tag, no tag twice for a user. *)
Fixpoint keyOrder (lastIndex : option N) (named : bool) (subs : subscriptions)
  : Prop :=
  match subs with
  | [] => True
  | (k, _) :: rest =>
      match arrayIndex k with
      | Some n =>
          named = false ∧ atLeast lastIndex n ∧ keyOrder (Some n) false rest
      | None => keyOrder lastIndex true rest
      end
  end.

Definition wellFormed (subs : subscriptions) : Prop :=
  NoDup subs.*1 ∧ keyOrder None false subs ∧
  ∀ userId tags, (userId, tags) ∈ subs → tags ≠ [] ∧ NoDup tags.

End Subscriptions.

(** ** Retries (src/utils/error-handler.js) *)

Module ErrorHandler.

(** What one call of [fn] settles to; a synchronous throw of [fn] is
    caught by the same [try] and counts as a rejection. *)
Inductive settled (V E : Type) : Type :=
| Resolved (v : V)
| Rejected (e : E).
Arguments Resolved {V E} v.
Arguments Rejected {V E} e.

(** How [retryWithBackoff] ends; [Threw None] is the throw of a
    [lastError] that was never assigned, that is of [undefined]. *)
Inductive outcome (V E : Type) : Type :=
| Returned (v : V)
| Threw (lastError : option E).
Arguments Returned {V E} v.
Arguments Threw {V E} lastError.

(** What the caller can observe of a run. *)
Inductive event (E : Type) : Type :=
| Call (attempt : Z)
| OnRetry (error : E) (attempt : Z) (delay : Z)
| Sleep (delay : Z).
Arguments Call {E} attempt.
Arguments OnRetry {E} error attempt delay.
Arguments Sleep {E} delay.

(** [options] with the defaults filled in. The numbers are integers; a
    callback returns ([None]) or throws ([Some thrown]). The source
    computes with doubles, the model in [Z]: the two agree as long as the
    numbers a run computes are integers a double holds exactly, which
    [exactDelays] below states and the theorems on the delays assume. *)
Record options (E : Type) : Type := mkOptions {
  maxRetries : Z;
  initialDelay : Z;
  maxDelay : Z;
  factor : Z;
  onRetry : option (E → Z → Z → option E)
}.
Arguments mkOptions {E}.
Arguments maxRetries {E}.
Arguments initialDelay {E}.
Arguments maxDelay {E}.
Arguments factor {E}.
Arguments onRetry {E}.

Definition defaults {E : Type} : options E :=
  mkOptions 3 1000 10000 2 None.

Section Retry.
Context {V E : Type}.

(** [Math.min(initialDelay * Math.pow(factor, attempt), maxDelay)], for a
    power and a product that are computed without rounding. *)
Definition delayAt (o : options E) (attempt : Z) : Z :=
  Z.min (initialDelay o * factor o ^ attempt) (maxDelay o).

(** An integer of magnitude at most 2^53. Every such integer is a double,
    and a sum or product of integers with such a result is computed
    exactly; so is a power, [Math.pow] being taken to return the power
    itself whenever that is a double. *)
Definition safeInteger (n : Z) : Prop := Z.abs n <= 2 ^ 53.

(** The options are safe integers, and so are the power and the product
    in each of the first [n] delays. *)
Definition exactDelays (o : options E) (n : nat) : Prop :=
  safeInteger (maxRetries o) ∧ safeInteger (initialDelay o) ∧
  safeInteger (maxDelay o) ∧ safeInteger (factor o) ∧
  Forall (fun i => safeInteger (factor o ^ Z.of_nat i) ∧
                   safeInteger (initialDelay o * factor o ^ Z.of_nat i))
    (seq 0 n).

(** The loop of [retryWithBackoff]; [fn k] is what the call number [k] of
    [fn] settles to, [remaining] counts the iterations the loop condition
    [attempt <= maxRetries] still allows. *)
Fixpoint attempts (fn : nat → settled V E) (o : options E) (remaining : nat)
    (attempt : Z) (lastError : option E) (trace : list (event E))
  : outcome V E * list (event E) :=
  match remaining with
  | O => (Threw lastError, trace)
  | S remaining' =>
      match fn (Z.to_nat attempt) with
      | Resolved v => (Returned v, trace ++ [Call attempt])
      | Rejected error =>
          if attempt =? maxRetries o then
            (Threw (Some error), trace ++ [Call attempt])
          else
            let delay := delayAt o attempt in
            match onRetry o with
            | Some callback =>
                match callback error (attempt + 1) delay with
                | Some thrown =>
                    (Threw (Some thrown),
                     trace ++ [Call attempt; OnRetry error (attempt + 1) delay])
                | None =>
                    attempts fn o remaining' (attempt + 1) (Some error)
                      (trace ++ [Call attempt;
                                 OnRetry error (attempt + 1) delay;
                                 Sleep delay])
                end
            | None =>
                attempts fn o remaining' (attempt + 1) (Some error)
                  (trace ++ [Call attempt; Sleep delay])
            end
      end
  end.

Definition retryWithBackoff (fn : nat → settled V E) (o : options E)
  : outcome V E * list (event E) :=
  attempts fn o (Z.to_nat (maxRetries o + 1)) 0 None [].

(** The calls of [fn] and the waits of a run. *)
Fixpoint calls (trace : list (event E)) : nat :=
  match trace with
  | [] => 0
  | Call _ :: rest => S (calls rest)
  | _ :: rest => calls rest
  end.

Fixpoint sleeps (trace : list (event E)) : list Z :=
  match trace with
  | [] => []
  | Sleep delay :: rest => delay :: sleeps rest
  | _ :: rest => sleeps rest
  end.

(** No callback, or one that returns whatever it is given. *)
Definition callbackReturns (o : options E) : Prop :=
  ∀ callback, onRetry o = Some callback →
  ∀ error attempt delay, callback error attempt delay = None.

(** The first [n] calls of [fn] are rejected. *)
Definition rejectedBelow (fn : nat → settled V E) (n : nat) : Prop :=
  ∀ k, (k < n)%nat → ∃ error, fn k = Rejected error.

End Retry.

(** A value thrown at [discordApiCall]: [null] or [undefined], an error
    with its message, or the [TypeError] of reading a member of [null]. *)
Inductive thrown : Type :=
| Nullish
| Error (message : string)
| TypeError.

(** The [onRetry] of [discordApiCall]: it logs two warnings; reading
    [error.message] throws when [error] is [null] or [undefined]. *)
Definition warnRetry (context : string) (error : thrown) (attempt delay : Z)
  : option thrown :=
  match error with
  | Nullish => Some TypeError
  | Error _ | TypeError => None
  end.

Definition discordApiCall {V : Type} (apiCall : nat → settled V thrown)
    (context : string) : outcome V thrown * list (event thrown) :=
  retryWithBackoff apiCall
    (mkOptions 3 1000 (maxDelay (@defaults thrown)) (factor (@defaults thrown))
       (Some (warnRetry context))).

End ErrorHandler.

(** ** Texts

    A text is held as the bytes of its UTF-8 form. A byte below 128 is an
    ASCII character and occurs in no longer sequence, so searching and
    splitting at ASCII texts give on the bytes what they give on the
    characters. *)

Module Text.

(** [s.startsWith(start)]. *)
Fixpoint startsWith (s start : string) {struct start} : bool :=
  match start with
  | EmptyString => true
  | String b start' =>
      match s with
      | EmptyString => false
      | String c s' => Ascii.eqb c b && startsWith s' start'
      end
  end.

(** [hay.includes(needle)]. *)
Fixpoint includes (hay needle : string) : bool :=
  startsWith hay needle ||
  match hay with
  | EmptyString => false
  | String _ rest => includes rest needle
  end.

(** [s.split(sep)] for a separator of one character: never empty. *)
Fixpoint split (sep : ascii) (s : string) : list string :=
  match s with
  | EmptyString => [EmptyString]
  | String c rest =>
      if Ascii.eqb c sep then EmptyString :: split sep rest
      else
        match split sep rest with
        | [] => [String c EmptyString]
        | part :: parts => String c part :: parts
        end
  end.

Definition bytes (codes : list N) : string :=
  string_of_list_ascii (ascii_of_N <$> codes).

(** The white space and line terminators [trim] removes and [\s] matches:
    tab, line feed, vertical tab, form feed, carriage return, space, and
    U+00A0, U+1680, U+2000 to U+200A, U+2028, U+2029, U+202F, U+205F,
    U+3000 and U+FEFF. *)
Definition whiteSpace : list string :=
  (bytes <$> [[9]; [10]; [11]; [12]; [13]; [32]; [194; 160]; [225; 154; 128]])%N
  ++ ((fun last => bytes [226; 128; last]) <$>
        [128; 129; 130; 131; 132; 133; 134; 135; 136; 137; 138; 168; 169; 175])%N
  ++ (bytes <$> [[226; 129; 159]; [227; 128; 128]; [239; 187; 191]])%N.

Fixpoint dropBytes (n : nat) (s : string) : string :=
  match n, s with
  | S n', String _ rest => dropBytes n' rest
  | _, _ => s
  end.

(** The white space [s] starts with, if any. *)
Definition leadingSpace (s : string) : option string :=
  List.find (fun space => startsWith s space) whiteSpace.

Fixpoint trimStartWithin (fuel : nat) (s : string) : string :=
  match fuel with
  | O => s
  | S fuel' =>
      match leadingSpace s with
      | Some space => trimStartWithin fuel' (dropBytes (String.length space) s)
      | None => s
      end
  end.

Definition trimStart (s : string) : string :=
  trimStartWithin (String.length s) s.

Definition reverse (s : string) : string :=
  string_of_list_ascii (rev (list_ascii_of_string s)).

Definition trailingSpace (reversed : string) : option string :=
  List.find (fun space => startsWith reversed (reverse space)) whiteSpace.

Fixpoint trimEndWithin (fuel : nat) (reversed : string) : string :=
  match fuel with
  | O => reversed
  | S fuel' =>
      match trailingSpace reversed with
      | Some space =>
          trimEndWithin fuel' (dropBytes (String.length space) reversed)
      | None => reversed
      end
  end.

Definition trimEnd (s : string) : string :=
  reverse (trimEndWithin (String.length s) (reverse s)).

(** [s.trim()]. *)
Definition trim (s : string) : string := trimEnd (trimStart s).

Definition lowerAscii (c : ascii) : ascii :=
  let n := N_of_ascii c in
  if (65 <=? n)%N && (n <=? 90)%N then ascii_of_N (n + 32) else c.

(** [s.toLowerCase()] as far as ASCII letters go: the capitals of ASCII,
    the Kelvin sign U+212A, which becomes [k], and U+0130, which becomes
    [i] followed by U+0307. Every other character becomes, or stays, a
    character outside ASCII, and is left as it is here: the code only
    searches lowered texts for ASCII texts and compares them with such. *)
Fixpoint toLowerCase (s : string) : string :=
  match s with
  | EmptyString => EmptyString
  | String c rest =>
      match s with
      | String "226" (String "132" (String "170" rest')) =>
          String "k" (toLowerCase rest')
      | String "196" (String "176" rest') =>
          String "i" (String "204" (String "135" (toLowerCase rest')))
      | _ => String (lowerAscii c) (toLowerCase rest)
      end
  end.

(** Neither white space at an end nor a comma inside. *)
Definition plain (s : string) : Prop :=
  trim s = s ∧ includes s "," = false.

End Text.

(** ** Job normalization (src/utils/job-normalizer.js) *)

Module JobNormalizer.

(** A job as a source delivers it. A member is a text or is missing
    ([None], for [undefined] and [null] alike); [locations] is [None] when
    it is missing or no array, and holds texts otherwise; [others] are the
    members the function does not look at, which the spread copies. *)
Record Job : Type := mkJob {
  title : option string;
  company_name : option string;
  url : option string;
  locations : option (list string);
  job_title : option string;
  employer_name : option string;
  job_apply_link : option string;
  job_city : option string;
  job_state : option string;
  others : list (string * string)
}.

(** A missing member and the empty text are falsy. *)
Definition truthy (member : option string) : bool :=
  match member with
  | Some s => negb (String.eqb s "")
  | None => false
  end.

Definition setTitle (v : option string) (job : Job) : Job :=
  mkJob (title job) (company_name job) (url job) (locations job)
    v (employer_name job) (job_apply_link job) (job_city job) (job_state job)
    (others job).

Definition setEmployer (v : option string) (job : Job) : Job :=
  mkJob (title job) (company_name job) (url job) (locations job)
    (job_title job) v (job_apply_link job) (job_city job) (job_state job)
    (others job).

Definition setApplyLink (v : option string) (job : Job) : Job :=
  mkJob (title job) (company_name job) (url job) (locations job)
    (job_title job) (employer_name job) v (job_city job) (job_state job)
    (others job).

Definition setPlace (city state : option string) (job : Job) : Job :=
  mkJob (title job) (company_name job) (url job) (locations job)
    (job_title job) (employer_name job) (job_apply_link job) city state
    (others job).

Definition normalizeJob (job : Job) : Job :=
  if truthy (job_title job) && truthy (employer_name job) then job
  else
    let normalized := job in
    let normalized :=
      if negb (truthy (job_title normalized)) && truthy (title job)
      then setTitle (title job) normalized else normalized in
    let normalized :=
      if negb (truthy (employer_name normalized)) && truthy (company_name job)
      then setEmployer (company_name job) normalized else normalized in
    let normalized :=
      if negb (truthy (job_apply_link normalized)) && truthy (url job)
      then setApplyLink (url job) normalized else normalized in
    match locations job with
    | Some (location :: _) =>
        if Text.includes location "," then
          let parts := Text.trim <$> Text.split "," location in
          setPlace (parts !! 0%nat) (parts !! 1%nat) normalized
        else if Text.includes (Text.toLowerCase location) "remote" then
          setPlace (Some "Remote") (Some "Remote") normalized
        else setPlace (Some location) (Some "") normalized
    | Some [] | None => normalized
    end.

(** What the first location gives for [job_city] and [job_state], when
    there is one. *)
Definition placeOf (job : Job) : option (option string * option string) :=
  match locations job with
  | Some (location :: _) =>
      Some (if Text.includes location "," then
              let parts := Text.trim <$> Text.split "," location in
              (parts !! 0%nat, parts !! 1%nat)
            else if Text.includes (Text.toLowerCase location) "remote" then
              (Some "Remote"%string, Some "Remote"%string)
            else (Some location, Some ""%string))
  | Some [] | None => None
  end.

End JobNormalizer.

(** ** Loggers (discord-post-logger.js, deduplication-logger.js) *)

Module Loggers.

(** The members of a job the loggers read; [None] is a missing member. *)
Record Job : Type := mkJob {
  employer_name : option string;
  company : option string;
  job_title : option string;
  title : option string
}.

(** [a || b] on members that are texts or missing. *)
Definition orElse (a b : option string) : option string :=
  match a with
  | Some s => if decide (s = "") then b else a
  | None => b
  end.

(** [error.code]: missing, a text (Node) or a number (Discord). *)
Inductive errorCode : Type :=
| CodeText (s : string)
| CodeNumber (n : Z).

(** The members of an error [logFailure] reads; the stack is held as its
    UTF-16 code units, which [substring] counts. *)
Record Error : Type := mkError {
  message : option string;
  code : option errorCode;
  stack : option (list N)
}.

(** [error.code || null]. *)
Definition codeOrNull (c : option errorCode) : option errorCode :=
  match c with
  | Some (CodeText s) => if decide (s = "") then None else c
  | Some (CodeNumber n) => if decide (n = 0) then None else c
  | None => None
  end.

(** [error.stack ? error.stack.substring(0, 500) : null]. *)
Definition stackOrNull (s : option (list N)) : option (list N) :=
  match s with
  | Some [] | None => None
  | Some units => Some (take 500 units)
  end.

(** What an entry of [DiscordPostLogger] holds besides the job. *)
Inductive result : Type :=
| SUCCESS (channel_id channel_name : string)
    (message_id thread_id : option string) (duration_ms : Z)
| FAILED (channel_id channel_name : string)
    (error_message : option string) (error_code : option errorCode)
    (error_stack : option (list N))
| SKIPPED (reason : string).

Record post : Type := mkPost {
  timestamp : string;
  jobId : string;
  post_company : option string;
  post_title : option string;
  outcome : result
}.

(** [entry.status]. *)
Definition status (entry : post) : string :=
  match outcome entry with
  | SUCCESS _ _ _ _ _ => "SUCCESS"
  | FAILED _ _ _ _ _ => "FAILED"
  | SKIPPED _ => "SKIPPED"
  end.

Definition entryOf (now : Z) (job : Job) (jobId_ : string) (r : result) : post :=
  {| timestamp := Clock.toISOString now;
     jobId := jobId_;
     post_company := orElse (employer_name job) (company job);
     post_title := orElse (job_title job) (title job);
     outcome := r |}.

(** [this.posts] after the call. *)
Definition logSuccess (posts : list post) (now : Z) (job : Job)
    (jobId_ channelId channelName : string)
    (messageId threadId : option string) (duration : Z) : list post :=
  posts ++ [entryOf now job jobId_
              (SUCCESS channelId channelName messageId threadId duration)].

Definition logFailure (posts : list post) (now : Z) (job : Job)
    (jobId_ channelId channelName : string) (error : Error) : list post :=
  posts ++ [entryOf now job jobId_
              (FAILED channelId channelName (message error)
                 (codeOrNull (code error)) (stackOrNull (stack error)))].

Definition logSkip (posts : list post) (now : Z) (job : Job)
    (jobId_ reason : string) : list post :=
  posts ++ [entryOf now job jobId_ (SKIPPED reason)].

(** An entry of [DeduplicationLogger]. *)
Record check : Type := mkCheck {
  check_timestamp : string;
  check_jobId : string;
  check_company : option string;
  check_title : option string;
  isDuplicate : bool;
  decision : string;
  check_reason : option string;
  firstSeen : option string
}.

(** [this.checks] after the call. *)
Definition logCheck (checks : list check) (now : Z) (job : Job)
    (jobId_ : string) (isDuplicate_ : bool)
    (firstSeen_ reason : option string) : list check :=
  checks ++
  [{| check_timestamp := Clock.toISOString now;
      check_jobId := jobId_;
      check_company := orElse (employer_name job) (company job);
      check_title := orElse (job_title job) (title job);
      isDuplicate := isDuplicate_;
      decision := if isDuplicate_ then "SKIP" else "POST";
      check_reason := reason;
      firstSeen := firstSeen_ |}].

(** A line of a log file: the JSON text of one entry. *)
Inductive line : Type :=
| PostLine (entry : post)
| CheckLine (entry : check).

(** The log directories and files; a file holds whole lines and is named
    by its directory and its name in it. [mkdirWorks] and [appendWorks]
    tell whether [mkdirSync] and [appendFileSync] succeed. *)
Record disk : Type := mkDisk {
  dirs : gset string;
  files : gmap (string * string) (list line);
  mkdirWorks : bool;
  appendWorks : bool
}.

(** [fs.appendFileSync(path.join(logDir, name), lines)]. *)
Definition appendFile (logDir name : string) (lines : list line) (d : disk)
  : disk :=
  mkDisk (dirs d)
    (<[(logDir, name) := default [] (files d !! (logDir, name)) ++ lines]>
       (files d))
    (mkdirWorks d) (appendWorks d).

(** The body of [save], common to the two loggers: nothing happens without
    entries, and an error of either call is caught and logged. *)
Definition saveLines (logDir name : string) (lines : list line) (d : disk)
  : disk :=
  match lines with
  | [] => d
  | _ :: _ =>
      if mkdirWorks d then
        let d1 := mkDisk ({[logDir]} ∪ dirs d) (files d)
                    (mkdirWorks d) (appendWorks d) in
        if appendWorks d then appendFile logDir name lines d1 else d1
      else d
  end.

Definition dateOf (now : Z) : string := Clock.beforeT (Clock.toISOString now).

Definition savePosts (posts : list post) (now : Z) (logDir : string) (d : disk)
  : disk :=
  saveLines logDir ("discord-posts-" +:+ dateOf now +:+ ".jsonl")
    (PostLine <$> posts) d.

Definition saveChecks (checks : list check) (now : Z) (logDir : string)
    (d : disk) : disk :=
  saveLines logDir ("dedup-checks-" +:+ dateOf now +:+ ".jsonl")
    (CheckLine <$> checks) d.

(** [getSummary] of [DiscordPostLogger]. *)
Record summary : Type := mkSummary {
  total : nat;
  successful : nat;
  failed : nat;
  skipped : nat
}.

Definition getSummary (posts : list post) : summary :=
  {| total := length posts;
     successful := length (filter (fun p => status p = "SUCCESS") posts);
     failed := length (filter (fun p => status p = "FAILED") posts);
     skipped := length (filter (fun p => status p = "SKIPPED") posts) |}.

(** The counts of [getSummary] of [DeduplicationLogger]. *)
Definition duplicates (checks : list check) : nat :=
  length (filter (fun c => isDuplicate c = true) checks).

Definition newJobs (checks : list check) : nat :=
  length (filter (fun c => isDuplicate c = false) checks).

(** The calls made on a [DiscordPostLogger]. *)
Inductive call : Type :=
| LogSuccess (now : Z) (job : Job) (jobId channelId channelName : string)
    (messageId threadId : option string) (duration : Z)
| LogFailure (now : Z) (job : Job) (jobId channelId channelName : string)
    (error : Error)
| LogSkip (now : Z) (job : Job) (jobId reason : string).

Definition step (posts : list post) (c : call) : list post :=
  match c with
  | LogSuccess now job jobId_ channelId channelName messageId threadId duration =>
      logSuccess posts now job jobId_ channelId channelName messageId threadId
        duration
  | LogFailure now job jobId_ channelId channelName error =>
      logFailure posts now job jobId_ channelId channelName error
  | LogSkip now job jobId_ reason => logSkip posts now job jobId_ reason
  end.

(** The entries of a logger made by [new DiscordPostLogger()] after the
    calls. *)
Definition logged (cs : list call) : list post := fold_left step cs [].

Definition isSuccess (c : call) : bool :=
  match c with LogSuccess _ _ _ _ _ _ _ _ => true | _ => false end.
Definition isFailure (c : call) : bool :=
  match c with LogFailure _ _ _ _ _ _ => true | _ => false end.
Definition isSkip (c : call) : bool :=
  match c with LogSkip _ _ _ _ => true | _ => false end.

End Loggers.

(** ** Job formatting (src/utils/job-formatters.js) *)

Module JobFormatters.

Section FormatPostedDate.

(** The two calls that depend on the time zone and the locale data of the
    process: [date.getFullYear()] and
    [date.toLocaleDateString('en-US', {month: 'short', day: 'numeric', year})],
    the latter with [year: 'numeric'] or without a year. *)
Variable getFullYear : Z → Z.
Variable toLocaleDateString : Z → bool → string.


End FormatPostedDate.

End JobFormatters.

(** ** Location routing (routing/location.js) *)

Module Routing.

(** The members of a job the router reads; [None] is a missing member. *)
Record Job : Type := mkJob {
  job_city : option string;
  job_state : option string;
  job_title : option string;
  job_description : option string
}.

(** [member || '']. *)
Definition text (member : option string) : string := default "" member.

(** [cityMatches], in the order of the literal, which is the order
    [Object.entries] lists it in. *)
Definition cityMatches : list (string * string) :=
  [("san francisco", "san-francisco"); ("oakland", "san-francisco");
   ("berkeley", "san-francisco"); ("san jose", "san-francisco");
   ("palo alto", "san-francisco"); ("fremont", "san-francisco");
   ("hayward", "san-francisco"); ("richmond", "san-francisco");
   ("daly city", "san-francisco"); ("alameda", "san-francisco");
   ("cupertino", "san-francisco"); ("santa clara", "san-francisco");
   ("mountain view", "mountain-view"); ("sunnyvale", "sunnyvale");
   ("san bruno", "san-bruno"); ("new york", "new-york");
   ("manhattan", "new-york"); ("brooklyn", "new-york");
   ("queens", "new-york"); ("bronx", "new-york");
   ("staten island", "new-york"); ("jersey city", "new-york");
   ("newark", "new-york"); ("hoboken", "new-york");
   ("white plains", "new-york"); ("yonkers", "new-york");
   ("seattle", "seattle"); ("bellevue", "seattle");
   ("tacoma", "seattle"); ("everett", "seattle"); ("renton", "seattle");
   ("kent", "seattle"); ("redmond", "redmond"); ("austin", "austin");
   ("round rock", "austin"); ("cedar park", "austin");
   ("georgetown", "austin"); ("pflugerville", "austin");
   ("chicago", "chicago"); ("naperville", "chicago");
   ("aurora", "chicago"); ("joliet", "chicago");
   ("evanston", "chicago"); ("schaumburg", "chicago");
   ("boston", "boston"); ("cambridge", "boston");
   ("somerville", "boston"); ("brookline", "boston");
   ("quincy", "boston"); ("newton", "boston"); ("waltham", "boston");
   ("revere", "boston"); ("medford", "boston");
   ("los angeles", "los-angeles"); ("santa monica", "los-angeles");
   ("pasadena", "los-angeles"); ("long beach", "los-angeles");
   ("glendale", "los-angeles"); ("irvine", "los-angeles");
   ("anaheim", "los-angeles"); ("burbank", "los-angeles");
   ("torrance", "los-angeles")]%string.

Definition cityAbbreviations : list (string * string) :=
  [("sf", "san-francisco"); ("nyc", "new-york")]%string.

Definition usStates : list string :=
  ["al"; "ak"; "az"; "ar"; "ca"; "co"; "ct"; "de"; "fl"; "ga"; "hi";
   "id"; "il"; "in"; "ia"; "ks"; "ky"; "la"; "me"; "md"; "ma"; "mi";
   "mn"; "ms"; "mo"; "mt"; "ne"; "nv"; "nh"; "nj"; "nm"; "ny"; "nc";
   "nd"; "oh"; "ok"; "or"; "pa"; "ri"; "sc"; "sd"; "tn"; "tx"; "ut";
   "vt"; "va"; "wa"; "wv"; "wi"; "wy"; "dc"; "alabama"; "alaska";
   "arizona"; "arkansas"; "california"; "colorado"; "connecticut";
   "delaware"; "florida"; "georgia"; "hawaii"; "idaho"; "illinois";
   "indiana"; "iowa"; "kansas"; "kentucky"; "louisiana"; "maine";
   "maryland"; "massachusetts"; "michigan"; "minnesota"; "mississippi";
   "missouri"; "montana"; "nebraska"; "nevada"; "new hampshire";
   "new jersey"; "new mexico"; "new york"; "north carolina";
   "north dakota"; "ohio"; "oklahoma"; "oregon"; "pennsylvania";
   "rhode island"; "south carolina"; "south dakota"; "tennessee";
   "texas"; "utah"; "vermont"; "virginia"; "washington";
   "west virginia"; "wisconsin"; "wyoming"; "district of columbia"]%string.

(** [s.split(/\s+/)]: the texts between the runs of white space. *)
Fixpoint splitSpacesWithin (fuel : nat) (s : string) : list string :=
  match fuel with
  | O => [EmptyString]
  | S fuel' =>
      match s with
      | EmptyString => [EmptyString]
      | String c rest =>
          match Text.leadingSpace s with
          | Some _ => EmptyString :: splitSpacesWithin fuel' (Text.trimStart s)
          | None =>
              match splitSpacesWithin fuel' rest with
              | [] => [String c EmptyString]
              | part :: parts => String c part :: parts
              end
          end
      end
  end.

Definition splitSpaces (s : string) : list string :=
  splitSpacesWithin (String.length s) s.

(** A word character of a regular expression: a letter or digit of ASCII
    or the underscore. *)
Definition isWord (c : ascii) : bool :=
  let n := N_of_ascii c in
  ((48 <=? n) && (n <=? 57) || (65 <=? n) && (n <=? 90) ||
   (97 <=? n) && (n <=? 122) || (n =? 95))%N.

(** [\b] between two neighbours, [None] being an end of the text. *)
Definition boundary (before after : option ascii) : bool :=
  xorb (from_option isWord false before) (from_option isWord false after).

Definition firstChar (s : string) : option ascii :=
  match s with
  | EmptyString => None
  | String c _ => Some c
  end.

Fixpoint lastChar (s : string) : option ascii :=
  match s with
  | EmptyString => None
  | String c EmptyString => Some c
  | String _ rest => lastChar rest
  end.

(** Whether [\b(word)\b] matches where [s] begins, [before] being the
    character in front of it. *)
Definition wordAt (before : option ascii) (s word : string) : bool :=
  Text.startsWith s word &&
  boundary before (firstChar s) &&
  boundary (lastChar word)
    (firstChar (Text.dropBytes (String.length word) s)).

(** [/\b(w1|w2|...)\b/.test(s)]. *)
Fixpoint testWordsFrom (words : list string) (before : option ascii)
    (s : string) : bool :=
  existsb (wordAt before s) words ||
  match s with
  | EmptyString => false
  | String c rest => testWordsFrom words (Some c) rest
  end.

Definition testWords (words : list string) (s : string) : bool :=
  testWordsFrom words None s.

Definition remoteWords : list string :=
  ["remote"; "work from home"; "wfh"; "distributed"; "anywhere"]%string.

Definition usaWords : list string :=
  ["usa"; "united states"; "u.s."; "us only"; "us-based"; "us remote"]%string.

Definition cityOf (job : Job) : string :=
  Text.trim (Text.toLowerCase (text (job_city job))).

Definition stateOf (job : Job) : string :=
  Text.trim (Text.toLowerCase (text (job_state job))).

Definition combinedOf (job : Job) : string :=
  Text.toLowerCase (text (job_title job)) +:+ " " +:+
  Text.toLowerCase (text (job_description job)) +:+ " " +:+
  cityOf job +:+ " " +:+ stateOf job.

(** The first entry of a table whose name satisfies [test]. *)
Definition firstEntry (test : string → bool) (table : list (string * string))
  : option string :=
  snd <$> List.find (fun entry => test entry.1) table.

(** Steps 1 to 3: the city tables. *)
Definition tableKey (job : Job) : option string :=
  let city := cityOf job in
  let combined := combinedOf job in
  match firstEntry (fun searchCity => Text.includes city searchCity) cityMatches with
  | Some channelKey => Some channelKey
  | None =>
      match firstEntry (fun abbr => String.eqb city abbr ||
                                    bool_decide (abbr ∈ splitSpaces city))
              cityAbbreviations with
      | Some channelKey => Some channelKey
      | None =>
          firstEntry (fun searchCity => Text.includes combined searchCity)
            cityMatches
      end
  end.

(** Steps 4 to 6: the fallbacks by state and for remote jobs. *)
Definition fallbackKey (job : Job) : option string :=
  let state := stateOf job in
  let combined := combinedOf job in
  let byState : option string :=
    if String.eqb state "" then None
    else if String.eqb state "ca" || String.eqb state "california"
      then Some "los-angeles"%string
    else if String.eqb state "ma" || String.eqb state "massachusetts"
      then Some "boston"%string
    else if String.eqb state "ny" || String.eqb state "new york"
      then Some "new-york"%string
    else if String.eqb state "tx" || String.eqb state "texas"
      then Some "austin"%string
    else if String.eqb state "wa" || String.eqb state "washington"
      then if Text.includes combined "redmond" then Some "redmond"%string
           else Some "seattle"%string
    else if String.eqb state "il" || String.eqb state "illinois"
      then Some "chicago"%string
    else None in
  match byState with
  | Some channelKey => Some channelKey
  | None =>
      if testWords remoteWords combined && testWords usaWords combined
      then Some "remote-usa"%string
      else if negb (String.eqb state "") && bool_decide (state ∈ usStates)
      then Some "remote-usa"%string
      else None
  end.

(** The key whose entry of [LOCATION_CHANNEL_CONFIG] is returned; [None]
    when [null] is. *)
Definition channelKey (job : Job) : option string :=
  match tableKey job with
  | Some key => Some key
  | None => fallbackKey job
  end.

(** [LOCATION_CHANNEL_CONFIG] maps a key to a channel id, or to nothing. *)
Definition getJobLocationChannel (job : Job) (config : string → option string)
  : option string :=
  match channelKey job with
  | Some key => config key
  | None => None
  end.

(** The keys the router asks the configuration for. *)
Definition channelKeys : list string :=
  ["san-francisco"; "mountain-view"; "sunnyvale"; "san-bruno"; "new-york";
   "seattle"; "redmond"; "austin"; "chicago"; "boston"; "los-angeles";
   "remote-usa"]%string.

(** The lowered members of a job, which the tables are searched in. *)
Definition mentions (job : Job) (name : string) : Prop :=
  Text.includes (Text.toLowerCase (text (job_title job))) name = true ∨
  Text.includes (Text.toLowerCase (text (job_description job))) name = true ∨
  Text.includes (cityOf job) name = true ∨
  Text.includes (stateOf job) name = true.

End Routing.

(** ** Sample inputs for the further properties *)

Module Examples.

(** A manager whose only record has a job id that every object inherits
    as a member name. *)
Definition inheritedId : manager :=
  setJobs Sample.fresh
    [newJob Sample.fresh Sample.t0 "constructor" Sample.job None].

(** One user with one tag, and a disk without a subscriptions file. *)
Definition subs : Subscriptions.subscriptions := [("42"%string, ["rust"%string])].

Definition noFile : Subscriptions.disk := Subscriptions.mkDisk None false true true.

(** A call that fails twice and then succeeds, and one that always
    fails. *)
Definition flaky (k : nat) : ErrorHandler.settled string ErrorHandler.thrown :=
  if (k <? 2)%nat then ErrorHandler.Rejected (ErrorHandler.Error "reset")
  else ErrorHandler.Resolved "sent"%string.

Definition down (k : nat) : ErrorHandler.settled string ErrorHandler.thrown :=
  ErrorHandler.Rejected (ErrorHandler.Error (pretty k)).

(** A job in the primary format. *)
Definition primary : JobNormalizer.Job :=
  JobNormalizer.mkJob (Some "Engineer"%string) (Some "Acme"%string)
    (Some "https://acme.example/jobs/1"%string)
    (Some ["Austin, TX, USA"%string]) None None None
    (Some "Dallas"%string) None [].

(** A job in a state without a channel of its own, and a configuration
    that names every channel after its key. *)
Definition phoenix : Routing.Job :=
  Routing.mkJob (Some "Phoenix"%string) (Some "AZ"%string)
    (Some "Engineer"%string) None.

Definition channels (key : string) : option string :=
  Some ("channel-" +:+ key).

End Examples.

(** * Properties *)

(** ** The ISO text of an instant *)

Example iso_epoch : Clock.toISOString 0 = "1970-01-01T00:00:00.000Z"%string.
Proof. vm_compute. reflexivity. Qed.

Example iso_sample :
  Clock.toISOString 1709210096789 = "2024-02-29T12:34:56.789Z"%string.
Proof. vm_compute. reflexivity. Qed.

Example iso_before_epoch :
  Clock.toISOString (-1) = "1969-12-31T23:59:59.999Z"%string.
Proof. vm_compute. reflexivity. Qed.

Example iso_leap_day :
  Clock.toISOString 951782400000 = "2000-02-29T00:00:00.000Z"%string.
Proof. vm_compute. reflexivity. Qed.

Example iso_year_10000 :
  Clock.toISOString 253402300800000 = "+010000-01-01T00:00:00.000Z"%string.
Proof. vm_compute. reflexivity. Qed.

Example month_of_sample :
  Clock.slice07 (Clock.toISOString 1709210096789) = "2024-02"%string ∧
  Clock.beforeT (Clock.toISOString 1709210096789) = "2024-02-29"%string.
Proof. vm_compute. split; reflexivity. Qed.
(** ** Sorting facts *)

Lemma insertByPosted_perm j l : insertByPosted j l ≡ₚ j :: l.
Proof.
  induction l as [|k rest IH]; simpl; [reflexivity|].
  destruct (postedToDiscord j <=? postedToDiscord k); [reflexivity|].
  rewrite IH. apply perm_swap.
Qed.

Lemma sortByPosted_perm l : sortByPosted l ≡ₚ l.
Proof.
  induction l as [|j rest IH]; simpl; [reflexivity|].
  rewrite insertByPosted_perm. by rewrite IH.
Qed.

Lemma sortByPosted_elem j l : j ∈ sortByPosted l ↔ j ∈ l.
Proof. by rewrite sortByPosted_perm. Qed.

(** The head of an insertion is no later than the inserted instance and no
    later than the old head. *)
Lemma insertByPosted_head j l k rest :
  insertByPosted j l = k :: rest →
  postedToDiscord k <= postedToDiscord j ∧
  (∀ h t, l = h :: t → postedToDiscord k <= postedToDiscord h).
Proof.
  destruct l as [|h t]; simpl.
  - intros [= <- <-]. split; [lia|]. intros ? ? [=].
  - destruct (Z.leb_spec (postedToDiscord j) (postedToDiscord h)).
    + intros [= <- <-]. split; [lia|]. intros ? ? [= <- <-]. lia.
    + intros [= <- <-]. split; [lia|]. intros ? ? [= <- <-]. lia.
Qed.

Lemma sortByPosted_head_least l oldest rest :
  sortByPosted l = oldest :: rest →
  ∀ j, j ∈ l → postedToDiscord oldest <= postedToDiscord j.
Proof.
  revert oldest rest. induction l as [|x l IH]; intros oldest rest; simpl.
  - intros [=].
  - intros Hins j Hj.
    destruct (insertByPosted_head _ _ _ _ Hins) as [Hx Hhd].
    apply elem_of_cons in Hj as [->|Hj]; [exact Hx|].
    destruct (sortByPosted l) as [|h t] eqn:Hs.
    + apply sortByPosted_elem in Hj. rewrite Hs in Hj. by apply elem_of_nil in Hj.
    + specialize (Hhd h t eq_refl). specialize (IH h t eq_refl j Hj). lia.
Qed.

(** ** Exact quotients against integer thresholds *)


Lemma months_ge_iff (a : Z) :
  Qle_bool 3 (inject_Z a / inject_Z (1000 * 60 * 60 * 24 * 30)) = true
  ↔ 3 * 30 * Clock.msPerDay <= a.
Proof.
  rewrite Qle_bool_iff. unfold Qle, Qdiv, Qmult, Qinv, inject_Z, Clock.msPerDay.
  simpl. lia.
Qed.

(** ** The decision, branch by branch *)

Lemma cutoff_eq m now :
  now - activeWindowDays m * 24 * 60 * 60 * 1000 = cutoff m now.
Proof. unfold cutoff, Clock.msPerDay. lia. Qed.

Lemma never_posted m now jobId_ jobData :
  matching m jobId_ = [] → hasBeenPosted m now jobId_ jobData = false.
Proof. unfold hasBeenPosted, matching. by intros ->. Qed.

Lemma active_instance_skips m now jobId_ jobData inst :
  inst ∈ jobs (data m) → jobId inst = jobId_ →
  cutoff m now < postedToDiscord inst →
  hasBeenPosted m now jobId_ jobData = true.
Proof.
  intros Hin Hid Hrecent. unfold hasBeenPosted.
  assert (Hm : inst ∈ filter (fun job => jobId job = jobId_) (jobs (data m)))
    by (apply list_elem_of_filter; done).
  destruct (filter _ (jobs (data m))) as [|x xs] eqn:Hf.
  { by apply elem_of_nil in Hm. }
  change (length (x :: xs) =? 0)%nat with false. cbv iota.
  rewrite cutoff_eq.
  assert (Hex : existsb (fun i => bool_decide (cutoff m now < postedToDiscord i))
                  (x :: xs) = true).
  { apply existsb_exists. exists inst. split.
    - by apply list_elem_of_In.
    - by apply bool_decide_eq_true. }
  by rewrite Hex.
Qed.

(** With matching instances, all of them aged, the decision is taken by the
    reopening test. *)
Lemma aged_decision m now jobId_ jobData :
  matching m jobId_ ≠ [] →
  (∀ inst, inst ∈ matching m jobId_ → postedToDiscord inst <= cutoff m now) →
  hasBeenPosted m now jobId_ jobData =
    match sourceDateOf jobData with
    | Some (ValidDate sourceMs) =>
        negb (Qle_bool (daysSinceSourcePost now sourceMs)
                (inject_Z (reopeningWindowDays m)))
    | Some InvalidDate => true
    | None =>
        match sortByPosted (matching m jobId_) with
        | oldestInstance :: _ =>
            negb (Qle_bool 3 (monthsSince now (postedToDiscord oldestInstance)))
        | [] => true
        end
    end.
Proof.
  intros Hne Haged. unfold hasBeenPosted. fold (matching m jobId_).
  destruct (matching m jobId_) as [|x xs] eqn:Hf; [done|].
  change (length (x :: xs) =? 0)%nat with false. cbv iota.
  rewrite cutoff_eq.
  assert (Hex : existsb (fun i => bool_decide (cutoff m now < postedToDiscord i))
                  (x :: xs) = false).
  { apply not_true_is_false. intros [i [Hi Hb]]%existsb_exists.
    apply bool_decide_eq_true in Hb. apply list_elem_of_In in Hi.
    specialize (Haged i Hi). lia. }
  rewrite Hex.
  destruct (sourceDateOf jobData) as [[s|]|]; [by destruct (Qle_bool _ _)|done|].
  destruct (sortByPosted (x :: xs)); [done|]. by destruct (Qle_bool _ _).
Qed.

(** ** What the archiver leaves in the active list *)

Lemma filter_none_rejected {A} (P : A → Prop) `{∀ x, Decision (P x)} (l : list A) :
  filter (fun x => ¬ P x) l = [] → filter P l = l.
Proof.
  induction l as [|x l IH]; [done|].
  rewrite !filter_cons. destruct (decide (P x)) as [HP|HP].
  - destruct (decide (¬ P x)); [done|]. intros E. by rewrite IH.
  - destruct (decide (¬ P x)); [done|]. done.
Qed.

Lemma archiveOldJobs_jobs m d now :
  jobs (data (archiveOldJobs m d now).1.1) =
  filter (fun job => cutoff m now < postedToDiscord job) (jobs (data m)).
Proof.
  unfold archiveOldJobs. rewrite cutoff_eq.
  destruct (length (filter (fun job => ¬ _) _) =? 0)%nat eqn:E.
  - apply Nat.eqb_eq, nil_length_inv in E. simpl.
    symmetry. by apply filter_none_rejected.
  - destruct (fold_left archiveMonth _ _). done.
Qed.

Lemma archiveOldJobs_settings m d now :
  activeWindowDays (archiveOldJobs m d now).1.1 = activeWindowDays m ∧
  reopeningWindowDays (archiveOldJobs m d now).1.1 = reopeningWindowDays m.
Proof.
  unfold archiveOldJobs.
  destruct (length _ =? 0)%nat; [done|].
  by destruct (fold_left archiveMonth _ _).
Qed.

Lemma savePostedJobs_saved m d now m' d' :
  savePostedJobs m d now = Saved m' d' →
  jobs (data m') =
    filter (fun job => cutoff m now < postedToDiscord job) (jobs (data m)) ∧
  activeWindowDays m' = activeWindowDays m ∧
  reopeningWindowDays m' = reopeningWindowDays m.
Proof.
  unfold savePostedJobs.
  pose proof (archiveOldJobs_jobs m (ensureDir DataDir d) now) as Hj.
  pose proof (archiveOldJobs_settings m (ensureDir DataDir d) now) as [Ha Hr].
  destruct (archiveOldJobs m (ensureDir DataDir d) now) as [[m1 d2] st].
  simpl in Hj, Ha, Hr.
  destruct (verified _ _); [|done].
  intros [= <- <-]. simpl. by rewrite Hj, Ha, Hr.
Qed.

Lemma markAsPosted_saved m d now jobId_ jobData thread m' d' :
  markAsPosted m d now jobId_ jobData thread = Saved m' d' →
  jobs (data m') =
    filter (fun job => cutoff m now < postedToDiscord job)
      (jobs (data m) ++ [newJob m now jobId_ jobData thread]) ∧
  activeWindowDays m' = activeWindowDays m ∧
  reopeningWindowDays m' = reopeningWindowDays m.
Proof.
  unfold markAsPosted. intros H. apply savePostedJobs_saved in H.
  exact H.
Qed.

(** Every call keeps the settings, and keeps in the active list each
    instance still inside the active window at the instant of the call. *)
Lemma stepOp_keeps o m d m' d' appended :
  stepOp o m d = Some (m', d', appended) →
  activeWindowDays m' = activeWindowDays m ∧
  ∀ inst, inst ∈ jobs (data m) → cutoff m (opTime o) < postedToDiscord inst →
          inst ∈ jobs (data m').
Proof.
  destruct o as [now j jd th|now|now]; simpl.
  - destruct (markAsPosted m d now j jd th) as [m1 d1|] eqn:E; [|done].
    intros [= <- <- <-]. apply markAsPosted_saved in E as (Hj & Ha & _).
    split; [done|]. intros inst Hin Hc. rewrite Hj.
    apply list_elem_of_filter. split; [done|]. apply elem_of_app. by left.
  - pose proof (archiveOldJobs_jobs m d now) as Hj.
    pose proof (archiveOldJobs_settings m d now) as [Ha _].
    destruct (archiveOldJobs m d now) as [[m1 d1] st]. simpl in *.
    intros [= <- <- <-]. split; [done|]. intros inst Hin Hc. rewrite Hj.
    by apply list_elem_of_filter.
  - destruct (savePostedJobs m d now) as [m1 d1|] eqn:E; [|done].
    intros [= <- <- <-]. apply savePostedJobs_saved in E as (Hj & Ha & _).
    split; [done|]. intros inst Hin Hc. rewrite Hj.
    by apply list_elem_of_filter.
Qed.

Lemma run_keeps ops : ∀ m d m' d' appended bound,
  run ops m d = Some (m', d', appended) →
  (∀ o, o ∈ ops → opTime o <= bound) →
  activeWindowDays m' = activeWindowDays m ∧
  ∀ inst, inst ∈ jobs (data m) → cutoff m bound < postedToDiscord inst →
          inst ∈ jobs (data m').
Proof.
  induction ops as [|o ops IH]; intros m d m' d' appended bound; simpl.
  - intros [= <- <- <-] _. done.
  - destruct (stepOp o m d) as [[[m1 d1] app1]|] eqn:E1; [|done].
    destruct (run ops m1 d1) as [[[m2 d2] app2]|] eqn:E2; [|done].
    intros [= <- <- <-] Hb.
    apply stepOp_keeps in E1 as [Ha1 Hk1].
    eapply IH in E2 as [Ha2 Hk2].
    2:{ intros o' Ho'. apply Hb. by apply elem_of_cons; right. }
    split; [congruence|]. intros inst Hin Hc.
    apply Hk2.
    + apply Hk1; [done|].
      assert (opTime o <= bound) by (apply Hb; apply elem_of_cons; by left).
      unfold cutoff in *. lia.
    + unfold cutoff in *. rewrite Ha1. done.
Qed.

(** C3. An instance appended by [markAsPosted] at instant [t] makes
    [hasBeenPosted] answer [true] at every instant of
    [t, t + activeWindowDays) days, whatever calls ran in between, as long
    as every clock reading and the cutoff computed from it lie in the range
    of a [Date]; and with no instance of the job id in the active list the
    answer is [false]. *)
Theorem recency_window :
  (∀ m d t jobId_ jobData thread m1 d1 ops m2 d2 appended now query,
     clockInRange m t →
     markAsPosted m d t jobId_ jobData thread = Saved m1 d1 →
     run ops m1 d1 = Some (m2, d2, appended) →
     Forall (fun o => opTime o <= now ∧ clockInRange m (opTime o)) ops →
     clockInRange m now →
     t <= now < t + activeWindowDays m * Clock.msPerDay →
     hasBeenPosted m2 now jobId_ query = true) ∧
  (∀ m now jobId_ query,
     (∀ job, job ∈ jobs (data m) → jobId job ≠ jobId_) →
     hasBeenPosted m now jobId_ query = false).
Proof.
  split.
  - intros m d t jobId_ jobData thread m1 d1 ops m2 d2 appended now query
      _ Hmark Hrun Hops _ [Hlo Hhi].
    apply markAsPosted_saved in Hmark as (Hj & Ha & _).
    eapply run_keeps in Hrun as [Ha2 Hk];
      [|intros o Ho; by destruct (proj1 (Forall_forall _ _) Hops o Ho)].
    set (job := newJob m t jobId_ jobData thread) in *.
    apply (active_instance_skips m2 now jobId_ query job).
    + apply Hk.
      * rewrite Hj. apply list_elem_of_filter. split.
        -- unfold cutoff. simpl. lia.
        -- apply elem_of_app. right. by apply list_elem_of_singleton.
      * unfold cutoff. rewrite Ha. simpl. lia.
    + done.
    + unfold cutoff. rewrite Ha2, Ha. simpl. lia.
  - intros m now jobId_ query Hnone. apply never_posted.
    unfold matching. destruct (filter _ _) as [|x xs] eqn:E; [done|].
    assert (Hx : x ∈ filter (fun job => jobId job = jobId_) (jobs (data m)))
      by (rewrite E; apply elem_of_cons; by left).
    apply list_elem_of_filter in Hx as [Hid Hin]. by destruct (Hnone x Hin).
Qed.

Lemma matching_aged m now jobId_ :
  (∃ inst, inst ∈ jobs (data m) ∧ jobId inst = jobId_) →
  (∀ inst, inst ∈ jobs (data m) → jobId inst = jobId_ →
           postedToDiscord inst <= cutoff m now) →
  matching m jobId_ ≠ [] ∧
  ∀ inst, inst ∈ matching m jobId_ → postedToDiscord inst <= cutoff m now.
Proof.
  intros (inst & Hin & Hid) Haged. split.
  - intros E.
    assert (H : inst ∈ matching m jobId_) by (by apply list_elem_of_filter).
    rewrite E in H. by apply elem_of_nil in H.
  - intros i [Hi1 Hi2]%list_elem_of_filter. by apply Haged.
Qed.


(** C5. With matching instances, all of them aged, and no source date in
    the query, the answer is computed from the earliest matching instance:
    [false] when [monthsSinceOldest >= 3], and [true] otherwise. *)
Theorem reopening_by_age m now jobId_ jobData :
  (∃ inst, inst ∈ jobs (data m) ∧ jobId inst = jobId_) →
  (∀ inst, inst ∈ jobs (data m) → jobId inst = jobId_ →
           postedToDiscord inst <= cutoff m now) →
  sourceDateOf jobData = None →
  ∃ oldest,
    oldest ∈ jobs (data m) ∧ jobId oldest = jobId_ ∧
    (∀ inst, inst ∈ jobs (data m) → jobId inst = jobId_ →
             postedToDiscord oldest <= postedToDiscord inst) ∧
    ((3 <= monthsSince now (postedToDiscord oldest))%Q →
       hasBeenPosted m now jobId_ jobData = false) ∧
    (¬ (3 <= monthsSince now (postedToDiscord oldest))%Q →
       hasBeenPosted m now jobId_ jobData = true) ∧
    ((3 <= monthsSince now (postedToDiscord oldest))%Q
       ↔ 3 * 30 * Clock.msPerDay <= now - postedToDiscord oldest).
Proof.
  intros Hex Haged Hsrc.
  destruct (matching_aged m now jobId_ Hex Haged) as [Hne Hall].
  rewrite (aged_decision m now jobId_ jobData Hne Hall), Hsrc.
  destruct (sortByPosted (matching m jobId_)) as [|oldest rest] eqn:Hs.
  { exfalso. apply Hne. apply Permutation_nil_r. by rewrite <- Hs, sortByPosted_perm. }
  assert (Hin : oldest ∈ matching m jobId_).
  { apply sortByPosted_elem. rewrite Hs. apply elem_of_cons. by left. }
  apply list_elem_of_filter in Hin as [Hid Hin].
  exists oldest. split; [done|]. split; [done|]. split.
  { intros inst Hi Hj. eapply sortByPosted_head_least; [exact Hs|].
    by apply list_elem_of_filter. }
  pose proof (months_ge_iff (now - postedToDiscord oldest)) as Hiff.
  fold (monthsSince now (postedToDiscord oldest)) in Hiff.
  destruct (Qle_bool 3 (monthsSince now (postedToDiscord oldest))) eqn:Hq; simpl.
  - split; [done|]. split.
    + intros H. exfalso. apply H. by apply Qle_bool_iff.
    + rewrite <- Hiff. split; [done|]. intros _. by apply Qle_bool_iff.
  - split.
    + intros H. apply Qle_bool_iff in H. congruence.
    + split; [done|]. rewrite <- Hiff. split.
      * intros H. apply Qle_bool_iff in H. congruence.
      * done.
Qed.

(** ** Loading, migration and construction *)

Lemma createEmptyDatabase_shape this now :
  version (createEmptyDatabase this now) = 2 ∧
  jobs (createEmptyDatabase this now) = [] ∧
  Metadata.totalJobs (metadata (createEmptyDatabase this now)) = 0%nat.
Proof. done. Qed.

(** C8, as stated, fails: a file holding the version-2 object
    [{"version": 2}] is not returned as it is; the loader answers with a
    fresh empty database. *)
Lemma load_version2_without_jobs :
  isVersion2 (LObject (Some 2)) ∧
  (loadPostedJobs This.blank (withLedger (LObject (Some 2))) 0).1
    = Built (createEmptyDatabase This.blank 0) ∧
  ∀ rawData,
    (loadPostedJobs This.blank (withLedger (LObject (Some 2))) 0).1
      ≠ FromFile rawData.
Proof. split; [exact I|]. split; [reflexivity|]. intros rawData. discriminate. Qed.

(** C8, amended. [loadPostedJobs] answers with a fresh empty database
    (version 2, no jobs) when the file is missing, when its text does not
    parse, when the parsed value is not an array and its version is not 2,
    and when it is an object without a [jobs] member, of version 2 or not;
    it returns the parsed content itself exactly when that is an object of
    version 2 with a [jobs] member, an array or not, whose [length] the
    log line can print. *)
Theorem load_cases this d now :
  (ledger d = None →
     (loadPostedJobs this d now).1 = Built (createEmptyDatabase this now)) ∧
  (ledger d = Some LBadText →
     (loadPostedJobs this d now).1 = Built (createEmptyDatabase this now)) ∧
  (∀ rawData, ledger d = Some rawData →
     (∀ jobIds, rawData ≠ LIdArray jobIds) → ¬ isVersion2 rawData →
     (loadPostedJobs this d now).1 = Built (createEmptyDatabase this now)) ∧
  (∀ v, ledger d = Some (LObject v) ∨
        ledger d = Some (LOddJobs v UnprintableLength) →
     (loadPostedJobs this d now).1 = Built (createEmptyDatabase this now)) ∧
  (∀ rawData, (loadPostedJobs this d now).1 = FromFile rawData ↔
     ledger d = Some rawData ∧ isVersion2 rawData ∧ jobsLengthPrints rawData) ∧
  version (createEmptyDatabase this now) = 2 ∧
  jobs (createEmptyDatabase this now) = [].
Proof.
  unfold loadPostedJobs. cbv zeta.
  split; [by intros ->|]. split; [by intros ->|].
  split; [|split; [|split; [|done]]].
  - intros rawData -> Hna Hv.
    destruct rawData as [| | |ids|s|[v|]|[v|] n]; simpl in *; try done.
    + by destruct (Hna ids).
    + destruct (Z.eqb_spec (version s) 2); [done|done].
    + destruct v as [|[p|[p|p|]|]|p]; simpl in *; done.
    + destruct v as [|[p|[p|p|]|]|p]; simpl in *; done.
  - intros v [-> | ->]; simpl; by destruct v as [[|[p|[p|p|]|]|p]|].
  - intros rawData. split.
    + destruct (ledger d) as [[| | |ids|s|[v|]|[v|] n]|]; simpl; try done.
      * destruct (Z.eqb_spec (version s) 2); [|done].
        by intros [= <-].
      * destruct v as [|[p|[p|p|]|]|p]; done.
      * destruct v as [|[p|[p|p|]|]|p]; try done.
        destruct n; [by intros [= <-]|by intros [= <-]|done].
    + intros (-> & Hv & Hj).
      destruct rawData as [| | |ids|s|v|[v|] n]; simpl in *; try done.
      * apply Z.eqb_eq in Hv. by rewrite Hv.
      * destruct v as [|[p|[p|p|]|]|p]; try done. by destruct n.
Qed.

Lemma migrateFromV1_lookup this now jobIds index job :
  jobs (migrateFromV1 this now jobIds) !! index = Some job →
  ∃ jobId_, jobIds !! index = Some jobId_ ∧
    jobId job = jobId_ ∧
    id job = jobId_ +:+ "-migrated-" +:+ pretty index ∧
    instanceNumber job = 1%nat ∧
    company job = "Unknown (migrated)"%string ∧
    title job = "Unknown (migrated)"%string ∧
    postedToDiscord job = now - 8 * Clock.msPerDay.
Proof.
  simpl. rewrite list_lookup_imap.
  destruct (jobIds !! index) as [jobId_|]; simpl; [|done].
  intros [= <-]. exists jobId_. simpl. unfold Clock.msPerDay.
  repeat split; lia.
Qed.

Lemma migrateFromV1_shape this now jobIds :
  version (migrateFromV1 this now jobIds) = 2 ∧
  length (jobs (migrateFromV1 this now jobIds)) = length jobIds ∧
  Metadata.migratedFromV1 (metadata (migrateFromV1 this now jobIds)) = Some true ∧
  Metadata.activeWindowDays (metadata (migrateFromV1 this now jobIds))
    = This.activeWindowDays this.
Proof. simpl. by rewrite length_imap. Qed.


(** C10. When the file is missing or holds the V1 list, the database the
    constructor stores has [metadata.activeWindowDays] undefined, while the
    manager's own [activeWindowDays] holds the configured value: the
    database is loaded before the settings are assigned. *)
Theorem constructor_window_undefined env d now :
  ledger d = None ∨ (∃ jobIds, ledger d = Some (LIdArray jobIds)) →
  ∃ s, This.data (constructor env d now).1 = Some (Built s) ∧
       Metadata.activeWindowDays (metadata s) = None ∧
       This.activeWindowDays (constructor env d now).1
         = Some (orDefault (ACTIVE_WINDOW_DAYS env) 7).
Proof.
  unfold constructor, loadPostedJobs. cbv zeta.
  intros [->|[jobIds ->]]; simpl; eauto.
Qed.

(** ** The archiver, month by month *)

Lemma readBucket_entries month d :
  (readBucket month d).1 = bucketEntries d month ∧
  buckets (readBucket month d).2 = buckets d ∧
  bucketTmps (readBucket month d).2 = bucketTmps d ∧
  ledger (readBucket month d).2 = ledger d ∧
  ledgerTmp (readBucket month d).2 = ledgerTmp d ∧
  rival (readBucket month d).2 = rival d ∧
  dirs (readBucket month d).2 = dirs d.
Proof.
  unfold readBucket, bucketEntries.
  destruct (buckets d !! month) as [[| |l]|]; done.
Qed.

Lemma archiveMonth_spec d n month js :
  let r := archiveMonth (d, n) (month, js) in
  buckets r.1 = <[month := BJobArray (mergedBucket d month js)]> (buckets d) ∧
  r.2 = (n + length (freshFor (bucketEntries d month) js))%nat ∧
  ledger r.1 = ledger d ∧ ledgerTmp r.1 = ledgerTmp d ∧ rival r.1 = rival d ∧
  dirs r.1 = dirs d.
Proof.
  unfold archiveMonth.
  destruct (readBucket_entries month d) as (He & Hb & Ht & Hl & Hlt & Hr & Hd).
  destruct (readBucket month d) as [existingArchive d1]. simpl in *. subst.
  unfold renameBucketTmp, writeBucketTmp. simpl.
  rewrite lookup_insert_eq. simpl. rewrite Hb. done.
Qed.

Lemma bucketEntries_insert d d' month entries month' :
  buckets d' = <[month := BJobArray entries]> (buckets d) →
  bucketEntries d' month' =
    if decide (month = month') then entries else bucketEntries d month'.
Proof.
  intros Hb. unfold bucketEntries. rewrite Hb.
  destruct (decide (month = month')) as [->|Hne].
  - by rewrite lookup_insert_eq.
  - by rewrite lookup_insert_ne.
Qed.

Lemma freshFor_ids existing js i :
  i ∈ (id <$> freshFor existing js) ↔ i ∈ (id <$> js) ∧ i ∉ (id <$> existing).
Proof.
  unfold freshFor. split.
  - intros (j & -> & [Hn Hj]%list_elem_of_filter)%list_elem_of_fmap.
    rewrite elem_of_list_to_set in Hn. split; [|done].
    apply list_elem_of_fmap. eauto.
  - intros [(j & -> & Hj)%list_elem_of_fmap Hn].
    apply list_elem_of_fmap. exists j. split; [done|].
    apply list_elem_of_filter. split; [|done].
    by rewrite elem_of_list_to_set.
Qed.

Lemma mergedBucket_ids d month js i :
  i ∈ (id <$> mergedBucket d month js) ↔
  i ∈ (id <$> bucketEntries d month) ∨ i ∈ (id <$> js).
Proof.
  unfold mergedBucket. rewrite sortByPosted_perm.
  rewrite fmap_app, elem_of_app, freshFor_ids.
  destruct (decide (i ∈ (id <$> bucketEntries d month))); tauto.
Qed.

Lemma archiveMonth_ids d n month js month' i :
  i ∈ (id <$> bucketEntries (archiveMonth (d, n) (month, js)).1 month') ↔
  i ∈ (id <$> bucketEntries d month') ∨ (month' = month ∧ i ∈ (id <$> js)).
Proof.
  destruct (archiveMonth_spec d n month js) as (Hb & _).
  rewrite (bucketEntries_insert _ _ _ _ month' Hb).
  destruct (decide (month = month')) as [->|Hne].
  - rewrite mergedBucket_ids. tauto.
  - split; [by left|]. intros [H|[E _]]; [done|]. by destruct Hne.
Qed.

Lemma archiveMonths_ids groups : ∀ d n month' i,
  i ∈ (id <$> bucketEntries (fold_left archiveMonth groups (d, n)).1 month') ↔
  i ∈ (id <$> bucketEntries d month') ∨
  ∃ js, (month', js) ∈ groups ∧ i ∈ (id <$> js).
Proof.
  induction groups as [|[month js] groups IH]; intros d n month' i;
    cbn [fold_left].
  - split; [by left|]. intros [H|(js & H & _)]; [done|]. by apply elem_of_nil in H.
  - destruct (archiveMonth (d, n) (month, js)) as [d1 n1] eqn:E.
    rewrite IH.
    pose proof (archiveMonth_ids d n month js month' i) as H1.
    rewrite E in H1. simpl in H1. rewrite H1.
    split.
    + intros [[H|[-> H]]|(js' & Hin & H)].
      * by left.
      * right. exists js. split; [apply elem_of_cons; by left|done].
      * right. exists js'. split; [apply elem_of_cons; by right|done].
    + intros [H|(js' & Hin & H)]; [by left; left|].
      apply elem_of_cons in Hin as [[= -> ->]|Hin].
      * left. by right.
      * right. eauto.
Qed.

Lemma archiveMonths_frame groups : ∀ d n,
  let r := fold_left archiveMonth groups (d, n) in
  ledger r.1 = ledger d ∧ ledgerTmp r.1 = ledgerTmp d ∧ rival r.1 = rival d.
Proof.
  induction groups as [|[month js] groups IH]; intros d n; cbn [fold_left];
    [done|].
  destruct (archiveMonth_spec d n month js) as (_ & _ & Hl & Hlt & Hr & _).
  destruct (archiveMonth (d, n) (month, js)) as [d1 n1]. cbn [fst snd] in *.
  destruct (IH d1 n1) as (Hl' & Hlt' & Hr'). cbv zeta in *.
  by rewrite Hl', Hlt', Hr'.
Qed.

(** ** Grouping by month *)

Lemma pushGroup_member month j groups k x :
  (∃ js, (k, js) ∈ pushGroup month j groups ∧ x ∈ js) ↔
  (∃ js, (k, js) ∈ groups ∧ x ∈ js) ∨ (k = month ∧ x = j).
Proof.
  induction groups as [|[k0 js0] groups IH]; simpl.
  - split.
    + intros (js & [= -> ->]%list_elem_of_singleton & Hx).
      apply list_elem_of_singleton in Hx. by right.
    + intros [(js & H & _)|[-> ->]]; [by apply elem_of_nil in H|].
      exists [j]. split; by apply list_elem_of_singleton.
  - destruct (decide (k0 = month)) as [->|Hne].
    + split.
      * intros (js & Hin & Hx). apply elem_of_cons in Hin as [[= -> ->]|Hin].
        -- apply elem_of_app in Hx as [Hx|Hx%list_elem_of_singleton].
           ++ left. exists js0. split; [apply elem_of_cons; by left|done].
           ++ by right.
        -- left. exists js. split; [apply elem_of_cons; by right|done].
      * intros [(js & Hin & Hx)|[-> ->]].
        -- apply elem_of_cons in Hin as [[= -> ->]|Hin].
           ++ exists (js0 ++ [j]). split; [apply elem_of_cons; by left|].
              apply elem_of_app. by left.
           ++ exists js. split; [apply elem_of_cons; by right|done].
        -- exists (js0 ++ [j]). split; [apply elem_of_cons; by left|].
           apply elem_of_app. right. by apply list_elem_of_singleton.
    + split.
      * intros (js & Hin & Hx). apply elem_of_cons in Hin as [[= -> ->]|Hin].
        -- left. exists js0. split; [apply elem_of_cons; by left|done].
        -- destruct (proj1 IH) as [(js' & Hin' & Hx')|Hr]; [eauto| |by right].
           left. exists js'. split; [apply elem_of_cons; by right|done].
      * intros [(js & Hin & Hx)|Hr].
        -- apply elem_of_cons in Hin as [[= -> ->]|Hin].
           ++ exists js0. split; [apply elem_of_cons; by left|done].
           ++ destruct (proj2 IH) as (js' & Hin' & Hx'); [left; eauto|].
              exists js'. split; [apply elem_of_cons; by right|done].
        -- destruct (proj2 IH) as (js' & Hin' & Hx'); [by right|].
           exists js'. split; [apply elem_of_cons; by right|done].
Qed.

Lemma groupFold_member l : ∀ acc k x,
  (∃ js, (k, js) ∈
     fold_left (fun groups job => pushGroup (monthOf job) job groups) l acc
     ∧ x ∈ js) ↔
  (∃ js, (k, js) ∈ acc ∧ x ∈ js) ∨ (x ∈ l ∧ monthOf x = k).
Proof.
  induction l as [|j l IH]; intros acc k x; cbn [fold_left].
  - split; [by left|]. intros [H|[H _]]; [done|]. by apply elem_of_nil in H.
  - rewrite IH, pushGroup_member, elem_of_cons. split.
    + intros [[H|[Ek Ex]]|[H E]].
      * by left.
      * right. subst. split; [by left|done].
      * right. split; [by right|done].
    + intros [H|[[Ex|H] E]].
      * by left; left.
      * left; right. by subst.
      * by right.
Qed.

Lemma groupByMonth_member l k x :
  (∃ js, (k, js) ∈ groupByMonth l ∧ x ∈ js) ↔ x ∈ l ∧ monthOf x = k.
Proof.
  unfold groupByMonth. rewrite groupFold_member. split.
  - intros [(js & H & _)|H]; [by apply elem_of_nil in H|done].
  - by right.
Qed.

(** ** Conservation of instance ids *)

Lemma ensureDir_frame p d :
  buckets (ensureDir p d) = buckets d ∧ bucketTmps (ensureDir p d) = bucketTmps d ∧
  ledger (ensureDir p d) = ledger d ∧ ledgerTmp (ensureDir p d) = ledgerTmp d ∧
  rival (ensureDir p d) = rival d.
Proof. unfold ensureDir. by destruct (dirExists d p). Qed.

Lemma bucketEntries_ensureDir p d month :
  bucketEntries (ensureDir p d) month = bucketEntries d month.
Proof.
  unfold bucketEntries. by destruct (ensureDir_frame p d) as (-> & _).
Qed.

Lemma archiveOldJobs_frame m d now :
  ledger (archiveOldJobs m d now).1.2 = ledger d ∧
  ledgerTmp (archiveOldJobs m d now).1.2 = ledgerTmp d ∧
  rival (archiveOldJobs m d now).1.2 = rival d.
Proof.
  unfold archiveOldJobs. destruct (length _ =? 0)%nat; [done|].
  pose proof (archiveMonths_frame
    (groupByMonth (filter (fun job => ¬ now - activeWindowDays m * 24 * 60 * 60 * 1000
                                        < postedToDiscord job) (jobs (data m))))
    (ensureDir (archiveDir m) d) 0%nat) as H.
  cbv zeta in H. destruct (fold_left archiveMonth _ _) as [d2 total].
  destruct (ensureDir_frame (archiveDir m) d) as (_ & _ & Hl & Hlt & Hr).
  cbn [fst snd] in *. by rewrite <- Hl, <- Hlt, <- Hr.
Qed.

(** The archiver neither forgets an id nor invents one. *)
Lemma archiveOldJobs_recorded m d now i :
  recorded i (archiveOldJobs m d now).1.1 (archiveOldJobs m d now).1.2
  ↔ recorded i m d.
Proof.
  pose proof (archiveOldJobs_jobs m d now) as Hjobs.
  unfold recorded. rewrite Hjobs. clear Hjobs.
  unfold archiveOldJobs. rewrite cutoff_eq.
  destruct (length _ =? 0)%nat eqn:Hlen.
  { apply Nat.eqb_eq, nil_length_inv in Hlen. cbn [fst snd].
    by rewrite (filter_none_rejected _ _ Hlen). }
  clear Hlen.
  set (aged := filter (fun job => ¬ cutoff m now < postedToDiscord job)
                 (jobs (data m))).
  pose proof (archiveMonths_ids (groupByMonth aged)
                (ensureDir (archiveDir m) d) 0%nat) as Hids.
  destruct (fold_left archiveMonth _ _) as [d2 total]. cbn [fst snd] in *.
  split.
  - intros [(x & -> & [_ Hx]%list_elem_of_filter)%list_elem_of_fmap
           |[month Hm]].
    + left. apply list_elem_of_fmap. eauto.
    + apply Hids in Hm as [Hm|(js & Hg & (x & -> & Hx)%list_elem_of_fmap)].
      * right. exists month. by rewrite bucketEntries_ensureDir in Hm.
      * assert (Hx' : x ∈ aged ∧ monthOf x = month)
          by (apply groupByMonth_member; eauto).
        destruct Hx' as [[_ Hx']%list_elem_of_filter _].
        left. apply list_elem_of_fmap. eauto.
  - intros [(x & -> & Hx)%list_elem_of_fmap|[month Hm]].
    + destruct (decide (cutoff m now < postedToDiscord x)) as [Hc|Hc].
      * left. apply list_elem_of_fmap. exists x. split; [done|].
        by apply list_elem_of_filter.
      * right. exists (monthOf x). apply Hids. right.
        assert (Hg : ∃ js, (monthOf x, js) ∈ groupByMonth aged ∧ x ∈ js).
        { apply groupByMonth_member. split; [|done].
          by apply list_elem_of_filter. }
        destruct Hg as (js & Hg & Hxjs). exists js. split; [done|].
        apply list_elem_of_fmap. eauto.
    + right. exists month. apply Hids. left.
      by rewrite bucketEntries_ensureDir.
Qed.

Lemma recorded_ext m d m' d' i :
  jobs (data m') = jobs (data m) → buckets d' = buckets d →
  recorded i m' d' ↔ recorded i m d.
Proof.
  intros Hj Hb. unfold recorded, bucketEntries. by rewrite Hj, Hb.
Qed.

Lemma savePostedJobs_spec m d now :
  let a := archiveOldJobs m (ensureDir DataDir d) now in
  (rival d = None → ∃ m' d', savePostedJobs m d now = Saved m' d') ∧
  ∀ m' d', savePostedJobs m d now = Saved m' d' →
    jobs (data m') = jobs (data a.1.1) ∧ buckets d' = buckets a.1.2 ∧
    rival d' = rival d.
Proof.
  cbv zeta. unfold savePostedJobs.
  destruct (archiveOldJobs_frame m (ensureDir DataDir d) now) as (_ & _ & Hr).
  destruct (ensureDir_frame DataDir d) as (_ & _ & _ & _ & Hr0).
  rewrite Hr0 in Hr. clear Hr0.
  destruct (archiveOldJobs m (ensureDir DataDir d) now) as [[m1 d2] st].
  cbn [fst snd] in *. unfold renameLedgerTmp, writeLedgerTmp. simpl.
  split.
  - intros Hnone. rewrite Hr, Hnone. simpl. rewrite Nat.eqb_refl. eauto.
  - intros m' d'.
    match goal with |- (if ?b then _ else _) = _ → _ => destruct b end; [|done].
    intros [= <- <-]. done.
Qed.

Lemma savePostedJobs_recorded m d now m' d' i :
  savePostedJobs m d now = Saved m' d' →
  recorded i m' d' ↔ recorded i m d.
Proof.
  intros H. apply savePostedJobs_spec in H as (Hj & Hb & _).
  rewrite (recorded_ext _ _ _ _ i Hj Hb), archiveOldJobs_recorded.
  apply recorded_ext; [done|]. by destruct (ensureDir_frame DataDir d) as (-> & _).
Qed.

Lemma markAsPosted_recorded m d now jobId_ jobData thread m' d' i :
  markAsPosted m d now jobId_ jobData thread = Saved m' d' →
  recorded i m' d' ↔
  recorded i m d ∨ i = id (newJob m now jobId_ jobData thread).
Proof.
  unfold markAsPosted. intros H.
  rewrite (savePostedJobs_recorded _ _ _ _ _ i H).
  unfold recorded.
  change (jobs (data (setLastUpdated (setJobs m ?l) now))) with l.
  rewrite fmap_app, elem_of_app.
  change (id <$> [?x]) with [id x]. rewrite list_elem_of_singleton. tauto.
Qed.

Lemma stepOp_recorded o m d m' d' appended i :
  stepOp o m d = Some (m', d', appended) →
  recorded i m' d' ↔ recorded i m d ∨ i ∈ (id <$> appended).
Proof.
  destruct o as [now j jd th|now|now]; simpl.
  - destruct (markAsPosted m d now j jd th) as [m1 d1|] eqn:E; [|done].
    intros [= <- <- <-]. rewrite (markAsPosted_recorded _ _ _ _ _ _ _ _ i E).
    change (id <$> [?x]) with [id x]. by rewrite list_elem_of_singleton.
  - pose proof (archiveOldJobs_recorded m d now i) as H.
    destruct (archiveOldJobs m d now) as [[m1 d1] st]. cbn [fst snd] in H.
    intros [= <- <- <-]. rewrite H. simpl. rewrite elem_of_nil. tauto.
  - destruct (savePostedJobs m d now) as [m1 d1|] eqn:E; [|done].
    intros [= <- <- <-]. rewrite (savePostedJobs_recorded _ _ _ _ _ i E).
    simpl. rewrite elem_of_nil. tauto.
Qed.

Lemma stepOp_total o m d :
  rival d = None →
  ∃ m' d' appended, stepOp o m d = Some (m', d', appended) ∧ rival d' = None.
Proof.
  intros Hr. destruct o as [now j jd th|now|now]; simpl.
  - unfold markAsPosted.
    set (m1 := setLastUpdated _ _).
    destruct (savePostedJobs_spec m1 d now) as [Htot Hsp]. cbv zeta in *.
    destruct (Htot Hr) as (m' & d' & E). rewrite E.
    destruct (Hsp _ _ E) as (_ & _ & Hr'). exists m', d'. eexists.
    split; [done|]. congruence.
  - pose proof (archiveOldJobs_frame m d now) as (_ & _ & Hr').
    destruct (archiveOldJobs m d now) as [[m1 d1] st]. cbn [fst snd] in Hr'.
    exists m1, d1, []. split; [done|]. congruence.
  - destruct (savePostedJobs_spec m d now) as [Htot Hsp]. cbv zeta in *.
    destruct (Htot Hr) as (m' & d' & E). rewrite E.
    destruct (Hsp _ _ E) as (_ & _ & Hr'). exists m', d', [].
    split; [done|]. congruence.
Qed.

Lemma run_total ops : ∀ m d,
  rival d = None → ∃ m' d' appended, run ops m d = Some (m', d', appended).
Proof.
  induction ops as [|o ops IH]; intros m d Hr; simpl; [eauto|].
  destruct (stepOp_total o m d Hr) as (m1 & d1 & app1 & -> & Hr1).
  destruct (IH m1 d1 Hr1) as (m2 & d2 & app2 & ->). eauto.
Qed.

Lemma run_recorded ops : ∀ m d m' d' appended i,
  run ops m d = Some (m', d', appended) →
  recorded i m' d' ↔ recorded i m d ∨ i ∈ (id <$> appended).
Proof.
  induction ops as [|o ops IH]; intros m d m' d' appended i; simpl.
  - intros [= <- <- <-]. simpl. rewrite elem_of_nil. tauto.
  - destruct (stepOp o m d) as [[[m1 d1] app1]|] eqn:E1; [|done].
    destruct (run ops m1 d1) as [[[m2 d2] app2]|] eqn:E2; [|done].
    intros [= <- <- <-].
    rewrite (IH _ _ _ _ _ i E2), (stepOp_recorded _ _ _ _ _ _ i E1).
    rewrite fmap_app, elem_of_app. tauto.
Qed.

(** ** Multiplicity of an id across the active list and the buckets *)

Lemma sum_list_perm (l k : list nat) : l ≡ₚ k → sum_list l = sum_list k.
Proof. induction 1; simpl; lia. Qed.

Lemma countId_perm i l k : l ≡ₚ k → countId i l = countId i k.
Proof. intros H. unfold countId. by rewrite H. Qed.

Lemma countId_app i l k : countId i (l ++ k) = (countId i l + countId i k)%nat.
Proof. unfold countId. by rewrite filter_app, length_app. Qed.

Lemma countId_filter_le i (P : JobInstance → Prop) `{∀ x, Decision (P x)} l :
  (countId i (filter P l) <= countId i l)%nat.
Proof.
  unfold countId. rewrite list_filter_filter.
  induction l as [|x l IH]; [done|].
  rewrite !filter_cons.
  destruct (decide (id x = i ∧ P x)) as [[E HP]|Hn];
    destruct (decide (id x = i)); simpl; try lia.
  by destruct n.
Qed.

Lemma countId_split i (P : JobInstance → Prop) `{∀ x, Decision (P x)} l :
  (countId i (filter P l) + countId i (filter (fun x => ¬ P x) l))%nat
  = countId i l.
Proof.
  rewrite <- countId_app. apply countId_perm, filter_app_complement.
Qed.

Lemma countId_pos i l : (0 < countId i l)%nat ↔ i ∈ (id <$> l).
Proof.
  unfold countId. split.
  - destruct (filter _ l) as [|x xs] eqn:E; simpl; [lia|]. intros _.
    assert (Hx : x ∈ filter (fun j => id j = i) l)
      by (rewrite E; apply elem_of_cons; by left).
    apply list_elem_of_filter in Hx as [<- Hx]. apply list_elem_of_fmap. eauto.
  - intros (x & -> & Hx)%list_elem_of_fmap.
    assert (Hx' : x ∈ filter (fun j => id j = id x) l)
      by (by apply list_elem_of_filter).
    destruct (filter _ l); [by apply elem_of_nil in Hx'|simpl; lia].
Qed.

Lemma archivedCopies_insert i (bs : gmap string bucketData) month b :
  (archivedCopies i (<[month := b]> bs)
     + countId i (from_option entriesOf [] (bs !! month)))%nat
  = (archivedCopies i bs + countId i (entriesOf b))%nat.
Proof.
  unfold archivedCopies.
  destruct (bs !! month) as [old|] eqn:E; cbn [from_option].
  - rewrite <- (insert_delete_eq bs month b).
    rewrite (sum_list_perm _ _
      (fmap_Permutation _ _ _ (map_to_list_insert (delete month bs) month b
         (lookup_delete_eq bs month)))).
    rewrite <- (sum_list_perm _ _
      (fmap_Permutation _ _ _ (map_to_list_delete bs month old E))).
    rewrite !fmap_cons. change (sum_list (?x :: ?l)) with (x + sum_list l)%nat.
    cbn [snd]. lia.
  - rewrite (sum_list_perm _ _
      (fmap_Permutation _ _ _ (map_to_list_insert bs month b E))).
    rewrite fmap_cons. change (sum_list (?x :: ?l)) with (x + sum_list l)%nat.
    change (countId i []) with 0%nat. cbn [snd]. lia.
Qed.

Lemma bucketEntries_from_option d month :
  bucketEntries d month = from_option entriesOf [] (buckets d !! month).
Proof. unfold bucketEntries. by destruct (buckets d !! month) as [[| |]|]. Qed.

Lemma archiveMonth_copies i d n month js :
  archivedCopies i (buckets (archiveMonth (d, n) (month, js)).1)
  = (archivedCopies i (buckets d)
       + countId i (freshFor (bucketEntries d month) js))%nat.
Proof.
  destruct (archiveMonth_spec d n month js) as (-> & _).
  pose proof (archivedCopies_insert i (buckets d) month
                (BJobArray (mergedBucket d month js))) as H.
  rewrite <- bucketEntries_from_option in H. simpl in H.
  unfold mergedBucket in H at 2.
  rewrite (countId_perm _ _ _ (sortByPosted_perm _)), countId_app in H. lia.
Qed.

Lemma archiveMonths_copies i groups : ∀ d n,
  (archivedCopies i (buckets (fold_left archiveMonth groups (d, n)).1)
   <= archivedCopies i (buckets d) + countId i (mjoin (groups.*2)))%nat.
Proof.
  induction groups as [|[month js] groups IH]; intros d n; cbn [fold_left].
  - simpl. lia.
  - pose proof (archiveMonth_copies i d n month js) as H1.
    destruct (archiveMonth (d, n) (month, js)) as [d1 n1]. cbn [fst] in H1.
    specialize (IH d1 n1). rewrite H1 in IH.
    pose proof (countId_filter_le i
      (fun j => id j ∉ (list_to_set (id <$> bucketEntries d month) : gset string))
      js) as H2.
    fold (freshFor (bucketEntries d month) js) in H2.
    change (mjoin (((month, js) :: groups).*2)) with (js ++ mjoin (groups.*2)).
    rewrite countId_app. lia.
Qed.

Lemma pushGroup_join month j groups :
  mjoin ((pushGroup month j groups).*2) ≡ₚ j :: mjoin (groups.*2).
Proof.
  induction groups as [|[k js] groups IH]; simpl; [done|].
  destruct (decide (k = month)); simpl.
  - rewrite <- app_assoc. simpl. by rewrite <- Permutation_middle.
  - rewrite IH. by rewrite <- Permutation_middle.
Qed.

Lemma groupFold_join l : ∀ acc,
  mjoin ((fold_left (fun groups job => pushGroup (monthOf job) job groups) l acc).*2)
  ≡ₚ mjoin (acc.*2) ++ l.
Proof.
  induction l as [|j l IH]; intros acc; cbn [fold_left].
  - by rewrite app_nil_r.
  - rewrite IH, pushGroup_join. by rewrite <- Permutation_middle.
Qed.

Lemma groupByMonth_join l : mjoin ((groupByMonth l).*2) ≡ₚ l.
Proof. unfold groupByMonth. by rewrite groupFold_join. Qed.

(** The archiver never raises the number of copies of an id. *)
Lemma archiveOldJobs_copies m d now i :
  (copies i (archiveOldJobs m d now).1.1 (archiveOldJobs m d now).1.2
   <= copies i m d)%nat.
Proof.
  unfold copies. rewrite archiveOldJobs_jobs.
  unfold archiveOldJobs. rewrite cutoff_eq.
  destruct (length _ =? 0)%nat eqn:Hlen.
  { cbn [fst snd]. pose proof (countId_filter_le i
      (fun job => cutoff m now < postedToDiscord job) (jobs (data m))). lia. }
  clear Hlen.
  set (aged := filter (fun job => ¬ cutoff m now < postedToDiscord job)
                 (jobs (data m))).
  pose proof (archiveMonths_copies i (groupByMonth aged)
                (ensureDir (archiveDir m) d) 0%nat) as Hc.
  destruct (fold_left archiveMonth _ _) as [d2 total]. cbn [fst snd] in *.
  rewrite (countId_perm _ _ _ (groupByMonth_join aged)) in Hc.
  destruct (ensureDir_frame (archiveDir m) d) as (Hb & _). rewrite Hb in Hc.
  pose proof (countId_split i (fun job => cutoff m now < postedToDiscord job)
                (jobs (data m))) as Hs.
  cbv beta in Hs. fold aged in Hs. lia.
Qed.

(** ** The calls of a save *)

Lemma archiveMonth_calls d n month js :
  calls (archiveMonth (d, n) (month, js)).1 = calls d ++ bucketCalls d month.
Proof.
  unfold archiveMonth, readBucket, bucketCalls, atomicCalls,
    renameBucketTmp, writeBucketTmp.
  destruct (buckets d !! month) as [[| |l]|]; cbn -[insert lookup];
    rewrite lookup_insert_eq; cbn -[insert delete]; by rewrite <- ?app_assoc.
Qed.

Lemma pushGroup_keys month j groups :
  (pushGroup month j groups).*1 =
    if decide (month ∈ groups.*1) then groups.*1 else groups.*1 ++ [month].
Proof.
  induction groups as [|[k js] groups IH]; [done|].
  cbn [pushGroup]. destruct (decide (k = month)) as [->|Hne].
  - rewrite decide_True by (apply elem_of_cons; by left). done.
  - rewrite !fmap_cons, IH. cbn [fst].
    destruct (decide (month ∈ groups.*1)) as [Hin|Hin].
    + rewrite decide_True by (apply elem_of_cons; by right). done.
    + rewrite decide_False; [done|].
      intros [E|H]%elem_of_cons; [by destruct Hne|done].
Qed.

(** Every month is one key of [jobsByMonth]. *)
Lemma groupByMonth_NoDup l : NoDup (groupByMonth l).*1.
Proof.
  unfold groupByMonth.
  assert (H : ∀ acc : list (string * list JobInstance), NoDup acc.*1 →
    NoDup (fold_left (fun groups job => pushGroup (monthOf job) job groups)
             l acc).*1).
  { induction l as [|j l IH]; intros acc Hacc; cbn [fold_left]; [done|].
    apply IH. rewrite pushGroup_keys.
    destruct (decide (monthOf j ∈ acc.*1)) as [Hin|Hin]; [done|].
    apply NoDup_app. split; [done|]. split.
    - intros k Hk ->%list_elem_of_singleton. done.
    - apply NoDup_singleton. }
  apply H. constructor.
Qed.

Lemma bucketCalls_ext d d' month :
  buckets d' !! month = buckets d !! month ∨
  (is_Some (buckets d' !! month) ∧ is_Some (buckets d !! month)) →
  bucketCalls d' month = bucketCalls d month.
Proof.
  unfold bucketCalls. intros [->|[[b ->] [b' ->]]]; done.
Qed.

Lemma mergedBucket_ext d d' month js :
  buckets d' !! month = buckets d !! month →
  mergedBucket d' month js = mergedBucket d month js.
Proof. intros H. unfold mergedBucket, bucketEntries. by rewrite H. Qed.

(** The archiving loop issues, month by month, the existence test, the
    read of the archive as it was, if there was one, and the five
    replacement calls; it leaves in each month's bucket the merge of the
    month's jobs into it and touches no other bucket. *)
Lemma archiveMonths_exact groups :
  NoDup groups.*1 → ∀ d n,
  let r := fold_left archiveMonth groups (d, n) in
  calls r.1 = calls d ++ mjoin (bucketCalls d <$> groups.*1) ∧
  (∀ month js, (month, js) ∈ groups →
     buckets r.1 !! month = Some (BJobArray (mergedBucket d month js))) ∧
  (∀ month, month ∉ groups.*1 → buckets r.1 !! month = buckets d !! month).
Proof.
  induction groups as [|[month js] groups IH]; intros Hnd d n;
    cbn [fold_left].
  - cbn. rewrite app_nil_r. split; [done|]. split; [|done].
    intros month js H. by apply elem_of_nil in H.
  - rewrite fmap_cons in Hnd. apply NoDup_cons in Hnd as [Hfresh Hnd].
    cbn [fst] in Hfresh.
    pose proof (archiveMonth_calls d n month js) as Hcalls.
    destruct (archiveMonth_spec d n month js) as (Hb & _).
    destruct (archiveMonth (d, n) (month, js)) as [d1 n1]. cbn [fst] in *.
    destruct (IH Hnd d1 n1) as (Hc & Hin & Hout). cbv zeta in *.
    assert (Hother : ∀ k, k ≠ month → buckets d1 !! k = buckets d !! k).
    { intros k Hk. rewrite Hb. by apply lookup_insert_ne. }
    split; [|split].
    + assert (Heq : bucketCalls d1 <$> groups.*1 = bucketCalls d <$> groups.*1).
      { apply list_eq_Forall2, Forall2_fmap, Forall_Forall2_diag, Forall_forall.
        intros k Hk. apply bucketCalls_ext. left. apply Hother.
        intros ->. done. }
      rewrite Hc, Hcalls, Heq, !fmap_cons.
      change (mjoin (?x :: ?l)) with (x ++ mjoin l).
      by rewrite <- app_assoc.
    + intros k js' [[= -> ->]|Hk]%elem_of_cons.
      * rewrite (Hout month Hfresh), Hb. by rewrite lookup_insert_eq.
      * assert (Hne : k ≠ month).
        { intros ->. apply Hfresh. apply list_elem_of_fmap.
          by exists (month, js'). }
        rewrite (Hin k js' Hk). f_equal. f_equal.
        apply mergedBucket_ext, Hother, Hne.
    + intros k Hk. rewrite fmap_cons in Hk. cbn [fst] in Hk.
      apply not_elem_of_cons in Hk as [Hne Hk].
      rewrite (Hout k Hk). by apply Hother.
Qed.

Lemma ensureDir_calls p d :
  calls (ensureDir p d) = calls d ++ ensureCalls d p.
Proof.
  unfold ensureDir, ensureCalls. destruct (dirExists d p); simpl; [done|].
  by rewrite <- app_assoc.
Qed.

(** The calls of an archive cycle and the buckets it leaves. *)
Lemma archiveOldJobs_exact m d now :
  let a := archiveOldJobs m d now in
  calls a.1.2 = calls d ++ archiveCalls m d now ∧
  (∀ month js, (month, js) ∈ groupByMonth (jobsToArchive m now) →
     buckets a.1.2 !! month = Some (BJobArray (mergedBucket d month js))).
Proof.
  cbv zeta. unfold archiveOldJobs, archiveCalls, jobsToArchive.
  rewrite !cutoff_eq.
  destruct (filter (fun job => ¬ cutoff m now < postedToDiscord job)
              (jobs (data m))) as [|x l] eqn:E.
  - cbn. rewrite app_nil_r. split; [done|].
    intros month js H. by apply elem_of_nil in H.
  - cbn [length Nat.eqb]. rewrite <- E. clear E x l.
    set (old := filter _ (jobs (data m))).
    destruct (archiveMonths_exact (groupByMonth old) (groupByMonth_NoDup old)
                (ensureDir (archiveDir m) d) 0%nat) as (Hc & Hin & _).
    cbv zeta in *.
    destruct (fold_left archiveMonth _ _) as [d2 total]. cbn [fst snd] in *.
    destruct (ensureDir_frame (archiveDir m) d) as (Hb & _).
    split.
    + assert (Heq : bucketCalls (ensureDir (archiveDir m) d)
                      <$> (groupByMonth old).*1
                    = bucketCalls d <$> (groupByMonth old).*1).
      { apply list_eq_Forall2, Forall2_fmap, Forall_Forall2_diag, Forall_forall.
        intros k _. apply bucketCalls_ext. left. by rewrite Hb. }
      by rewrite Hc, Heq, ensureDir_calls, <- app_assoc.
    + intros month js Hg. rewrite (Hin month js Hg). f_equal. f_equal.
      apply mergedBucket_ext. by rewrite Hb.
Qed.

Lemma savePostedJobs_buckets m d now :
  buckets (finalDisk (savePostedJobs m d now))
  = buckets (archiveOldJobs m (ensureDir DataDir d) now).1.2.
Proof.
  unfold savePostedJobs.
  destruct (archiveOldJobs m (ensureDir DataDir d) now) as [[m1 d2] st].
  cbn [fst snd]. by destruct (verified _ _).
Qed.

Lemma savePostedJobs_calls m d now :
  let a := archiveOldJobs m (ensureDir DataDir d) now in
  let o := savePostedJobs m d now in
  calls (finalDisk o) =
    calls a.1.2 ++ atomicCalls PostedJobsPath ++ [ReadFileSync PostedJobsPath] ∧
  (o = Exited 1 (finalDisk o) ∧
     verified (ledger (finalDisk o)) (length (jobs (data a.1.1))) = false
   ∨ (∃ m', o = Saved m' (finalDisk o) ∧ jobs (data m') = jobs (data a.1.1)) ∧
     verified (ledger (finalDisk o)) (length (jobs (data a.1.1))) = true) ∧
  (∀ other, rival d = Some other →
     ledger (finalDisk o) = Some other) ∧
  (rival d = None → ∃ m', o = Saved m' (finalDisk o) ∧
     ledger (finalDisk o) = Some (LStore (data m'))).
Proof.
  cbv zeta. unfold savePostedJobs.
  destruct (archiveOldJobs_frame m (ensureDir DataDir d) now) as (_ & _ & Hr).
  destruct (ensureDir_frame DataDir d) as (_ & _ & _ & _ & Hr0).
  rewrite Hr0 in Hr. clear Hr0.
  destruct (archiveOldJobs m (ensureDir DataDir d) now) as [[m1 d2] st].
  cbn [fst snd] in *. unfold renameLedgerTmp, writeLedgerTmp, atomicCalls.
  cbn -[verified]. rewrite Hr.
  destruct (rival d) as [other|]; cbn -[verified].
  - destruct (verified (Some other) (length (jobs (data m1)))) eqn:Hv;
      cbn -[verified]; rewrite <- !app_assoc; cbn -[verified].
    + split; [done|]. split; [right; eauto|]. split; [by intros ? [= ->]|done].
    + split; [done|]. split; [by left|]. split; [by intros ? [= ->]|done].
  - cbn. rewrite Nat.eqb_refl. cbn. rewrite <- !app_assoc. cbn.
    split; [done|]. split.
    + right. split; [eauto|]. by rewrite Nat.eqb_refl.
    + split; [done|]. intros _. eauto.
Qed.

Lemma verified_jobsLength other expected :
  verified (Some other) expected = true ↔ jobsLength other = Some expected.
Proof.
  destruct other as [| | |ids|s|v|v [n| |]]; cbn; try done.
  - rewrite Nat.eqb_eq. split; [by intros ->|by intros [= ->]].
  - rewrite Nat.eqb_eq. split; [by intros ->|by intros [= ->]].
Qed.

(** C9. A save first runs the archive cycle, which replaces the bucket of
    every month that has an aged instance by the five calls of an atomic
    replacement (open, write, fsync and close on the temporary file, then
    the rename) and reads a bucket only before it writes it: the calls
    for a month end with the rename. It then replaces [posted_jobs.json]
    with the same five calls, reads the file again and compares what
    [jobs.length] reads with the number of jobs in memory; when they
    differ the process ends with exit code 1, when they agree the save
    returns. The clock reading and the cutoff are in the range of a
    [Date]. *)
Theorem save_verifies_ledger_only m d now :
  clockInRange m now →
  let d1 := ensureDir DataDir d in
  let o := savePostedJobs m d now in
  let activeJobs :=
    filter (fun job => cutoff m now < postedToDiscord job) (jobs (data m)) in
  calls (finalDisk o) =
    calls d ++ ensureCalls d DataDir ++ archiveCalls m d1 now
      ++ atomicCalls PostedJobsPath ++ [ReadFileSync PostedJobsPath] ∧
  NoDup (groupByMonth (jobsToArchive m now)).*1 ∧
  (∀ month js, (month, js) ∈ groupByMonth (jobsToArchive m now) →
     buckets (finalDisk o) !! month
       = Some (BJobArray (mergedBucket d month js))) ∧
  (∀ month, buckets d !! month = None →
     ReadFileSync (ArchivePath month) ∉ archiveCalls m d1 now) ∧
  (∀ other, rival d = Some other →
     (o = Exited 1 (finalDisk o) ↔ jobsLength other ≠ Some (length activeJobs)) ∧
     ((∃ m', o = Saved m' (finalDisk o)) ↔
        jobsLength other = Some (length activeJobs))) ∧
  (rival d = None →
     ∃ m', o = Saved m' (finalDisk o) ∧ jobs (data m') = activeJobs ∧
           ledger (finalDisk o) = Some (LStore (data m'))).
Proof.
  intros _. cbv zeta.
  destruct (savePostedJobs_calls m d now) as (Hcalls & Hout & Hriv & Hnone).
  destruct (archiveOldJobs_exact m (ensureDir DataDir d) now) as [Hc Hb].
  pose proof (archiveOldJobs_jobs m (ensureDir DataDir d) now) as Hjobs.
  cbv zeta in *. rewrite Hjobs in *.
  split; [|split; [|split; [|split; [|split]]]].
  - by rewrite Hcalls, Hc, ensureDir_calls, <- !app_assoc.
  - apply groupByMonth_NoDup.
  - intros month js Hg. rewrite savePostedJobs_buckets, (Hb month js Hg).
    f_equal. f_equal. apply mergedBucket_ext.
    by destruct (ensureDir_frame DataDir d) as (-> & _).
  - intros month Hnew. unfold archiveCalls.
    destruct (jobsToArchive m now) as [|x l]; [apply not_elem_of_nil|].
    intros [Hin|Hin]%elem_of_app.
    + unfold ensureCalls in Hin.
      destruct (dirExists _ _);
        repeat (apply elem_of_cons in Hin as [Hin|Hin]; [done|]);
        by apply elem_of_nil in Hin.
    + apply list_elem_of_join in Hin as (segment & Hin & Hseg).
      apply list_elem_of_fmap in Hseg as (k & -> & _).
      unfold bucketCalls, atomicCalls in Hin.
      destruct (ensureDir_frame DataDir d) as (Hbk & _). rewrite Hbk in Hin.
      destruct (decide (k = month)) as [->|Hne].
      * rewrite Hnew in Hin.
        repeat (apply elem_of_cons in Hin as [Hin|Hin]; [done|]).
        by apply elem_of_nil in Hin.
      * destruct (buckets d !! k);
          repeat (apply elem_of_cons in Hin as [Hin|Hin];
                  [by simplify_eq|]);
          by apply elem_of_nil in Hin.
  - intros other Hr. specialize (Hriv _ Hr). rewrite Hriv in Hout.
    rewrite <- verified_jobsLength. split.
    + split.
      * intros Ho. destruct Hout as [[_ Hv]|[(m' & Hs & _) _]]; [|congruence].
        by rewrite Hv.
      * intros Hv. destruct Hout as [[Ho _]|[_ Hv']]; [done|]. by destruct Hv.
    + split.
      * intros (m' & Ho). destruct Hout as [[Hx _]|[_ Hv]]; [congruence|done].
      * intros Hv. destruct Hout as [[_ Hv']|[(m' & Ho & _) _]]; [congruence|].
        eauto.
  - intros Hr. destruct (Hnone Hr) as (m' & Ho & Hl).
    exists m'. split; [done|]. split; [|done].
    destruct Hout as [[Hx _]|[(m'' & Hs & Hj) _]]; congruence.
Qed.

(** ** Instance numbers *)

Lemma constructor_on_empty_disk :
  ready (constructor (mkEnv None None) emptyDisk Sample.t0).1 = Some Sample.fresh.
Proof. reflexivity. Qed.

Lemma filter_all_rejected {A} (P : A → Prop) `{∀ x, Decision (P x)} (l : list A) :
  (∀ x, x ∈ l → ¬ P x) → filter P l = [].
Proof.
  induction l as [|x l IH]; intros Hall; [done|].
  rewrite filter_cons. destruct (decide (P x)) as [HP|_].
  - destruct (Hall x); [apply elem_of_cons; by left|done].
  - apply IH. intros y Hy. apply Hall. apply elem_of_cons. by right.
Qed.

(** Once every instance of a job id has aged, an archive cycle leaves none
    of them in the active list and the next instance is numbered 1. *)
Lemma numbering_after_archive m d later now jobId_ jobData thread :
  (∀ inst, inst ∈ jobs (data m) → jobId inst = jobId_ →
           postedToDiscord inst <= cutoff m later) →
  instanceNumber
    (newJob (archiveOldJobs m d later).1.1 now jobId_ jobData thread) = 1%nat.
Proof.
  intros Haged. unfold newJob. cbn [instanceNumber].
  rewrite archiveOldJobs_jobs.
  rewrite (filter_all_rejected (fun job => jobId job = jobId_)); [done|].
  intros job [Hc Hin]%list_elem_of_filter Hid.
  specialize (Haged job Hin Hid). lia.
Qed.

(** C1. [markAsPosted] numbers an instance by the instances of the job id
    still in the active list, so the numbers start over once earlier
    instances have been archived: after an archive cycle that found every
    instance of the job id aged the next number is 1; three announcements
    ten days apart are numbered 1, 2, 2, and two announcements around an
    archive cycle 1, 1. *)
Theorem instance_numbers_restart :
  (∀ m now jobId_ jobData thread,
     instanceNumber (newJob m now jobId_ jobData thread)
       = (length (matching m jobId_) + 1)%nat) ∧
  (∀ m d later now jobId_ jobData thread,
     (∀ inst, inst ∈ jobs (data m) → jobId inst = jobId_ →
              postedToDiscord inst <= cutoff m later) →
     instanceNumber
       (newJob (archiveOldJobs m d later).1.1 now jobId_ jobData thread)
       = 1%nat) ∧
  (∃ m' d' appended,
     run Sample.threeAppends Sample.fresh emptyDisk = Some (m', d', appended) ∧
     jobId <$> appended = ["A"; "A"; "A"]%string ∧
     instanceNumber <$> appended = [1; 2; 2]%nat) ∧
  (∃ m' d' appended,
     run Sample.appendArchiveAppend Sample.fresh emptyDisk
       = Some (m', d', appended) ∧
     jobId <$> appended = ["A"; "A"]%string ∧
     instanceNumber <$> appended = [1; 1]%nat).
Proof.
  split; [done|]. split; [exact numbering_after_archive|]. split.
  - eexists _, _, _. split; [vm_compute; reflexivity|]. split; reflexivity.
  - eexists _, _, _. split; [vm_compute; reflexivity|]. split; reflexivity.
Qed.

(** A consequence for the ids, which are built from the job id, the day
    and the number: two instances appended on one day around an archive
    cycle carry the same id, and the merge by id then keeps one of them. *)
Lemma restarted_number_repeats_id :
  ∃ m' d' appended,
    run Sample.sameDayAppends Sample.fresh emptyDisk = Some (m', d', appended) ∧
    id <$> appended
      = ["A-2023-11-14-1"; "A-2023-11-21-2"; "A-2023-11-21-2"]%string ∧
    postedToDiscord <$> appended
      = [1700000000000; 1700597600000; 1700608400000] ∧
    jobs (data m') = [] ∧
    (fun kb => (kb.1, postedToDiscord <$> entriesOf kb.2))
      <$> map_to_list (buckets d')
      = [("2023-11"%string, [1700000000000; 1700597600000])].
Proof.
  eexists _, _, _. split; [vm_compute; reflexivity|].
  split; [reflexivity|]. split; [reflexivity|]. split; reflexivity.
Qed.

(** ** Migration *)

Lemma migrated_job this now jobIds job :
  job ∈ jobs (migrateFromV1 this now jobIds) →
  postedToDiscord job = now - 8 * Clock.msPerDay ∧
  instanceNumber job = 1%nat ∧
  company job = "Unknown (migrated)"%string ∧
  title job = "Unknown (migrated)"%string.
Proof.
  intros [index Hi]%list_elem_of_lookup.
  apply migrateFromV1_lookup in Hi as (j & _ & _ & _ & Hn & Hc & Ht & Hp).
  done.
Qed.

(** With a window of at most eight days the next save does move every
    migrated instance out of the active list. *)
Lemma migrated_archived_within_eight this now jobIds m d later :
  jobs (data m) = jobs (migrateFromV1 this now jobIds) →
  activeWindowDays m <= 8 → now <= later →
  jobs (data (archiveOldJobs m d later).1.1) = [].
Proof.
  intros Hj Hw Hlater. rewrite archiveOldJobs_jobs, Hj.
  apply filter_all_rejected. intros job Hin.
  apply migrated_job in Hin as (Hp & _). rewrite Hp.
  unfold cutoff, Clock.msPerDay. lia.
Qed.



(** ** Conservation *)

(** The set of ids is conserved. After every sequence of appends, archive
    cycles and saves that runs to its end the ids on record, in the active
    list or in a monthly bucket, are the ids on record at the start
    together with the ids appended; on a disk without a rival writer every
    sequence runs to its end, and from an empty ledger the ids on record
    are exactly the ids appended. An archive cycle keeps the set of
    recorded ids as it is and never raises the number of copies of an id.
    This is a statement on ids only: an instance whose id is already in
    the bucket is not stored, as the run [Sample.sameDayAppends] shows. *)
Lemma ids_conserved :
  (∀ ops m d m' d' appended,
     run ops m d = Some (m', d', appended) →
     ∀ i, recorded i m' d' ↔ recorded i m d ∨ i ∈ (id <$> appended)) ∧
  (∀ ops m d, rival d = None →
     ∃ m' d' appended, run ops m d = Some (m', d', appended) ∧
       ∀ i, recorded i m' d' ↔ recorded i m d ∨ i ∈ (id <$> appended)) ∧
  (∀ ops m d, rival d = None → jobs (data m) = [] → buckets d = ∅ →
     ∃ m' d' appended, run ops m d = Some (m', d', appended) ∧
       ∀ i, recorded i m' d' ↔ i ∈ (id <$> appended)) ∧
  (∀ m d now i,
     (recorded i (archiveOldJobs m d now).1.1 (archiveOldJobs m d now).1.2
        ↔ recorded i m d) ∧
     (copies i (archiveOldJobs m d now).1.1 (archiveOldJobs m d now).1.2
        <= copies i m d)%nat).
Proof.
  assert (Hrun : ∀ ops m d, rival d = None →
     ∃ m' d' appended, run ops m d = Some (m', d', appended) ∧
       ∀ i, recorded i m' d' ↔ recorded i m d ∨ i ∈ (id <$> appended)).
  { intros ops m d Hr.
    destruct (run_total ops m d Hr) as (m' & d' & appended & E).
    exists m', d', appended. split; [done|].
    intros i. by apply (run_recorded ops m d). }
  split; [intros ops m d m' d' appended E i; by apply (run_recorded ops m d)|].
  split; [exact Hrun|]. split.
  - intros ops m d Hr Hj Hb.
    destruct (Hrun ops m d Hr) as (m' & d' & appended & E & Hrec).
    exists m', d', appended. split; [done|]. intros i. rewrite Hrec.
    unfold recorded, bucketEntries. rewrite Hj, Hb. split; [|by right].
    intros [[H|[month H]]|H]; [| |done].
    + by apply elem_of_nil in H.
    + rewrite lookup_empty in H. by apply elem_of_nil in H.
  - intros m d now i. split.
    + apply archiveOldJobs_recorded.
    + apply archiveOldJobs_copies.
Qed.

(** C2. A successful archive cycle drops an instance. On an empty disk,
    with the default window of seven days, job ["A"] is announced at [t0],
    announced again two hours before the first instance ages, saved, and
    announced a third time an hour after that save; two later saves
    archive the second and the third instance. Every call returns. The
    second and the third instance were posted at different instants of
    the same day and both carry number 2, hence the same id, and the merge
    by id drops the third: after the last save it is neither in the active
    list nor in any bucket, which hold two of the three instances
    appended. *)
Theorem archive_drops_instance :
  ∃ m' d' first second third,
    run Sample.sameDayAppends Sample.fresh emptyDisk
      = Some (m', d', [first; second; third]) ∧
    jobId <$> [first; second; third] = ["A"; "A"; "A"]%string ∧
    instanceNumber <$> [first; second; third] = [1; 2; 2]%nat ∧
    id second = id third ∧
    postedToDiscord second ≠ postedToDiscord third ∧
    rival d' = None ∧
    jobs (data m') = [] ∧
    map_to_list (buckets d') = [("2023-11"%string, BJobArray [first; second])] ∧
    ∀ month, third ∉ bucketEntries d' month.
Proof.
  eexists _, _, _, _, _. split; [vm_compute; reflexivity|].
  repeat (split; [first [reflexivity | vm_compute; discriminate]|]).
  intros month Hin. unfold bucketEntries in Hin.
  match type of Hin with context [?bs !! month] =>
    destruct (bs !! month) as [b|] eqn:E; [|by apply elem_of_nil in Hin];
    apply elem_of_map_to_list in E;
    let l := eval vm_compute in (map_to_list bs) in
    change (map_to_list bs) with l in E
  end.
  apply list_elem_of_singleton in E as [= -> ->].
  apply elem_of_cons in Hin as [Hin|Hin%list_elem_of_singleton];
    discriminate Hin.
Qed.

(** ** Replaying an archive cycle against the buckets it wrote *)

Lemma insertByPosted_ascending j l :
  ascending l → ascending (insertByPosted j l).
Proof.
  induction l as [|k rest IH]; simpl; [done|].
  intros [Hk Hrest].
  destruct (Z.leb_spec (postedToDiscord j) (postedToDiscord k)).
  - simpl. done.
  - simpl. split; [|by apply IH].
    destruct rest as [|k' rest']; simpl; [lia|].
    destruct (Z.leb_spec (postedToDiscord j) (postedToDiscord k')); lia.
Qed.

Lemma sortByPosted_ascending l : ascending (sortByPosted l).
Proof.
  induction l as [|j l IH]; simpl; [done|]. by apply insertByPosted_ascending.
Qed.

Lemma sortByPosted_ascending_id l : ascending l → sortByPosted l = l.
Proof.
  induction l as [|j l IH]; [done|]. intros [Hj Hl].
  cbn [sortByPosted foldr]. fold (sortByPosted l). rewrite (IH Hl).
  destruct l as [|k rest]; [done|]. simpl.
  destruct (Z.leb_spec (postedToDiscord j) (postedToDiscord k)); [done|lia].
Qed.

Lemma sortByPosted_idem l : sortByPosted (sortByPosted l) = sortByPosted l.
Proof. apply sortByPosted_ascending_id, sortByPosted_ascending. Qed.

Lemma archiveMonth_settles d n month js month' :
  month' = month ∨ settled d month' →
  settled (archiveMonth (d, n) (month, js)).1 month'.
Proof.
  destruct (archiveMonth_spec d n month js) as (Hb & _).
  unfold settled. rewrite Hb. intros H.
  destruct (decide (month = month')) as [->|Hne].
  - rewrite lookup_insert_eq. eexists. split; [done|].
    unfold mergedBucket. apply sortByPosted_ascending.
  - rewrite lookup_insert_ne by done.
    destruct H as [->|H]; [done|exact H].
Qed.

Lemma archiveMonths_settle groups : ∀ d n month',
  month' ∈ groups.*1 ∨ settled d month' →
  settled (fold_left archiveMonth groups (d, n)).1 month'.
Proof.
  induction groups as [|[month js] groups IH]; intros d n month' H;
    cbn [fold_left].
  - destruct H as [H|H]; [by apply elem_of_nil in H|done].
  - pose proof (archiveMonth_settles d n month js month') as Hs.
    destruct (archiveMonth (d, n) (month, js)) as [d1 n1]. cbn [fst] in Hs.
    apply IH. destruct H as [H|H].
    + rewrite fmap_cons in H. apply elem_of_cons in H as [->|H].
      * right. apply Hs. by left.
      * by left.
    + right. apply Hs. by right.
Qed.

Lemma freshFor_nil existing js :
  (∀ j, j ∈ js → id j ∈ (id <$> existing)) → freshFor existing js = [].
Proof.
  intros Hall. unfold freshFor. apply filter_all_rejected.
  intros j Hj Hn. apply Hn. rewrite elem_of_list_to_set. by apply Hall.
Qed.

(** A month whose bucket is settled and already holds every id of the
    group is rewritten with the very same content. *)
Lemma archiveMonth_replay d n month js :
  settled d month →
  (∀ j, j ∈ js → id j ∈ (id <$> bucketEntries d month)) →
  buckets (archiveMonth (d, n) (month, js)).1 = buckets d ∧
  (archiveMonth (d, n) (month, js)).2 = n.
Proof.
  intros (l & Hl & Hasc) Hids.
  destruct (archiveMonth_spec d n month js) as (Hb & Hn & _).
  rewrite Hb, Hn. unfold mergedBucket.
  rewrite (freshFor_nil _ _ Hids), app_nil_r. simpl.
  assert (He : bucketEntries d month = l) by (unfold bucketEntries; by rewrite Hl).
  rewrite He, (sortByPosted_ascending_id _ Hasc). split; [|lia].
  by apply insert_id.
Qed.

Lemma archiveMonths_replay groups : ∀ d n,
  (∀ month js, (month, js) ∈ groups →
     settled d month ∧ ∀ j, j ∈ js → id j ∈ (id <$> bucketEntries d month)) →
  buckets (fold_left archiveMonth groups (d, n)).1 = buckets d ∧
  (fold_left archiveMonth groups (d, n)).2 = n.
Proof.
  induction groups as [|[month js] groups IH]; intros d n Hall;
    cbn [fold_left]; [done|].
  destruct (Hall month js) as [Hs Hids]; [apply elem_of_cons; by left|].
  destruct (archiveMonth_replay d n month js Hs Hids) as [Hb Hn].
  destruct (archiveMonth (d, n) (month, js)) as [d1 n1]. cbn [fst snd] in *.
  subst n1. rewrite <- Hb. apply IH.
  intros month' js' Hin. destruct (Hall month' js') as [Hs' Hids'].
  { apply elem_of_cons. by right. }
  unfold settled, bucketEntries. rewrite Hb. done.
Qed.

(** Archiving the same active list again, against the buckets the first
    cycle wrote, counts no new job and leaves every bucket as it is. *)
Lemma archive_replay m d now :
  let d1 := (archiveOldJobs m d now).1.2 in
  buckets (archiveOldJobs m d1 now).1.2 = buckets d1 ∧
  archived (archiveOldJobs m d1 now).2 = 0%nat.
Proof.
  cbv zeta. unfold archiveOldJobs. rewrite cutoff_eq.
  destruct (length _ =? 0)%nat eqn:Hlen.
  { done. }
  set (aged := filter (fun job => ¬ cutoff m now < postedToDiscord job)
                 (jobs (data m))).
  set (groups := groupByMonth aged).
  pose proof (archiveMonths_ids groups (ensureDir (archiveDir m) d) 0%nat)
    as Hids.
  pose proof (archiveMonths_settle groups (ensureDir (archiveDir m) d) 0%nat)
    as Hset.
  destruct (fold_left archiveMonth groups (ensureDir (archiveDir m) d, 0%nat))
    as [d1 total]. cbn [fst snd] in *.
  destruct (ensureDir_frame (archiveDir m) d1) as (Hb & _).
  destruct (archiveMonths_replay groups (ensureDir (archiveDir m) d1) 0%nat)
    as [Hb' Hn'].
  { intros month js Hin. split.
    - unfold settled. rewrite Hb. apply Hset. left.
      apply list_elem_of_fmap. by exists (month, js).
    - intros j Hj. rewrite bucketEntries_ensureDir. apply Hids. right.
      exists js. split; [done|]. apply list_elem_of_fmap. eauto. }
  destruct (fold_left archiveMonth groups (ensureDir (archiveDir m) d1, 0%nat))
    as [d2 total2]. cbn [fst snd] in *.
  by rewrite Hb', Hb.
Qed.

(** ** Idempotence of the archiver *)

Lemma archive_noop m d now :
  (∀ job, job ∈ jobs (data m) → cutoff m now < postedToDiscord job) →
  archiveOldJobs m d now = (m, d, mkStats 0 (length (jobs (data m))) None).
Proof.
  intros Hall. unfold archiveOldJobs. rewrite cutoff_eq.
  assert (Hnone : filter (fun job => ¬ cutoff m now < postedToDiscord job)
                    (jobs (data m)) = []).
  { apply filter_all_rejected. intros job Hin Hn. by apply Hn, Hall. }
  rewrite Hnone. simpl. by rewrite (filter_none_rejected _ _ Hnone).
Qed.

(** C6. A second archive cycle at the same instant, on the manager and the
    disk the first one left, archives nothing and returns both unchanged:
    the active list is the same and no bucket is written. The same holds
    at any later instant at which no remaining instance has aged. And when
    the old active list is archived again against the buckets already
    written, the merge by id adds no entry: every bucket stays as it is. *)
Theorem archive_idempotent :
  (∀ m d now,
     let m1 := (archiveOldJobs m d now).1.1 in
     let d1 := (archiveOldJobs m d now).1.2 in
     archiveOldJobs m1 d1 now
       = (m1, d1, mkStats 0 (length (jobs (data m1))) None)) ∧
  (∀ m d now later,
     let m1 := (archiveOldJobs m d now).1.1 in
     let d1 := (archiveOldJobs m d now).1.2 in
     (∀ job, job ∈ jobs (data m1) → cutoff m1 later < postedToDiscord job) →
     archiveOldJobs m1 d1 later
       = (m1, d1, mkStats 0 (length (jobs (data m1))) None)) ∧
  (∀ m d now,
     let d1 := (archiveOldJobs m d now).1.2 in
     buckets (archiveOldJobs m d1 now).1.2 = buckets d1 ∧
     archived (archiveOldJobs m d1 now).2 = 0%nat).
Proof.
  split; [|split; [|exact archive_replay]].
  - intros m d now. cbv zeta. apply archive_noop.
    intros job. rewrite archiveOldJobs_jobs.
    intros [Hc _]%list_elem_of_filter.
    unfold cutoff in *.
    by destruct (archiveOldJobs_settings m d now) as [-> _].
  - intros m d now later. cbv zeta. apply archive_noop.
Qed.

(** ** The theorems at sample inputs *)

Lemma instance_numbers_restart_witness :
  instanceNumber
    (newJob (archiveOldJobs Sample.once emptyDisk
               (Sample.t0 + 8 * Sample.day)).1.1
       (Sample.t0 + 8 * Sample.day) "A" Sample.job None) = 1%nat.
Proof.
  apply (proj1 (proj2 instance_numbers_restart) Sample.once emptyDisk
           (Sample.t0 + 8 * Sample.day) (Sample.t0 + 8 * Sample.day)
           "A"%string Sample.job None).
  intros inst Hin _. apply list_elem_of_singleton in Hin as ->.
  vm_compute. discriminate.
Defined.


Lemma recency_window_witness :
  ∃ m1 d1 m2 d2 appended,
    markAsPosted Sample.fresh emptyDisk Sample.t0 "A" Sample.job None
      = Saved m1 d1 ∧
    run [MarkAsPosted (Sample.t0 + Sample.day) "B" Sample.job None;
         ArchiveOldJobs (Sample.t0 + 2 * Sample.day)] m1 d1
      = Some (m2, d2, appended) ∧
    hasBeenPosted m2 (Sample.t0 + 3 * Sample.day) "A" None = true ∧
    hasBeenPosted Sample.fresh Sample.t0 "A" None = false.
Proof.
  eexists _, _, _, _, _.
  split; [vm_compute; reflexivity|]. split; [vm_compute; reflexivity|]. split.
  - eapply (proj1 recency_window Sample.fresh emptyDisk Sample.t0 "A"%string
              Sample.job None _ _
              [MarkAsPosted (Sample.t0 + Sample.day) "B" Sample.job None;
               ArchiveOldJobs (Sample.t0 + 2 * Sample.day)]).
    + vm_compute. repeat split; discriminate.
    + vm_compute. reflexivity.
    + vm_compute. reflexivity.
    + repeat constructor; vm_compute; discriminate.
    + vm_compute. repeat split; discriminate.
    + vm_compute. split; [discriminate|reflexivity].
  - apply (proj2 recency_window). intros job Hin. vm_compute in Hin.
    by apply elem_of_nil in Hin.
Defined.

Lemma sample_once_matching :
  ∃ inst, inst ∈ jobs (data Sample.once) ∧ jobId inst = "A"%string.
Proof. exists Sample.posted. split; [by left|reflexivity]. Defined.

Lemma sample_once_aged :
  ∀ inst, inst ∈ jobs (data Sample.once) → jobId inst = "A"%string →
          postedToDiscord inst
            <= cutoff Sample.once (Sample.t0 + 10 * Sample.day).
Proof.
  intros inst Hin _. apply list_elem_of_singleton in Hin as ->.
  vm_compute. discriminate.
Defined.


Lemma sample_once_aged_later :
  ∀ inst, inst ∈ jobs (data Sample.once) → jobId inst = "A"%string →
          postedToDiscord inst
            <= cutoff Sample.once (Sample.t0 + 100 * Sample.day).
Proof.
  intros inst Hin _. apply list_elem_of_singleton in Hin as ->.
  vm_compute. discriminate.
Defined.

Lemma reopening_by_age_witness :
  hasBeenPosted Sample.once (Sample.t0 + 10 * Sample.day) "A" None = true ∧
  hasBeenPosted Sample.once (Sample.t0 + 100 * Sample.day) "A" None = false.
Proof.
  split.
  - destruct (reopening_by_age Sample.once (Sample.t0 + 10 * Sample.day)
                "A"%string None sample_once_matching sample_once_aged eq_refl)
      as (oldest & Hin & _ & _ & _ & Htrue & _).
    apply Htrue. apply list_elem_of_singleton in Hin as ->.
    vm_compute. intros H. apply H. reflexivity.
  - destruct (reopening_by_age Sample.once (Sample.t0 + 100 * Sample.day)
                "A"%string None sample_once_matching sample_once_aged_later
                eq_refl)
      as (oldest & Hin & _ & _ & Hfalse & _ & _).
    apply Hfalse. apply list_elem_of_singleton in Hin as ->.
    vm_compute. discriminate.
Defined.

Lemma ids_conserved_witness :
  (∀ i, recorded i
          (archiveOldJobs Sample.once emptyDisk (Sample.t0 + 8 * Sample.day)).1.1
          (archiveOldJobs Sample.once emptyDisk (Sample.t0 + 8 * Sample.day)).1.2
        ↔ recorded i Sample.once emptyDisk ∨ i ∈ (id <$> [])) ∧
  (∃ m' d' appended,
     run Sample.appendArchiveAppend Sample.once emptyDisk
       = Some (m', d', appended) ∧
     ∀ i, recorded i m' d' ↔
          recorded i Sample.once emptyDisk ∨ i ∈ (id <$> appended)) ∧
  (∃ m' d' appended,
     run Sample.threeAppends Sample.fresh emptyDisk = Some (m', d', appended) ∧
     ∀ i, recorded i m' d' ↔ i ∈ (id <$> appended)).
Proof.
  split; [|split].
  - apply (proj1 ids_conserved [ArchiveOldJobs (Sample.t0 + 8 * Sample.day)]
             Sample.once emptyDisk).
    vm_compute. reflexivity.
  - apply (proj1 (proj2 ids_conserved) Sample.appendArchiveAppend Sample.once
             emptyDisk).
    reflexivity.
  - apply (proj1 (proj2 (proj2 ids_conserved)) Sample.threeAppends Sample.fresh
             emptyDisk); reflexivity.
Defined.

Lemma archive_idempotent_witness :
  archiveOldJobs
    (archiveOldJobs Sample.once emptyDisk (Sample.t0 + Sample.day)).1.1
    (archiveOldJobs Sample.once emptyDisk (Sample.t0 + Sample.day)).1.2
    (Sample.t0 + 2 * Sample.day)
  = ((archiveOldJobs Sample.once emptyDisk (Sample.t0 + Sample.day)).1.1,
     (archiveOldJobs Sample.once emptyDisk (Sample.t0 + Sample.day)).1.2,
     mkStats 0 1 None).
Proof.
  apply (proj1 (proj2 archive_idempotent) Sample.once emptyDisk
           (Sample.t0 + Sample.day) (Sample.t0 + 2 * Sample.day)).
  intros job Hin. vm_compute in Hin.
  apply list_elem_of_singleton in Hin as ->. vm_compute. reflexivity.
Defined.

Lemma save_verifies_ledger_only_witness :
  calls (finalDisk (savePostedJobs Sample.once emptyDisk
                      (Sample.t0 + 8 * Sample.day)))
    = [ExistsSync DataDir; MkdirSync DataDir;
       ExistsSync ArchiveDir; MkdirSync ArchiveDir;
       ExistsSync (ArchivePath "2023-11");
       OpenSync (Tmp (ArchivePath "2023-11"));
       WriteSync (Tmp (ArchivePath "2023-11"));
       FsyncSync (Tmp (ArchivePath "2023-11"));
       CloseSync (Tmp (ArchivePath "2023-11"));
       RenameSync (Tmp (ArchivePath "2023-11")) (ArchivePath "2023-11");
       OpenSync (Tmp PostedJobsPath); WriteSync (Tmp PostedJobsPath);
       FsyncSync (Tmp PostedJobsPath); CloseSync (Tmp PostedJobsPath);
       RenameSync (Tmp PostedJobsPath) PostedJobsPath;
       ReadFileSync PostedJobsPath] ∧
  buckets (finalDisk (savePostedJobs Sample.once emptyDisk
                        (Sample.t0 + 8 * Sample.day))) !! "2023-11"%string
    = Some (BJobArray [Sample.posted]) ∧
  (∃ m', savePostedJobs Sample.once emptyDisk (Sample.t0 + 8 * Sample.day)
           = Saved m' (finalDisk (savePostedJobs Sample.once emptyDisk
                                    (Sample.t0 + 8 * Sample.day))) ∧
         jobs (data m') = []) ∧
  savePostedJobs Sample.once Sample.contended (Sample.t0 + 1)
    = Exited 1 (finalDisk (savePostedJobs Sample.once Sample.contended
                             (Sample.t0 + 1))) ∧
  savePostedJobs Sample.once Sample.garbled (Sample.t0 + 1)
    = Exited 1 (finalDisk (savePostedJobs Sample.once Sample.garbled
                             (Sample.t0 + 1))).
Proof.
  assert (Hlate : clockInRange Sample.once (Sample.t0 + 8 * Sample.day))
    by (vm_compute; repeat split; discriminate).
  assert (Hsoon : clockInRange Sample.once (Sample.t0 + 1))
    by (vm_compute; repeat split; discriminate).
  destruct (save_verifies_ledger_only Sample.once emptyDisk
              (Sample.t0 + 8 * Sample.day) Hlate)
    as (Hcalls & _ & Hbucket & _ & _ & Halone).
  split; [|split; [|split; [|split]]].
  - rewrite Hcalls. vm_compute. reflexivity.
  - rewrite (Hbucket "2023-11"%string [Sample.posted]).
    + vm_compute. reflexivity.
    + assert (E : groupByMonth
                    (jobsToArchive Sample.once (Sample.t0 + 8 * Sample.day))
                  = [("2023-11"%string, [Sample.posted])])
        by (vm_compute; reflexivity).
      rewrite E. apply elem_of_cons. left. reflexivity.
  - destruct (Halone eq_refl) as (m' & Ho & Hj & _).
    exists m'. split; [exact Ho|]. rewrite Hj. vm_compute. reflexivity.
  - apply (proj1 (proj2 (proj2 (proj2 (proj2
             (save_verifies_ledger_only Sample.once Sample.contended
                (Sample.t0 + 1) Hsoon)))))
             (LStore (createEmptyDatabase This.blank Sample.t0)) eq_refl).
    vm_compute. discriminate.
  - apply (proj1 (proj2 (proj2 (proj2 (proj2
             (save_verifies_ledger_only Sample.once Sample.garbled
                (Sample.t0 + 1) Hsoon)))))
             LBadText eq_refl).
    vm_compute. discriminate.
Defined.

Lemma constructor_window_undefined_witness :
  ∃ s, This.data (constructor Sample.wideWindow Sample.legacyDisk Sample.t0).1
         = Some (Built s) ∧
       Metadata.activeWindowDays (metadata s) = None ∧
       This.activeWindowDays
         (constructor Sample.wideWindow Sample.legacyDisk Sample.t0).1
         = Some 14.
Proof.
  apply (constructor_window_undefined Sample.wideWindow Sample.legacyDisk
           Sample.t0).
  right. eexists. reflexivity.
Defined.

Lemma load_cases_witness :
  (loadPostedJobs This.blank emptyDisk Sample.t0).1
    = Built (createEmptyDatabase This.blank Sample.t0) ∧
  (loadPostedJobs This.blank (withLedger LBadText) Sample.t0).1
    = Built (createEmptyDatabase This.blank Sample.t0) ∧
  (loadPostedJobs This.blank (withLedger (LObject (Some 3))) Sample.t0).1
    = Built (createEmptyDatabase This.blank Sample.t0) ∧
  (loadPostedJobs This.blank (withLedger (LObject None)) Sample.t0).1
    = Built (createEmptyDatabase This.blank Sample.t0) ∧
  (loadPostedJobs This.blank (withLedger (LStore (data Sample.once))) Sample.t0).1
    = FromFile (LStore (data Sample.once)) ∧
  (loadPostedJobs This.blank (withLedger (LOddJobs (Some 2) OtherLength))
     Sample.t0).1
    = FromFile (LOddJobs (Some 2) OtherLength).
Proof.
  split; [|split; [|split; [|split; [|split]]]].
  - apply (proj1 (load_cases This.blank emptyDisk Sample.t0)). reflexivity.
  - apply (proj1 (proj2 (load_cases This.blank (withLedger LBadText) Sample.t0))).
    reflexivity.
  - apply (proj1 (proj2 (proj2 (load_cases This.blank
                                  (withLedger (LObject (Some 3))) Sample.t0)))
             (LObject (Some 3))).
    + reflexivity.
    + intros jobIds. discriminate.
    + intros H. exact H.
  - apply (proj1 (proj2 (proj2 (proj2 (load_cases This.blank
             (withLedger (LObject None)) Sample.t0)))) None).
    left. reflexivity.
  - apply (proj1 (proj2 (proj2 (proj2 (proj2 (load_cases This.blank
             (withLedger (LStore (data Sample.once))) Sample.t0)))))
             (LStore (data Sample.once))).
    split; [reflexivity|]. split; [reflexivity|exact I].
  - apply (proj1 (proj2 (proj2 (proj2 (proj2 (load_cases This.blank
             (withLedger (LOddJobs (Some 2) OtherLength)) Sample.t0)))))
             (LOddJobs (Some 2) OtherLength)).
    split; [reflexivity|]. split; exact I.
Defined.

(** * Further properties *)

(** ** Statistics *)

Lemma countJob_cons k x l :
  countJob k (x :: l)
  = ((if decide (jobId x = k) then 1 else 0) + countJob k l)%nat.
Proof.
  unfold countJob. rewrite filter_cons. by destruct (decide (jobId x = k)).
Qed.

(** What the counting loop leaves under a key, when no job id is an
    inherited name: the number of jobs with that id, added to what was
    there. *)
Lemma bumpCount_fold l : ∀ (M : gmap string countValue) k,
  (∀ job, job ∈ l → jobId job ∉ inheritedNames) →
  fold_left bumpCount l M !! k =
    match M !! k with
    | Some (Count n) => Some (Count (n + countJob k l))
    | Some CountText => Some CountText
    | None => if decide (countJob k l = 0%nat) then None
              else Some (Count (countJob k l))
    end.
Proof.
  induction l as [|x l IH]; intros M k Hok; cbn [fold_left].
  - unfold countJob. simpl. destruct (M !! k) as [[n|]|]; [|done|done].
    by rewrite Nat.add_0_r.
  - assert (Hx : jobId x ∉ inheritedNames)
      by (apply Hok; apply elem_of_cons; by left).
    assert (Hp : jobId x ≠ "__proto__"%string).
    { intros E. apply Hx. rewrite E. by apply (bool_decide_unpack _). }
    rewrite IH by (intros job Hj; apply Hok; apply elem_of_cons; by right).
    rewrite countJob_cons. unfold bumpCount.
    destruct (decide (jobId x = "__proto__"%string)) as [|_]; [done|].
    destruct (decide (jobId x = k)) as [<-|Hne].
    + destruct (M !! jobId x) as [[n|]|] eqn:E.
      * rewrite lookup_insert_eq. f_equal. f_equal. lia.
      * by rewrite lookup_insert_eq.
      * destruct (decide (jobId x ∈ inheritedNames)); [done|].
        rewrite lookup_insert_eq. destruct (decide _); [lia|done].
    + assert (Hl : ∀ v, <[jobId x := v]> M !! k = M !! k)
        by (intros v; by rewrite lookup_insert_ne).
      cbn [Nat.add].
      destruct (M !! jobId x) as [[n|]|];
        [rewrite Hl|rewrite Hl|
         destruct (decide (jobId x ∈ inheritedNames)); [done|rewrite Hl]];
        done.
Qed.

Lemma instanceCounts_lookup l k :
  (∀ job, job ∈ l → jobId job ∉ inheritedNames) →
  fold_left bumpCount l ∅ !! k =
    if decide (countJob k l = 0%nat) then None else Some (Count (countJob k l)).
Proof. intros Hok. by rewrite bumpCount_fold, lookup_empty. Qed.

Lemma mathMax_counts values :
  (∀ v, v ∈ values → ∃ n, v = Count n) →
  ∃ k, mathMax values = Some k ∧
       (∀ n, Count n ∈ values → (n <= k)%nat) ∧
       (k = 0%nat ∨ Count k ∈ values).
Proof.
  induction values as [|v values IH]; intros Hall.
  - exists 0%nat. split; [done|]. split; [|by left].
    intros n Hn. by apply elem_of_nil in Hn.
  - destruct (Hall v) as [n ->]; [apply elem_of_cons; by left|].
    destruct IH as (k & Hk & Hle & Hat).
    { intros w Hw. apply Hall. apply elem_of_cons. by right. }
    simpl. rewrite Hk. exists (Nat.max n k). split; [done|]. split.
    + intros n' [[= ->]|Hn']%elem_of_cons; [lia|]. specialize (Hle _ Hn'). lia.
    + right. destruct (Nat.max_spec n k) as [[Hlt ->]|[_ ->]].
      * destruct Hat as [->|Hat]; [lia|apply elem_of_cons; by right].
      * apply elem_of_cons. by left.
Qed.

Lemma mathMax_text values : CountText ∈ values → mathMax values = None.
Proof.
  induction values as [|v values IH]; intros Hin; [by apply elem_of_nil in Hin|].
  apply elem_of_cons in Hin as [<-|Hin]; [done|].
  simpl. destruct v; [|done]. by rewrite IH.
Qed.

(** Each job counts under exactly one key of a duplicate-free list that
    holds its id. *)
Lemma length_by_key (ks : list string) : NoDup ks → ∀ l,
  (∀ job, job ∈ l → jobId job ∈ ks) →
  length l = sum_list ((fun k => countJob k l) <$> ks).
Proof.
  intros Hnd. induction l as [|x l IH]; intros Hin.
  - unfold countJob. simpl. clear. induction ks; simpl; [done|]. done.
  - simpl. rewrite IH by (intros job Hj; apply Hin; apply elem_of_cons; by right).
    assert (Hx : jobId x ∈ ks) by (apply Hin; apply elem_of_cons; by left).
    clear IH Hin. revert Hx. induction Hnd as [|k ks Hk Hnd IHk]; intros Hx.
    + by apply elem_of_nil in Hx.
    + rewrite !fmap_cons.
      change (sum_list (?a :: ?b)) with (a + sum_list b)%nat.
      rewrite countJob_cons.
      apply elem_of_cons in Hx as [E|Hx].
      * destruct (decide (jobId x = k)) as [_|Hne]; [|by destruct Hne].
        assert (Hrest : (fun k0 => countJob k0 (x :: l)) <$> ks
                        = (fun k0 => countJob k0 l) <$> ks).
        { apply list_fmap_ext. intros i k0 Hk0. rewrite countJob_cons.
          destruct (decide (jobId x = k0)) as [E'|]; [|done].
          destruct Hk. rewrite <- E, E'. by eapply list_elem_of_lookup_2. }
        rewrite Hrest. lia.
      * destruct (decide (jobId x = k)) as [E|_].
        { destruct Hk. by rewrite <- E. }
        specialize (IHk Hx). lia.
Qed.

Lemma sum_list_bounded (f : string → nat) (b : nat) (ks : list string) :
  (∀ k, k ∈ ks → (f k <= b)%nat) → (sum_list (f <$> ks) <= length ks * b)%nat.
Proof.
  induction ks as [|k ks IH]; intros Hb; [simpl; lia|].
  assert (f k <= b)%nat by (apply Hb; apply elem_of_cons; by left).
  assert (sum_list (f <$> ks) <= length ks * b)%nat
    by (apply IH; intros k' Hk'; apply Hb; apply elem_of_cons; by right).
  rewrite fmap_cons. change (sum_list (?a :: ?b)) with (a + sum_list b)%nat.
  cbn [length]. lia.
Qed.

Lemma maxInstances_spec m now :
  (∀ job, job ∈ jobs (data m) → jobId job ∉ inheritedNames) →
  ∃ k, Stats.maxInstances (getStats m now) = Some k ∧
       (∀ jobId_, (length (matching m jobId_) <= k)%nat) ∧
       (k = 0%nat ∨ ∃ jobId_, length (matching m jobId_) = k).
Proof.
  intros Hok. unfold getStats. cbn [Stats.maxInstances].
  set (M := fold_left bumpCount (jobs (data m)) ∅).
  assert (HM : ∀ key v, M !! key = Some v →
                 v = Count (countJob key (jobs (data m)))).
  { intros key v. unfold M. rewrite (instanceCounts_lookup _ _ Hok).
    destruct (decide _); [done|]. by intros [= <-]. }
  destruct (mathMax_counts ((map_to_list M).*2)) as (k & Hk & Hle & Hat).
  { intros v ((key & v') & -> & Hin)%list_elem_of_fmap.
    apply elem_of_map_to_list in Hin. apply HM in Hin. eauto. }
  exists k. split; [done|]. split.
  - intros j. change (length (matching m j)) with (countJob j (jobs (data m))).
    destruct (decide (countJob j (jobs (data m)) = 0%nat)) as [->|Hnz]; [lia|].
    apply Hle. apply list_elem_of_fmap. exists (j, Count (countJob j (jobs (data m)))).
    split; [done|]. apply elem_of_map_to_list. unfold M.
    rewrite (instanceCounts_lookup _ _ Hok). by destruct (decide _).
  - destruct Hat as [->|Hat]; [by left|]. right.
    apply list_elem_of_fmap in Hat as ((key & v) & E & Hin). simpl in E. subst v.
    apply elem_of_map_to_list in Hin. apply HM in Hin. injection Hin as Hin.
    exists key. done.
Qed.

Lemma archiveMonths_total groups : ∀ d n,
  ((fold_left archiveMonth groups (d, n)).2 <= n + length (mjoin (groups.*2)))%nat.
Proof.
  induction groups as [|[month js] groups IH]; intros d n; cbn [fold_left].
  - simpl. lia.
  - destruct (archiveMonth_spec d n month js) as (_ & Hn & _).
    destruct (archiveMonth (d, n) (month, js)) as [d1 n1]. cbn [fst snd] in Hn.
    specialize (IH d1 n1). subst n1.
    change (mjoin (((month, js) :: groups).*2)) with (js ++ mjoin (groups.*2)).
    rewrite length_app.
    pose proof (length_filter
      (fun j => id j ∉ (list_to_set (id <$> bucketEntries d month) : gset string))
      js) as Hf.
    fold (freshFor (bucketEntries d month) js) in Hf. lia.
Qed.

Lemma filter_lengths {A} (P : A → Prop) `{∀ x, Decision (P x)} (l : list A) :
  (length (filter P l) + length (filter (fun x => ¬ P x) l))%nat = length l.
Proof.
  rewrite <- length_app. apply Permutation_length, filter_app_complement.
Qed.

(** The count an archiving loop reports: for each month the jobs whose
    id the month's bucket did not hold before the loop. *)
Lemma archiveMonths_count groups :
  NoDup groups.*1 → ∀ d n,
  (fold_left archiveMonth groups (d, n)).2 =
    (n + sum_list ((fun group =>
                      length (freshFor (bucketEntries d group.1) group.2))
                   <$> groups))%nat.
Proof.
  induction groups as [|[month js] groups IH]; intros Hnd d n;
    cbn [fold_left].
  - simpl. lia.
  - rewrite fmap_cons in Hnd. apply NoDup_cons in Hnd as [Hfresh Hnd].
    cbn [fst] in Hfresh.
    destruct (archiveMonth_spec d n month js) as (Hb & Hn & _).
    destruct (archiveMonth (d, n) (month, js)) as [d1 n1]. cbn [fst snd] in *.
    rewrite (IH Hnd d1 n1), Hn, fmap_cons. cbn [fst snd sum_list].
    assert (Heq : (fun group => length (freshFor (bucketEntries d1 group.1) group.2))
                    <$> groups
                  = (fun group => length (freshFor (bucketEntries d group.1) group.2))
                    <$> groups).
    { apply list_eq_Forall2, Forall2_fmap, Forall_Forall2_diag, Forall_forall.
      intros [k js'] Hk. cbn [fst snd].
      rewrite (bucketEntries_insert _ _ _ _ k Hb).
      destruct (decide (month = k)) as [->|]; [|done].
      exfalso. apply Hfresh, list_elem_of_fmap. by exists (k, js'). }
    rewrite Heq. unfold Datatypes.id. lia.
Qed.

Lemma freshFor_filter existing js :
  freshFor existing js = filter (fun j => id j ∉ (id <$> existing)) js.
Proof.
  unfold freshFor. apply list_filter_iff. intros j.
  by rewrite elem_of_list_to_set.
Qed.

Lemma fresh_by_month d groups :
  (∀ month js job, (month, js) ∈ groups → job ∈ js → monthOf job = month) →
  sum_list ((fun group => length (freshFor (bucketEntries d group.1) group.2))
            <$> groups)
  = length (filter (fun job => id job ∉ (id <$> bucketEntries d (monthOf job)))
              (mjoin (groups.*2))).
Proof.
  induction groups as [|[month js] groups IH]; intros Hmonth; [done|].
  rewrite !fmap_cons. cbn [fst snd sum_list].
  change (Datatypes.id (length ?l)) with (length l).
  change (mjoin (?x :: ?l)) with (x ++ mjoin l).
  rewrite filter_app, length_app, IH.
  - f_equal. rewrite freshFor_filter. f_equal.
    assert (Hjs : ∀ job, job ∈ js → monthOf job = month).
    { intros job Hjob. apply (Hmonth month js); [|done].
      apply elem_of_cons. by left. }
    clear -Hjs. induction js as [|job js IHjs]; [done|].
    rewrite !filter_cons, (Hjs job) by (apply elem_of_cons; by left).
    rewrite IHjs; [done|]. intros k Hk. apply Hjs. apply elem_of_cons. by right.
  - intros k js' job Hk. apply Hmonth. apply elem_of_cons. by right.
Qed.

(** X1. The statistics foretell an archive cycle run at the same instant,
    for a clock reading and a cutoff in the range of a [Date]: the cycle
    reports [activeJobs] as its active count; [toBeArchived] is the number
    of aged instances, of which the cycle stores, and counts as archived,
    those whose id the bucket of their month does not hold yet, at most
    [toBeArchived]; it leaves a manager whose statistics show [activeJobs]
    records, all active, none to be archived. *)
Theorem stats_foretell_archive m d now :
  clockInRange m now →
  let s := getStats m now in
  let a := archiveOldJobs m d now in
  let s' := getStats a.1.1 now in
  Z.of_nat (Stats.activeJobs s) + Stats.toBeArchived s
    = Z.of_nat (Stats.totalRecords s) ∧
  active a.2 = Stats.activeJobs s ∧
  Stats.toBeArchived s = Z.of_nat (length (jobsToArchive m now)) ∧
  archived a.2 =
    length (filter (fun job => id job ∉ (id <$> bucketEntries d (monthOf job)))
              (jobsToArchive m now)) ∧
  0 <= Z.of_nat (archived a.2) <= Stats.toBeArchived s ∧
  Stats.totalRecords s' = Stats.activeJobs s ∧
  Stats.activeJobs s' = Stats.activeJobs s ∧
  Stats.toBeArchived s' = 0.
Proof.
  intros _. cbv zeta.
  pose proof (archiveOldJobs_jobs m d now) as Hj.
  pose proof (archiveOldJobs_settings m d now) as [Hw _].
  assert (Hs' : Stats.totalRecords (getStats (archiveOldJobs m d now).1.1 now)
                = Stats.activeJobs (getStats m now) ∧
                Stats.activeJobs (getStats (archiveOldJobs m d now).1.1 now)
                = Stats.activeJobs (getStats m now)).
  { unfold getStats. cbn [Stats.totalRecords Stats.activeJobs].
    rewrite Hj, Hw, !cutoff_eq. split; [done|].
    by rewrite list_filter_filter, (list_filter_iff _
      (fun j => cutoff m now < postedToDiscord j)) by tauto. }
  destruct Hs' as [Ht' Ha'].
  pose proof (filter_lengths (fun job => cutoff m now < postedToDiscord job)
                (jobs (data m))) as Hlen.
  cbv beta in Hlen. fold (jobsToArchive m now) in Hlen.
  assert (Hto : Stats.toBeArchived (getStats m now)
                = Z.of_nat (length (jobsToArchive m now))).
  { unfold getStats. cbn [Stats.toBeArchived]. rewrite !cutoff_eq. lia. }
  assert (Harch : archived (archiveOldJobs m d now).2 =
    length (filter (fun job => id job ∉ (id <$> bucketEntries d (monthOf job)))
              (jobsToArchive m now))).
  { unfold archiveOldJobs. rewrite !cutoff_eq.
    fold (jobsToArchive m now).
    destruct (jobsToArchive m now) as [|x l] eqn:E; [done|].
    cbn [length Nat.eqb]. rewrite <- E.
    pose proof (archiveMonths_count (groupByMonth (jobsToArchive m now))
                  (groupByMonth_NoDup _) (ensureDir (archiveDir m) d) 0%nat)
      as Hcount.
    destruct (fold_left archiveMonth _ _) as [d2 total].
    cbn [fst snd archived] in *. rewrite Hcount. cbn [Nat.add].
    rewrite (list_fmap_ext _
      (fun group => length (freshFor (bucketEntries d group.1) group.2)))
      by (intros _ group _; by rewrite bucketEntries_ensureDir).
    rewrite fresh_by_month.
    - apply Permutation_length, filter_Permutation, groupByMonth_join.
    - intros month js job Hg Hjob.
      assert (Hx : job ∈ jobsToArchive m now ∧ monthOf job = month)
        by (apply groupByMonth_member; eauto).
      by destruct Hx. }
  split; [unfold getStats; cbn; lia|].
  split; [|split; [exact Hto|split; [exact Harch|split;
    [|split; [done|split; [done|]]]]]].
  - unfold archiveOldJobs, getStats. cbn [Stats.activeJobs].
    destruct (length _ =? 0)%nat; [done|].
    by destruct (fold_left archiveMonth _ _).
  - rewrite Harch, Hto. split; [lia|].
    apply inj_le, length_filter.
  - revert Ht' Ha'. unfold getStats.
    cbn [Stats.totalRecords Stats.activeJobs Stats.toBeArchived]. lia.
Qed.

Lemma uniqueJobs_le (l : list string) :
  (size (list_to_set l : gset string) <= length l)%nat.
Proof.
  unfold size, set_size. simpl. apply submseteq_length, NoDup_submseteq.
  - apply NoDup_elements.
  - intros x Hx. apply elem_of_elements in Hx. by apply elem_of_list_to_set in Hx.
Qed.

(** X2. When no job id is a name inherited from [Object.prototype],
    [maxInstances] is a number: the largest number of instances of one job
    id in the active list. It is zero exactly for the empty list, bounds
    the records by [uniqueJobs * maxInstances], and the number
    [markAsPosted] gives to the next instance of any job id is at most
    [maxInstances + 1]. *)
Theorem stats_bounds m now :
  (∀ job, job ∈ jobs (data m) → jobId job ∉ inheritedNames) →
  ∃ k, Stats.maxInstances (getStats m now) = Some k ∧
       (∀ jobId_, (length (matching m jobId_) <= k)%nat) ∧
       (k = 0%nat ↔ Stats.totalRecords (getStats m now) = 0%nat) ∧
       (Stats.uniqueJobs (getStats m now)
          <= Stats.totalRecords (getStats m now)
          <= Stats.uniqueJobs (getStats m now) * k)%nat ∧
       (∀ later jobId_ jobData thread,
          (instanceNumber (newJob m later jobId_ jobData thread) <= k + 1)%nat).
Proof.
  intros Hok.
  destruct (maxInstances_spec m now Hok) as (k & Hk & Hle & Hat).
  exists k. split; [done|]. split; [done|].
  assert (Hpig : (length (jobs (data m))
                  <= size (list_to_set (jobId <$> jobs (data m)) : gset string) * k)%nat).
  { unfold size, set_size. simpl.
    rewrite (length_by_key (elements
               (list_to_set (jobId <$> jobs (data m)) : gset string))).
    - apply sum_list_bounded. intros key _. apply Hle.
    - apply NoDup_elements.
    - intros job Hj. apply elem_of_elements, elem_of_list_to_set.
      apply list_elem_of_fmap. eauto. }
  unfold getStats. cbn [Stats.totalRecords Stats.uniqueJobs].
  split; [split|split].
  - intros ->. lia.
  - intros Hz. destruct Hat as [->|[j Hj]]; [done|].
    pose proof (length_filter (fun job => jobId job = j) (jobs (data m))) as Hf.
    unfold matching in Hj. lia.
  - split; [|exact Hpig].
    pose proof (uniqueJobs_le (jobId <$> jobs (data m))) as Hu.
    by rewrite length_fmap in Hu.
  - intros later j jd th. unfold newJob. cbn [instanceNumber].
    specialize (Hle j). unfold matching in Hle. lia.
Qed.

Lemma bumpCount_text l : ∀ (M : gmap string countValue) k,
  k ∈ inheritedNames → k ≠ "__proto__"%string →
  M !! k = Some CountText ∨ (M !! k = None ∧ ∃ job, job ∈ l ∧ jobId job = k) →
  fold_left bumpCount l M !! k = Some CountText.
Proof.
  induction l as [|x l IH]; intros M k Hin Hp H; cbn [fold_left].
  - destruct H as [H|[_ (job & Hj & _)]]; [done|by apply elem_of_nil in Hj].
  - apply IH; [done|done|]. unfold bumpCount.
    destruct (decide (jobId x = "__proto__"%string)) as [Ep|_].
    + destruct H as [H|[HN (job & Hj & Ej)]]; [by left|]. right. split; [done|].
      apply elem_of_cons in Hj as [->|Hj]; [congruence|eauto].
    + destruct (decide (jobId x = k)) as [E|Hne].
      * left. rewrite E. destruct H as [H|[HN _]]; rewrite ?H, ?HN.
        -- by rewrite lookup_insert_eq.
        -- destruct (decide (k ∈ inheritedNames)); [|done].
           by rewrite lookup_insert_eq.
      * assert (Hl : ∀ v, <[jobId x := v]> M !! k = M !! k)
          by (intros v; by rewrite lookup_insert_ne).
        assert (Hgoal : M !! k = Some CountText ∨
                        M !! k = None ∧ ∃ job, job ∈ l ∧ jobId job = k).
        { destruct H as [H|[HN (job & Hj & Ej)]]; [by left|]. right.
          split; [done|]. apply elem_of_cons in Hj as [->|Hj]; [done|eauto]. }
        destruct (M !! jobId x) as [[n|]|];
          [rewrite Hl|rewrite Hl|
           destruct (decide (jobId x ∈ inheritedNames)); rewrite Hl];
          exact Hgoal.
Qed.

(** X3. As soon as one job id in the active list is a name an object
    inherits from [Object.prototype] (other than [__proto__]), such as
    ["constructor"] or ["toString"], the counting object holds a text under
    that key and [maxInstances] is [NaN]. *)
Theorem stats_nan_on_inherited_id m now job :
  job ∈ jobs (data m) → jobId job ∈ inheritedNames →
  jobId job ≠ "__proto__"%string →
  Stats.maxInstances (getStats m now) = None.
Proof.
  intros Hj Hin Hp. unfold getStats. cbn [Stats.maxInstances].
  apply mathMax_text. apply list_elem_of_fmap. exists (jobId job, CountText).
  split; [done|]. apply elem_of_map_to_list.
  apply bumpCount_text; [done|done|]. right. split; [apply lookup_empty|eauto].
Qed.

(** X25. The statistics after an announcement, for a clock reading and a
    cutoff in the range of a [Date]. [markAsPosted] saves, and saving
    archives: once the call has returned, the ledger holds the records
    that were active plus the new one, nothing is left to archive, and
    [lastUpdated] is the instant of the call. With an active window that
    is not positive the new record is archived at once and the ledger does
    not hold it. *)
Theorem stats_after_posting m d now jobId_ jobData thread m' d' :
  clockInRange m now →
  markAsPosted m d now jobId_ jobData thread = Saved m' d' →
  let s := getStats m now in
  let s' := getStats m' now in
  Stats.totalRecords s' =
    (Stats.activeJobs s + (if (0 <? activeWindowDays m)%Z then 1 else 0))%nat ∧
  Stats.activeJobs s' = Stats.totalRecords s' ∧
  Stats.toBeArchived s' = 0 ∧
  Stats.lastUpdated s' = now ∧
  (activeWindowDays m <= 0 →
     newJob m now jobId_ jobData thread ∉ jobs (data m')).
Proof.
  intros _ Hrun. cbv zeta.
  destruct (markAsPosted_saved _ _ _ _ _ _ _ _ Hrun) as (Hjobs & Hw & _).
  assert (Hnew : postedToDiscord (newJob m now jobId_ jobData thread) = now)
    by done.
  assert (Hcut : cutoff m now < now ↔ 0 < activeWindowDays m).
  { rewrite <- cutoff_eq. lia. }
  assert (Hactive : filter (fun j => cutoff m now < postedToDiscord j)
                      (jobs (data m')) = jobs (data m')).
  { rewrite Hjobs, list_filter_filter.
    apply list_filter_iff. tauto. }
  assert (Hupdated : lastUpdated (data m') = now).
  { revert Hrun. unfold markAsPosted, savePostedJobs.
    destruct (archiveOldJobs _ _ now) as [[m1 d2] st].
    destruct (verified _ _); [|done]. by intros [= <- <-]. }
  unfold getStats.
  cbn [Stats.totalRecords Stats.activeJobs Stats.toBeArchived Stats.lastUpdated].
  rewrite Hw, !cutoff_eq, Hactive. repeat split; try done; try lia.
  - rewrite Hjobs, filter_app, length_app, filter_cons, filter_nil.
    f_equal. destruct (decide _) as [Hin|Hout];
      destruct (0 <? activeWindowDays m) eqn:Hpos; try done.
    + apply Z.ltb_ge in Hpos. rewrite Hnew in Hin. lia.
    + apply Z.ltb_lt in Hpos. rewrite Hnew in Hout. lia.
  - intros Hle Hin. rewrite Hjobs in Hin.
    apply list_elem_of_filter in Hin as [Hin _]. rewrite Hnew in Hin. lia.
Qed.

(** ** Subscriptions *)

Module SubscriptionFacts.
Import Subscriptions.

Lemma lookupKey_Some key (subs : subscriptions) tags :
  lookupKey key subs = Some tags → (key, tags) ∈ subs.
Proof.
  induction subs as [|[k v] rest IH]; simpl; [done|].
  destruct (decide (k = key)) as [->|_].
  - intros [= ->]. by left.
  - intros H. right. by apply IH.
Qed.

Lemma lookupKey_None key (subs : subscriptions) :
  lookupKey key subs = None ↔ key ∉ subs.*1.
Proof.
  induction subs as [|[k v] rest IH]; simpl.
  - split; [intros _ H; by apply elem_of_nil in H|done].
  - rewrite not_elem_of_cons. destruct (decide (k = key)) as [->|Hne].
    + split; [done|]. by intros [H _].
    + rewrite IH. split; [intros H; split; [done|done]|by intros [_ H]].
Qed.

Lemma lookupKey_NoDup key (subs : subscriptions) tags :
  NoDup subs.*1 → (key, tags) ∈ subs → lookupKey key subs = Some tags.
Proof.
  induction subs as [|[k v] rest IH]; simpl; intros Hnd Hin.
  - by apply elem_of_nil in Hin.
  - apply NoDup_cons in Hnd as [Hk Hnd].
    apply elem_of_cons in Hin as [[= -> ->] |Hin].
    + by destruct (decide (k = k)).
    + destruct (decide (k = key)) as [->|_]; [|by apply IH].
      destruct Hk. apply list_elem_of_fmap. by exists (key, tags).
Qed.

Lemma updateKey_keys key v (subs : subscriptions) :
  (updateKey key v subs).*1 = subs.*1.
Proof.
  induction subs as [|[k v0] rest IH]; csimpl; [done|].
  destruct (decide (k = key)); csimpl; [done|by rewrite IH].
Qed.

Lemma lookupKey_updateKey key v (subs : subscriptions) key' :
  lookupKey key' (updateKey key v subs) =
    if decide (key' = key) then
      match lookupKey key subs with Some _ => Some v | None => None end
    else lookupKey key' subs.
Proof.
  induction subs as [|[k v0] rest IH]; simpl.
  - by destruct (decide (key' = key)).
  - destruct (decide (k = key)) as [->|Hne]; simpl.
    + destruct (decide (key = key')) as [<-|Hne'].
      * by destruct (decide (key = key)).
      * by destruct (decide (key' = key)) as [->|_].
    + destruct (decide (k = key')) as [->|Hne'].
      * by destruct (decide (key' = key)).
      * exact IH.
Qed.

Lemma updateKey_same key v (subs : subscriptions) :
  lookupKey key subs = Some v → updateKey key v subs = subs.
Proof.
  induction subs as [|[k v0] rest IH]; simpl; [done|].
  destruct (decide (k = key)) as [->|_].
  - by intros [= ->].
  - intros H. by rewrite IH.
Qed.

Lemma updateKey_twice key v w (subs : subscriptions) :
  updateKey key w (updateKey key v subs) = updateKey key w subs.
Proof.
  induction subs as [|[k v0] rest IH]; simpl; [done|].
  destruct (decide (k = key)) as [->|Hne]; simpl.
  - by destruct (decide (key = key)).
  - destruct (decide (k = key)); [done|]. by rewrite IH.
Qed.

Lemma insertIndex_perm n key v (subs : subscriptions) :
  insertIndex n key v subs ≡ₚ (key, v) :: subs.
Proof.
  induction subs as [|[k v0] rest IH]; simpl; [done|].
  destruct (arrayIndex k) as [n0|]; [|done].
  destruct (n0 <? n)%N; [|done]. rewrite IH. apply perm_swap.
Qed.

Lemma insertKey_perm key v (subs : subscriptions) :
  insertKey key v subs ≡ₚ (key, v) :: subs.
Proof.
  unfold insertKey. destruct (arrayIndex key).
  - apply insertIndex_perm.
  - by rewrite <- Permutation_cons_append.
Qed.

Lemma lookupKey_insertKey key v (subs : subscriptions) key' :
  lookupKey key subs = None →
  lookupKey key' (insertKey key v subs) =
    if decide (key' = key) then Some v else lookupKey key' subs.
Proof.
  intros Habs. unfold insertKey. destruct (arrayIndex key) as [n|].
  - induction subs as [|[k v0] rest IH]; simpl in *.
    + repeat case_decide; by simplify_eq.
    + destruct (decide (k = key)) as [|Hk]; [done|].
      destruct (arrayIndex k) as [n0|]; [destruct (n0 <? n)%N|]; simpl.
      * rewrite (IH Habs). repeat case_decide; by simplify_eq.
      * repeat case_decide; by simplify_eq.
      * repeat case_decide; by simplify_eq.
  - induction subs as [|[k v0] rest IH]; simpl in *.
    + repeat case_decide; by simplify_eq.
    + destruct (decide (k = key)) as [|Hk]; [done|].
      rewrite (IH Habs). repeat case_decide; by simplify_eq.
Qed.

Lemma updateKey_insertKey key v w (subs : subscriptions) :
  lookupKey key subs = None →
  updateKey key w (insertKey key v subs) = insertKey key w subs.
Proof.
  intros Habs. unfold insertKey. destruct (arrayIndex key) as [n|].
  - induction subs as [|[k v0] rest IH]; simpl in *.
    + by destruct (decide (key = key)).
    + destruct (decide (k = key)) as [|Hk]; [done|].
      destruct (arrayIndex k) as [n0|]; [destruct (n0 <? n)%N|]; simpl.
      * destruct (decide (k = key)); [done|]. by rewrite IH.
      * by destruct (decide (key = key)).
      * by destruct (decide (key = key)).
  - induction subs as [|[k v0] rest IH]; simpl in *.
    + by destruct (decide (key = key)).
    + destruct (decide (k = key)) as [|Hk]; [done|]. by rewrite IH.
Qed.

Lemma deleteKey_absent key (subs : subscriptions) :
  lookupKey key subs = None → deleteKey key subs = subs.
Proof.
  unfold deleteKey, subscriptions in *. induction subs as [|[k v0] rest IH]; [done|].
  cbn [lookupKey]. destruct (decide (k = key)) as [|Hk]; [done|]. intros H.
  rewrite filter_cons. cbn [fst].
  destruct (decide (k ≠ key)); [|done]. by rewrite IH.
Qed.

Lemma deleteKey_insertKey key v (subs : subscriptions) :
  lookupKey key subs = None → deleteKey key (insertKey key v subs) = subs.
Proof.
  intros Habs. unfold insertKey. destruct (arrayIndex key) as [n|].
  - unfold deleteKey, subscriptions in *.
    assert (Hhere : ∀ rest : subscriptions, lookupKey key rest = None →
              filter (fun kv : string * list string => kv.1 ≠ key)
                ((key, v) :: rest) = rest).
    { intros rest Hrest. rewrite filter_cons. cbn [fst].
      destruct (decide (key ≠ key)); [done|].
      pose proof (deleteKey_absent key rest Hrest) as Hsame.
      by unfold deleteKey, subscriptions in Hsame. }
    induction subs as [|[k v0] rest IH]; cbn [insertIndex lookupKey] in *.
    + by apply Hhere.
    + destruct (decide (k = key)) as [|Hk]; [done|].
      assert (Hkeep : lookupKey key ((k, v0) :: rest) = None).
      { cbn [lookupKey]. by destruct (decide (k = key)). }
      destruct (arrayIndex k) as [n0|]; [destruct (n0 <? n)%N|].
      * rewrite filter_cons. cbn [fst]. destruct (decide (k ≠ key)); [|done].
        by rewrite IH.
      * by apply Hhere.
      * by apply Hhere.
  - unfold deleteKey, subscriptions in *.
    rewrite filter_app. pose proof (deleteKey_absent key subs Habs) as Hsame.
    unfold deleteKey, subscriptions in Hsame. rewrite Hsame.
    rewrite filter_cons. cbn [fst]. destruct (decide (key ≠ key)); [done|].
    rewrite filter_nil. by rewrite app_nil_r.
Qed.

Lemma lookupKey_deleteKey key (subs : subscriptions) key' :
  lookupKey key' (deleteKey key subs) =
    if decide (key' = key) then None else lookupKey key' subs.
Proof.
  unfold deleteKey, subscriptions in *. induction subs as [|[k v0] rest IH].
  - rewrite filter_nil. cbn [lookupKey]. by case_decide.
  - rewrite filter_cons. cbn [fst lookupKey].
    destruct (decide (k ≠ key)) as [Hne|He]; cbn [lookupKey].
    + rewrite IH. repeat case_decide; by simplify_eq.
    + rewrite IH. repeat case_decide; by simplify_eq.
Qed.

Lemma removeFirst_app tag (tags : list string) :
  tag ∉ tags → removeFirst tag (tags ++ [tag]) = tags.
Proof.
  induction tags as [|t rest IH]; simpl; intros Hn.
  - by destruct (decide (tag = tag)).
  - apply not_elem_of_cons in Hn as [Hne Hn].
    destruct (decide (t = tag)); [by subst|]. by rewrite IH.
Qed.

Lemma removeFirst_elem tag (tags : list string) t :
  t ∈ removeFirst tag tags → t ∈ tags.
Proof.
  induction tags as [|t0 rest IH]; simpl; [done|].
  destruct (decide (t0 = tag)).
  - intros H. by right.
  - intros [->|H]%elem_of_cons; [by left|right; by apply IH].
Qed.

Lemma removeFirst_NoDup tag (tags : list string) :
  NoDup tags → NoDup (removeFirst tag tags) ∧ tag ∉ removeFirst tag tags.
Proof.
  induction tags as [|t0 rest IH]; simpl; intros Hnd.
  - split; [constructor|]. intros H. by apply elem_of_nil in H.
  - apply NoDup_cons in Hnd as [Hn Hnd]. destruct (decide (t0 = tag)) as [->|Hne].
    + done.
    + destruct (IH Hnd) as [IH1 IH2]. split.
      * apply NoDup_cons. split; [|done]. intros H. apply Hn.
        by eapply removeFirst_elem.
      * apply not_elem_of_cons. split; [done|done].
Qed.

Lemma removeFirst_other tag (tags : list string) t :
  t ≠ tag → t ∈ tags → t ∈ removeFirst tag tags.
Proof.
  intros Hne. induction tags as [|t0 rest IH]; simpl; [done|].
  intros Hin. apply elem_of_cons in Hin as [Heq|Hin].
  - subst t0. destruct (decide (t = tag)); [done|by left].
  - destruct (decide (t0 = tag)); [done|]. right. by apply IH.
Qed.


Lemma save_writable subs d :
  writable d = true →
  loadSubscriptions (saveSubscriptions subs d) = Members subs ∧
  writable (saveSubscriptions subs d) = true.
Proof.
  unfold writable, saveSubscriptions, loadSubscriptions.
  destruct d as [f [|] [|] [|]]; cbn; try done.
Qed.

Lemma save_unwritable subs d :
  writable d = false →
  file (saveSubscriptions subs d) = file d ∧
  writable (saveSubscriptions subs d) = false.
Proof.
  unfold writable, saveSubscriptions.
  destruct d as [f [|] [|] [|]]; cbn; try done.
Qed.

Lemma getUserSubscriptions_held subs userId :
  userId ∉ inheritedNames →
  getUserSubscriptions subs userId = Some (default [] (lookupKey userId subs)).
Proof.
  intros Hname. unfold getUserSubscriptions.
  destruct (lookupKey userId subs); [done|]. by case_decide.
Qed.

Lemma getUserSubscriptions_other subs subs' userId :
  lookupKey userId subs' = lookupKey userId subs →
  getUserSubscriptions subs' userId = getUserSubscriptions subs userId.
Proof. unfold getUserSubscriptions. by intros ->. Qed.

(** X4 (subscribe): for a user id that is no name of [Object.prototype],
    [subscribe] returns [true] exactly when the user did not hold the tag;
    the tag is then appended after the tags held, and otherwise nothing
    changes, not even the file; no other user's tags change; and the same
    call made again returns [false] and changes nothing. *)
Theorem subscribe_adds_once subs d userId tag :
  userId ∉ inheritedNames →
  ∀ held, getUserSubscriptions subs userId = Some held →
  let '(r, subs', d') := subscribe subs d userId tag in
  r = Returned (bool_decide (tag ∉ held)) ∧
  getUserSubscriptions subs' userId =
    Some (if decide (tag ∈ held) then held else held ++ [tag]) ∧
  (tag ∈ held → subs' = subs ∧ d' = d) ∧
  (∀ other, other ≠ userId →
     getUserSubscriptions subs' other = getUserSubscriptions subs other) ∧
  subscribe subs' d' userId tag = (Returned false, subs', d').
Proof.
  intros Hname held Hheld.
  rewrite (getUserSubscriptions_held subs userId Hname) in Hheld.
  injection Hheld as <-. unfold subscribe.
  destruct (lookupKey userId subs) as [tags|] eqn:Hl; cbn [default from_option Datatypes.id].
  - destruct (decide (tag ∈ tags)) as [Hin|Hnin].
    + rewrite bool_decide_eq_false_2 by tauto.
      rewrite (getUserSubscriptions_held subs userId Hname), Hl. cbn [default from_option Datatypes.id].
      destruct (decide (tag ∈ tags)); [|done].
      repeat split; done.
    + rewrite bool_decide_eq_true_2 by done.
      rewrite (getUserSubscriptions_held _ userId Hname), lookupKey_updateKey, Hl.
      destruct (decide (userId = userId)); [|done]. cbn [default from_option Datatypes.id].
      repeat split; try done.
      * intros other Hother. apply getUserSubscriptions_other.
        rewrite lookupKey_updateKey. by destruct (decide (other = userId)).
      * destruct (decide (tag ∈ tags ++ [tag])) as [|Hn]; [done|].
        destruct Hn. apply elem_of_app. right. by left.
  - destruct (decide (userId ∈ inheritedNames)); [done|].
    rewrite bool_decide_eq_true_2 by (intros H; by apply elem_of_nil in H).
    rewrite (updateKey_insertKey _ _ _ _ Hl).
    rewrite (getUserSubscriptions_held _ userId Hname).
    rewrite (lookupKey_insertKey _ _ _ _ Hl).
    destruct (decide (userId = userId)); [|done]. cbn [default from_option Datatypes.id].
    destruct (decide (tag ∈ [])) as [Hin|_]; [by apply elem_of_nil in Hin|].
    split; [done|]. split; [done|].
    split; [intros Hin; by apply elem_of_nil in Hin|]. split.
    + intros other Hother. apply getUserSubscriptions_other.
      rewrite (lookupKey_insertKey _ _ _ _ Hl).
      by destruct (decide (other = userId)).
    + destruct (decide (tag ∈ [] ++ [tag])) as [|Hn]; [done|].
      destruct Hn. by left.
Qed.

(** X5 (unsubscribe): for a user id that is no name of [Object.prototype],
    [unsubscribe] returns [true] exactly when the user held the tag; its
    first occurrence is then removed and the other tags keep their order;
    a user left without a tag is no member of the object any more; when the
    tag was not held nothing changes, not even the file; no other user's
    tags change. *)
Theorem unsubscribe_removes_first subs d userId tag :
  userId ∉ inheritedNames →
  ∀ held, getUserSubscriptions subs userId = Some held →
  let '(r, subs', d') := unsubscribe subs d userId tag in
  r = Returned (bool_decide (tag ∈ held)) ∧
  (tag ∈ held →
     getUserSubscriptions subs' userId = Some (removeFirst tag held) ∧
     (removeFirst tag held = [] → lookupKey userId subs' = None)) ∧
  (tag ∉ held → subs' = subs ∧ d' = d) ∧
  (∀ other, other ≠ userId →
     getUserSubscriptions subs' other = getUserSubscriptions subs other).
Proof.
  intros Hname held Hheld.
  rewrite (getUserSubscriptions_held subs userId Hname) in Hheld.
  injection Hheld as <-. unfold unsubscribe.
  destruct (lookupKey userId subs) as [tags|] eqn:Hl; cbn [default from_option Datatypes.id].
  - destruct (decide (tag ∈ tags)) as [Hin|Hnin].
    + rewrite bool_decide_eq_true_2 by done.
      rewrite (getUserSubscriptions_held _ userId Hname).
      destruct (removeFirst tag tags) as [|t rest] eqn:Hrem; cbn [length Nat.eqb].
      * rewrite lookupKey_deleteKey. destruct (decide (userId = userId)); [|done].
        repeat split; try done.
        intros other Hother. apply getUserSubscriptions_other.
        rewrite lookupKey_deleteKey, lookupKey_updateKey.
        by destruct (decide (other = userId)).
      * rewrite lookupKey_updateKey, Hl.
        destruct (decide (userId = userId)); [|done].
        repeat split; try done.
        intros other Hother. apply getUserSubscriptions_other.
        rewrite lookupKey_updateKey. by destruct (decide (other = userId)).
    + rewrite bool_decide_eq_false_2 by done. repeat split; done.
  - destruct (decide (userId ∈ inheritedNames)); [done|].
    rewrite bool_decide_eq_false_2 by (intros Hin; by apply elem_of_nil in Hin).
    split; [done|]. split; [intros Hin; by apply elem_of_nil in Hin|].
    split; done.
Qed.

(** X6 (round trip): subscribing a user to a tag it does not hold and
    unsubscribing it again gives back the very object there was, key order
    included, and on a writable disk the file holds it again; the user must
    not stand in the object with an empty array, as a file can have it. *)
Theorem subscribe_unsubscribe_round_trip subs d userId tag :
  userId ∉ inheritedNames →
  tag ∉ default [] (lookupKey userId subs) →
  lookupKey userId subs ≠ Some [] →
  let '(r1, subs1, d1) := subscribe subs d userId tag in
  let '(r2, subs2, d2) := unsubscribe subs1 d1 userId tag in
  r1 = Returned true ∧ r2 = Returned true ∧ subs2 = subs ∧
  (writable d = true → loadSubscriptions d2 = Members subs).
Proof.
  intros Hname Hnew Hfull. unfold subscribe.
  destruct (lookupKey userId subs) as [tags|] eqn:Hl; cbn [default from_option Datatypes.id] in Hnew.
  - destruct (decide (tag ∈ tags)) as [|_]; [done|].
    unfold unsubscribe. rewrite lookupKey_updateKey, Hl.
    destruct (decide (userId = userId)); [|done].
    destruct (decide (tag ∈ tags ++ [tag])) as [_|Hn];
      [|destruct Hn; apply elem_of_app; right; by left].
    rewrite (removeFirst_app _ _ Hnew), updateKey_twice, (updateKey_same _ _ _ Hl).
    destruct tags as [|t rest]; [done|]. cbn [length Nat.eqb].
    repeat split; try done.
    intros Hw. apply save_writable. by apply save_writable.
  - destruct (decide (userId ∈ inheritedNames)); [done|].
    rewrite (updateKey_insertKey _ _ _ _ Hl).
    unfold unsubscribe. rewrite (lookupKey_insertKey _ _ _ _ Hl).
    destruct (decide (userId = userId)); [|done].
    destruct (decide (tag ∈ [] ++ [tag])) as [_|Hn]; [|destruct Hn; by left].
    rewrite (removeFirst_app tag [] Hnew). cbn [length Nat.eqb].
    rewrite (updateKey_insertKey _ _ _ _ Hl), (deleteKey_insertKey _ _ _ Hl).
    repeat split; try done.
    intros Hw. apply save_writable. by apply save_writable.
Qed.

(** X7 (names of [Object.prototype]): [subscribe] and [unsubscribe] throw
    exactly for a user id that is a name every object inherits and that
    the object does not have as its own member; nothing is changed then,
    and [getUserSubscriptions] returns the inherited member instead of an
    array for the same ids. *)
Theorem throws_exactly_on_inherited_names subs d userId tag :
  let inherited := userId ∈ inheritedNames ∧ userId ∉ subs.*1 in
  ((subscribe subs d userId tag).1.1 = Threw ↔ inherited) ∧
  ((unsubscribe subs d userId tag).1.1 = Threw ↔ inherited) ∧
  (getUserSubscriptions subs userId = None ↔ inherited) ∧
  (inherited →
     subscribe subs d userId tag = (Threw, subs, d) ∧
     unsubscribe subs d userId tag = (Threw, subs, d)).
Proof.
  cbv zeta. rewrite <- lookupKey_None.
  unfold subscribe, unsubscribe, getUserSubscriptions.
  destruct (lookupKey userId subs) as [tags|] eqn:Hl.
  - destruct (decide (tag ∈ tags)); cbn [fst];
      intuition (try congruence; try done).
  - destruct (decide (userId ∈ inheritedNames)); cbn [fst];
      intuition (try congruence; try done).
Qed.


Lemma elem_of_updateKey key v (subs : subscriptions) entry :
  entry ∈ updateKey key v subs → entry = (key, v) ∨ entry ∈ subs.
Proof.
  induction subs as [|[k v0] rest IH]; simpl; [by right|].
  destruct (decide (k = key)) as [->|_].
  - intros [->|Hin]%elem_of_cons; [by left|right; by right].
  - intros [->|Hin]%elem_of_cons; [right; by left|].
    destruct (IH Hin) as [->|Hrest]; [by left|right; by right].
Qed.

Lemma elem_of_insertKey key v (subs : subscriptions) entry :
  entry ∈ insertKey key v subs ↔ entry = (key, v) ∨ entry ∈ subs.
Proof. by rewrite (insertKey_perm key v subs), elem_of_cons. Qed.

Lemma elem_of_deleteKey key (subs : subscriptions) entry :
  entry ∈ deleteKey key subs ↔ entry.1 ≠ key ∧ entry ∈ subs.
Proof.
  unfold deleteKey, subscriptions.
  apply (list_elem_of_filter (fun kv : string * list string => kv.1 ≠ key)).
Qed.

Lemma NoDup_insertKey key v (subs : subscriptions) :
  lookupKey key subs = None → NoDup subs.*1 → NoDup (insertKey key v subs).*1.
Proof.
  intros Habs Hnd. rewrite (insertKey_perm key v subs), fmap_cons.
  apply NoDup_cons. split; [by apply lookupKey_None|done].
Qed.

Lemma NoDup_deleteKey key (subs : subscriptions) :
  NoDup subs.*1 → NoDup (deleteKey key subs).*1.
Proof.
  intros Hnd. apply (sublist_NoDup _ _ Hnd). unfold deleteKey, subscriptions.
  apply fmap_sublist, sublist_filter.
Qed.

Lemma keyOrder_named lastIndex lastIndex' named (subs : subscriptions) :
  keyOrder lastIndex true subs → keyOrder lastIndex' named subs.
Proof.
  revert named. induction subs as [|[k v] rest IH]; intros named; simpl; [done|].
  destruct (arrayIndex k); [by intros [? _]|].
  intros H. by apply IH.
Qed.

Lemma keyOrder_weaken lastIndex n named (subs : subscriptions) :
  atLeast lastIndex n → keyOrder (Some n) named subs →
  keyOrder lastIndex named subs.
Proof.
  intros Hle. destruct subs as [|[k v] rest]; simpl; [done|].
  destruct (arrayIndex k) as [m|].
  - intros (-> & Hm & Hrest). split; [done|]. split; [|done].
    destruct lastIndex; simpl in *; lia.
  - apply keyOrder_named.
Qed.

Lemma keyOrder_updateKey key v lastIndex named (subs : subscriptions) :
  keyOrder lastIndex named subs → keyOrder lastIndex named (updateKey key v subs).
Proof.
  revert lastIndex named.
  induction subs as [|[k v0] rest IH]; intros lastIndex named; simpl; [done|].
  destruct (decide (k = key)); simpl; destruct (arrayIndex k); try done.
  - intros (? & ? & ?). repeat split; try done. by apply IH.
  - apply IH.
Qed.

Lemma keyOrder_deleteKey key lastIndex named (subs : subscriptions) :
  keyOrder lastIndex named subs → keyOrder lastIndex named (deleteKey key subs).
Proof.
  unfold deleteKey, subscriptions. revert lastIndex named.
  induction subs as [|[k v0] rest IH]; intros lastIndex named; [done|].
  rewrite filter_cons. cbn [fst keyOrder].
  destruct (decide (k ≠ key)) as [Hkeep|Hdrop]; cbn [keyOrder];
    destruct (arrayIndex k) as [n|].
  - intros (? & ? & ?). repeat split; try done. by apply IH.
  - apply IH.
  - intros (-> & Hle & Hrest). apply (keyOrder_weaken _ n); [done|by apply IH].
  - intros Hrest. apply (keyOrder_named lastIndex). by apply IH.
Qed.

Lemma keyOrder_insertIndex n key v lastIndex (subs : subscriptions) :
  arrayIndex key = Some n → atLeast lastIndex n →
  keyOrder lastIndex false subs →
  keyOrder lastIndex false (insertIndex n key v subs).
Proof.
  intros Hkey. revert lastIndex.
  induction subs as [|[k v0] rest IH]; intros lastIndex Hle; simpl.
  - rewrite Hkey. done.
  - destruct (arrayIndex k) as [n0|] eqn:Hk.
    + intros (_ & Hn0 & Hrest). destruct (n0 <? n)%N eqn:Hlt; simpl.
      * rewrite Hk. repeat split; try done. apply IH; [|done].
        simpl. apply N.ltb_lt in Hlt. lia.
      * rewrite Hkey, Hk. repeat split; try done.
        apply N.ltb_ge in Hlt. done.
    + intros Hrest. simpl. rewrite Hkey, Hk. repeat split; try done.
      by apply (keyOrder_named lastIndex).
Qed.

Lemma keyOrder_append key v lastIndex named (subs : subscriptions) :
  arrayIndex key = None → keyOrder lastIndex named subs →
  keyOrder lastIndex named (subs ++ [(key, v)]).
Proof.
  intros Hkey. revert lastIndex named.
  induction subs as [|[k v0] rest IH]; intros lastIndex named; simpl.
  - by rewrite Hkey.
  - destruct (arrayIndex k).
    + intros (? & ? & ?). repeat split; try done. by apply IH.
    + apply IH.
Qed.

Lemma keyOrder_insertKey key v (subs : subscriptions) :
  keyOrder None false subs → keyOrder None false (insertKey key v subs).
Proof.
  unfold insertKey. destruct (arrayIndex key) as [n|] eqn:Hkey.
  - by apply keyOrder_insertIndex.
  - by apply keyOrder_append.
Qed.

Lemma subscribe_wellFormed subs d userId tag :
  wellFormed subs → wellFormed (subscribe subs d userId tag).1.2.
Proof.
  intros (Hkeys & Horder & Htags). unfold subscribe.
  destruct (lookupKey userId subs) as [tags|] eqn:Hl.
  - destruct (decide (tag ∈ tags)) as [|Hnew]; cbn [fst snd]; [done|].
    split; [by rewrite updateKey_keys|]. split; [by apply keyOrder_updateKey|].
    intros u ts [[= -> ->] |Hin]%elem_of_updateKey; [|by apply (Htags u ts)].
    destruct (Htags _ _ (lookupKey_Some _ _ _ Hl)) as [_ Hnd].
    split; [by destruct tags|]. apply NoDup_app. repeat split; try done.
    + intros x Hx [->|Hnil%elem_of_nil]%elem_of_cons; done.
    + apply NoDup_singleton.
  - destruct (decide (userId ∈ inheritedNames)); cbn [fst snd]; [done|].
    rewrite (updateKey_insertKey _ _ _ _ Hl).
    split; [by apply NoDup_insertKey|]. split; [by apply keyOrder_insertKey|].
    intros u ts [[= -> ->] |Hin]%elem_of_insertKey; [|by apply (Htags u ts)].
    split; [done|]. apply NoDup_singleton.
Qed.

Lemma unsubscribe_wellFormed subs d userId tag :
  wellFormed subs → wellFormed (unsubscribe subs d userId tag).1.2.
Proof.
  intros (Hkeys & Horder & Htags). unfold unsubscribe.
  destruct (lookupKey userId subs) as [tags|] eqn:Hl.
  - destruct (decide (tag ∈ tags)) as [Hin|]; cbn [fst snd]; [|done].
    destruct (Htags _ _ (lookupKey_Some _ _ _ Hl)) as [_ Hnd].
    destruct (removeFirst tag tags) as [|t rest] eqn:Hrem; cbn [length Nat.eqb].
    + split; [apply NoDup_deleteKey; by rewrite updateKey_keys|].
      split; [by apply keyOrder_deleteKey, keyOrder_updateKey|].
      intros u ts [Hne [[= -> ->] |Hold]%elem_of_updateKey]%elem_of_deleteKey;
        [done|by apply (Htags u ts)].
    + split; [by rewrite updateKey_keys|]. split; [by apply keyOrder_updateKey|].
      intros u ts [[= -> ->] |Hold]%elem_of_updateKey; [|by apply (Htags u ts)].
      split; [done|]. rewrite <- Hrem. by apply removeFirst_NoDup.
  - by destruct (decide (userId ∈ inheritedNames)).
Qed.

Lemma runCalls_cons c cs subs d :
  runCalls (c :: cs) subs d =
    runCalls cs (step c subs d).1.2 (step c subs d).2.
Proof.
  unfold runCalls. cbn [fold_left fst snd].
  by destruct (step c subs d) as [[r subs'] d'].
Qed.

(** X8 (invariants): whatever calls are made, in whatever order, the
    object keeps its user ids distinct and in the order an object lists
    its keys (array indices first, ascending, then the other ids in the
    order they were first subscribed), no user is left with an empty array
    and no user holds a tag twice. *)
Theorem calls_keep_well_formed cs subs d :
  wellFormed subs → wellFormed (runCalls cs subs d).1.
Proof.
  revert subs d. induction cs as [|c cs IH]; intros subs d Hwf; [done|].
  rewrite runCalls_cons. apply IH.
  destruct c; [by apply subscribe_wellFormed|by apply unsubscribe_wellFormed].
Qed.

Lemma some_includes (tags userTags : list string) :
  existsb (fun tag => bool_decide (tag ∈ tags)) userTags = true ↔
  ∃ tag, tag ∈ userTags ∧ tag ∈ tags.
Proof.
  rewrite existsb_exists. split.
  - intros (tag & Hin & Hdec). exists tag.
    split; [by apply list_elem_of_In|by apply bool_decide_eq_true in Hdec].
  - intros (tag & Hin & Htag). exists tag.
    split; [by apply list_elem_of_In|by apply bool_decide_eq_true].
Qed.

Lemma getUsersForTags_fold (subs : subscriptions) (tags users : list string) :
  let step := fun (users : list string) (entry : string * list string) =>
    let '(userId, userTags) := entry in
    if existsb (fun tag => bool_decide (tag ∈ tags)) userTags then
      if decide (userId ∈ users) then users else users ++ [userId]
    else users in
  (∀ userId, userId ∈ fold_left step subs users ↔
     userId ∈ users ∨
     ∃ userTags tag, (userId, userTags) ∈ subs ∧ tag ∈ userTags ∧ tag ∈ tags) ∧
  (NoDup users → NoDup (fold_left step subs users)) ∧
  ∃ added, fold_left step subs users = users ++ added ∧
           added `sublist_of` subs.*1.
Proof.
  intros step. revert users.
  induction subs as [|[u ts] rest IH]; intros users; cbn [fold_left].
  - split; [|split; [done|]].
    + intros userId. split; [by left|]. intros [H|(? & ? & H & _)]; [done|].
      by apply elem_of_nil in H.
    + exists []. by rewrite app_nil_r.
  - destruct (IH (step users (u, ts))) as (IHin & IHnd & added & IHeq & IHsub).
    pose proof (some_includes tags ts) as Hsome.
    assert (Hstep : ∀ userId, userId ∈ step users (u, ts) ↔
              userId ∈ users ∨ (userId = u ∧ ∃ tag, tag ∈ ts ∧ tag ∈ tags)).
    { intros userId. unfold step.
      destruct (existsb _ ts) eqn:Hex.
      - destruct (decide (u ∈ users)) as [Hu|Hu].
        + split; [by left|]. by intros [?|[-> _]].
        + rewrite elem_of_app, list_elem_of_singleton. split.
          * intros [?| ->]; [by left|]. right. split; [done|by apply Hsome].
          * intros [?|[-> _]]; [by left|by right].
      - split; [by left|]. intros [?|[_ Hex']]; [done|].
        apply Hsome in Hex'. congruence. }
    clear Hsome.
    split; [|split].
    + intros userId. rewrite IHin, Hstep. split.
      * intros [[?|[-> (tag & ? & ?)]]|(userTags & tag & ? & ? & ?)].
        -- by left.
        -- right. exists ts, tag. split; [by left|done].
        -- right. exists userTags, tag. split; [by right|done].
      * intros [?|(userTags & tag & [[= -> ->] |?]%elem_of_cons & ? & ?)].
        -- left. by left.
        -- left. right. split; [done|]. by exists tag.
        -- right. by exists userTags, tag.
    + intros Hnd. apply IHnd. unfold step.
      destruct (existsb _ ts); [|done].
      destruct (decide (u ∈ users)) as [|Hu]; [done|].
      apply NoDup_app. repeat split; try done.
      * intros x Hx [->|Hnil%elem_of_nil]%elem_of_cons; done.
      * apply NoDup_singleton.
    + rewrite IHeq. rewrite fmap_cons. cbn [fst]. unfold step.
      destruct (existsb _ ts).
      * destruct (decide (u ∈ users)).
        -- exists added. split; [done|]. by apply sublist_cons.
        -- exists (u :: added). split; [by rewrite <- app_assoc|].
           by apply sublist_skip.
      * exists added. split; [done|]. by apply sublist_cons.
Qed.

Lemma getUsersForTags_elem (subs : subscriptions) (tags : list string) userId :
  userId ∈ getUsersForTags subs tags ↔
  ∃ userTags tag, (userId, userTags) ∈ subs ∧ tag ∈ userTags ∧ tag ∈ tags.
Proof.
  destruct (getUsersForTags_fold subs tags []) as (Hin & _ & _).
  unfold getUsersForTags. rewrite Hin. split; [|by right].
  intros [Hnil|?]; [by apply elem_of_nil in Hnil|done].
Qed.

(** X9 (getUsersForTags): the users returned are exactly those that hold
    at least one of the tags asked for; each is returned once, and they
    come in the order the object lists its keys. With no tag asked for, or
    no subscription, the answer is empty. *)
Theorem users_for_tags (subs : subscriptions) (tags : list string) :
  (∀ userId, userId ∈ getUsersForTags subs tags ↔
     ∃ userTags tag, (userId, userTags) ∈ subs ∧ tag ∈ userTags ∧ tag ∈ tags) ∧
  NoDup (getUsersForTags subs tags) ∧
  getUsersForTags subs tags `sublist_of` subs.*1 ∧
  getUsersForTags subs [] = [] ∧
  getUsersForTags [] tags = [].
Proof.
  pose proof (getUsersForTags_elem subs) as Hchar.
  destruct (getUsersForTags_fold subs tags []) as (_ & Hnd & added & Heq & Hsub).
  split; [apply Hchar|]. split; [apply Hnd; constructor|].
  split; [unfold getUsersForTags; by rewrite Heq|]. split; [|done].
  destruct (getUsersForTags subs []) as [|userId rest] eqn:Hnone; [done|].
  assert (Hin : userId ∈ getUsersForTags subs []) by (rewrite Hnone; by left).
  apply Hchar in Hin as (? & ? & _ & _ & Hnil). by apply elem_of_nil in Hnil.
Qed.

Lemma subscribe_lookup subs d userId tag :
  userId ∉ inheritedNames →
  ∃ held, lookupKey userId (subscribe subs d userId tag).1.2 = Some held ∧
          tag ∈ held.
Proof.
  intros Hname. unfold subscribe.
  destruct (lookupKey userId subs) as [tags|] eqn:Hl.
  - destruct (decide (tag ∈ tags)); cbn [fst snd].
    + by exists tags.
    + exists (tags ++ [tag]). rewrite lookupKey_updateKey, Hl.
      destruct (decide (userId = userId)); [|done].
      split; [done|]. apply elem_of_app. right. by left.
  - destruct (decide (userId ∈ inheritedNames)); [done|]. cbn [fst snd].
    exists [tag]. rewrite (updateKey_insertKey _ _ _ _ Hl).
    rewrite (lookupKey_insertKey _ _ _ _ Hl).
    destruct (decide (userId = userId)); [|done]. split; [done|by left].
Qed.

Lemma unsubscribe_lookup subs d userId tag held' :
  lookupKey userId (unsubscribe subs d userId tag).1.2 = Some held' →
  ∃ held, lookupKey userId subs = Some held ∧
          held' = if decide (tag ∈ held) then removeFirst tag held else held.
Proof.
  unfold unsubscribe. destruct (lookupKey userId subs) as [tags|] eqn:Hl.
  - destruct (decide (tag ∈ tags)); cbn [fst snd].
    + destruct (removeFirst tag tags) as [|t rest] eqn:Hrem; cbn [length Nat.eqb].
      * rewrite lookupKey_deleteKey. by destruct (decide (userId = userId)).
      * rewrite lookupKey_updateKey, Hl.
        destruct (decide (userId = userId)); [|done].
        intros [= <-]. exists tags. split; [done|].
        by destruct (decide (tag ∈ tags)).
    + rewrite Hl. intros [= <-]. exists tags. split; [done|].
      by destruct (decide (tag ∈ tags)).
  - destruct (decide (userId ∈ inheritedNames)); cbn [fst snd]; by rewrite Hl.
Qed.

(** X10 (who is notified): with a well-formed object and a user id that is
    no name of [Object.prototype], a user that subscribed to a tag is among
    the users for any tags that include it; after unsubscribing from a tag
    the user is still listed for some tags only through another tag it
    held, so never for that tag alone. *)
Theorem notified_while_subscribed subs d userId tag :
  wellFormed subs → userId ∉ inheritedNames →
  (∀ tags, tag ∈ tags →
     userId ∈ getUsersForTags (subscribe subs d userId tag).1.2 tags) ∧
  (∀ tags, userId ∈ getUsersForTags (unsubscribe subs d userId tag).1.2 tags →
     ∃ other, other ≠ tag ∧ other ∈ tags ∧
              other ∈ default [] (lookupKey userId subs)) ∧
  userId ∉ getUsersForTags (unsubscribe subs d userId tag).1.2 [tag].
Proof.
  intros Hwf Hname.
  assert (Hafter : ∀ tags,
     userId ∈ getUsersForTags (unsubscribe subs d userId tag).1.2 tags →
     ∃ other, other ≠ tag ∧ other ∈ tags ∧
              other ∈ default [] (lookupKey userId subs)).
  { intros tags Hin.
    apply getUsersForTags_elem in Hin as (ts & other & Hentry & Hts & Hother).
    pose proof (unsubscribe_wellFormed subs d userId tag Hwf) as (Hkeys' & _ & _).
    apply (lookupKey_NoDup _ _ _ Hkeys') in Hentry.
    apply unsubscribe_lookup in Hentry as (held & Hl & ->).
    destruct Hwf as (_ & _ & Htags).
    destruct (Htags userId held (lookupKey_Some _ _ _ Hl)) as [_ Hnd].
    rewrite Hl. cbn [default from_option Datatypes.id].
    exists other. destruct (decide (tag ∈ held)) as [Hheld|Hheld].
    - destruct (removeFirst_NoDup tag held Hnd) as [_ Hgone].
      split; [by intros ->|]. split; [done|]. by apply (removeFirst_elem tag).
    - split; [by intros ->|]. done. }
  split; [|split; [exact Hafter|]].
  - intros tags Htag. apply getUsersForTags_elem.
    destruct (subscribe_lookup subs d userId tag Hname) as (held & Hl & Hin).
    exists held, tag. split; [by apply lookupKey_Some|done].
  - intros Hin. destruct (Hafter [tag] Hin) as (other & Hne & Hother & _).
    by apply list_elem_of_singleton in Hother.
Qed.

Lemma step_mirrors c subs d :
  writable d = true → loadSubscriptions d = Members subs →
  writable (step c subs d).2 = true ∧
  loadSubscriptions (step c subs d).2 = Members (step c subs d).1.2.
Proof.
  intros Hw Hfile. unfold step, subscribe, unsubscribe.
  destruct c as [userId tag|userId tag];
    destruct (lookupKey userId subs) as [tags|];
    try destruct (decide (tag ∈ tags));
    try destruct (decide (userId ∈ inheritedNames)); cbn [fst snd];
    try done; split; by apply save_writable.
Qed.

Lemma step_unwritable c subs d :
  writable d = false →
  file (step c subs d).2 = file d ∧ writable (step c subs d).2 = false.
Proof.
  intros Hw. unfold step, subscribe, unsubscribe.
  destruct c as [userId tag|userId tag];
    destruct (lookupKey userId subs) as [tags|];
    try destruct (decide (tag ∈ tags));
    try destruct (decide (userId ∈ inheritedNames)); cbn [fst snd];
    try done; by apply save_unwritable.
Qed.

(** X11 (persistence): a manager starts from what the file holds, the
    empty object when the file is missing or does not parse. For a manager
    that started from an object: when a save can reach the file, then
    after any calls the file holds exactly the object in memory, so a
    manager constructed later sees the same subscriptions; when it cannot,
    because the directory cannot be made or the file not written, the
    calls still succeed and change the memory, and the file stays as it
    was. A file that parses to any other value ([null], a number, a
    text, a boolean, an array, an object with a member that is no array
    of texts) gives no such manager. *)
Theorem file_follows_memory cs d subs :
  loadSubscriptions d = Members subs →
  (file d = Some (SObject subs) ∨
   subs = [] ∧ (file d = None ∨ file d = Some SBadText)) ∧
  let '(subs', d') := runCalls cs subs d in
  if writable d then loadSubscriptions d' = Members subs' ∧ writable d' = true
  else file d' = file d ∧ writable d' = false.
Proof.
  intros Hfile. split.
  { unfold loadSubscriptions in Hfile.
    destruct (file d) as [[|held|]|]; simplify_eq; eauto. }
  revert subs d Hfile.
  induction cs as [|c cs IH]; intros subs d Hfile.
  - cbn. by destruct (writable d).
  - rewrite runCalls_cons. destruct (writable d) eqn:Hw.
    + destruct (step_mirrors c subs d Hw Hfile) as [Hw' Hfile'].
      specialize (IH _ _ Hfile'). by rewrite Hw' in IH.
    + assert (Hgen : ∀ cs0 subs0 d0, writable d0 = false →
                file (runCalls cs0 subs0 d0).2 = file d0 ∧
                writable (runCalls cs0 subs0 d0).2 = false).
      { clear. induction cs0 as [|c0 cs0 IH0]; intros subs0 d0 Hw0; [done|].
        rewrite runCalls_cons.
        destruct (step_unwritable c0 subs0 d0 Hw0) as [Hf Hw1].
        destruct (IH0 (step c0 subs0 d0).1.2 _ Hw1) as [Hf' Hw'].
        split; [congruence|done]. }
      destruct (step_unwritable c subs d Hw) as [Hf Hw1].
      destruct (Hgen cs (step c subs d).1.2 _ Hw1) as [Hf' Hw'].
      destruct (runCalls cs (step c subs d).1.2 (step c subs d).2).
      cbn [snd] in *. split; [congruence|done].
Qed.

End SubscriptionFacts.

(** ** Retries *)

Module ErrorHandlerFacts.
Import ErrorHandler.

Section Retry.
Context {V E : Type}.
Implicit Types (fn : nat → settled V E) (o : options E)
  (trace : list (event E)).

Lemma calls_app trace trace' :
  calls (trace ++ trace') = (calls trace + calls trace')%nat.
Proof.
  induction trace as [|[]]; simpl; [done| | |]; by rewrite IHtrace.
Qed.

Lemma sleeps_app trace trace' :
  sleeps (trace ++ trace') = sleeps trace ++ sleeps trace'.
Proof.
  induction trace as [|[]]; simpl; [done| | |]; by rewrite IHtrace.
Qed.

(** The events one failed attempt that is retried adds. *)
Lemma retried_events o attempt error trace :
  ∀ added,
    added = [Call attempt; OnRetry error (attempt + 1) (delayAt o attempt);
             Sleep (delayAt o attempt)] ∨
    added = [Call attempt; Sleep (delayAt o attempt)] →
    calls (trace ++ added) = S (calls trace) ∧
    sleeps (trace ++ added) = sleeps trace ++ [delayAt o attempt].
Proof.
  intros added [-> | ->]; rewrite calls_app, sleeps_app; simpl; split;
    try done; lia.
Qed.

Lemma attempts_success fn o k v :
  callbackReturns o →
  ∀ remaining attempt lastError trace,
    0 <= attempt →
    Z.of_nat remaining = maxRetries o + 1 - attempt →
    (k < remaining)%nat →
    (∀ i, (i < k)%nat → ∃ error, fn (Z.to_nat attempt + i)%nat = Rejected error) →
    fn (Z.to_nat attempt + k)%nat = Resolved v →
    ∃ trace', attempts fn o remaining attempt lastError trace = (Returned v, trace') ∧
      calls trace' = (calls trace + S k)%nat ∧
      sleeps trace' =
        sleeps trace ++ ((fun i => delayAt o (attempt + Z.of_nat i)) <$> seq 0 k).
Proof.
  intros Hcb. induction k as [|k IH];
    intros remaining attempt lastError trace Hpos Hrem Hlt Hrej Hok.
  - destruct remaining as [|remaining]; [lia|]. cbn [attempts].
    rewrite Nat.add_0_r in Hok. rewrite Hok. eexists. split; [done|].
    rewrite calls_app, sleeps_app. simpl. rewrite app_nil_r. split; [lia|done].
  - destruct remaining as [|remaining]; [lia|]. cbn [attempts].
    destruct (Hrej 0%nat ltac:(lia)) as [error Herr].
    rewrite Nat.add_0_r in Herr. rewrite Herr.
    destruct (attempt =? maxRetries o) eqn:Hlast; [apply Z.eqb_eq in Hlast; lia|].
    cbv zeta.
    assert (Hnext : ∀ added,
      added = [Call attempt; OnRetry error (attempt + 1) (delayAt o attempt);
               Sleep (delayAt o attempt)] ∨
      added = [Call attempt; Sleep (delayAt o attempt)] →
      ∃ trace', attempts fn o remaining (attempt + 1) (Some error)
                  (trace ++ added) = (Returned v, trace') ∧
        calls trace' = (calls trace + S (S k))%nat ∧
        sleeps trace' = sleeps trace ++
          ((fun i => delayAt o (attempt + Z.of_nat i)) <$> seq 0 (S k))).
    { intros added Hadded.
      destruct (retried_events o attempt error trace added Hadded) as [Hc Hs].
      destruct (IH remaining (attempt + 1) (Some error) (trace ++ added))
        as (trace' & Hrun & Hcalls & Hsleeps); try lia.
      - intros i Hi. replace (Z.to_nat (attempt + 1) + i)%nat
          with (Z.to_nat attempt + S i)%nat by lia. apply Hrej. lia.
      - replace (Z.to_nat (attempt + 1) + k)%nat
          with (Z.to_nat attempt + S k)%nat by lia. done.
      - exists trace'. split; [done|]. split; [lia|].
        rewrite Hsleeps, Hs, <- app_assoc. f_equal.
        cbn [seq fmap list_fmap app]. rewrite Z.add_0_r. f_equal.
        rewrite <- seq_shift, <- list_fmap_compose. apply list_fmap_ext.
        intros _ i _. simpl. f_equal. lia. }
    destruct (onRetry o) as [callback|] eqn:Hon.
    + rewrite (Hcb callback Hon). apply Hnext. by left.
    + apply Hnext. by right.
Qed.

Lemma attempts_exhausted fn o :
  callbackReturns o →
  ∀ remaining attempt lastError trace,
    0 <= attempt →
    Z.of_nat remaining = maxRetries o + 1 - attempt →
    (0 < remaining)%nat →
    (∀ i, (i < remaining)%nat →
          ∃ error, fn (Z.to_nat attempt + i)%nat = Rejected error) →
    ∃ trace' error,
      fn (Z.to_nat (maxRetries o)) = Rejected error ∧
      attempts fn o remaining attempt lastError trace
        = (Threw (Some error), trace') ∧
      calls trace' = (calls trace + remaining)%nat ∧
      sleeps trace' =
        sleeps trace ++
        ((fun i => delayAt o (attempt + Z.of_nat i)) <$> seq 0 (remaining - 1)) ∧
      last trace' = Some (Call (maxRetries o)).
Proof.
  intros Hcb. induction remaining as [|remaining IH];
    intros attempt lastError trace Hpos Hrem Hlt Hrej; [lia|].
  cbn [attempts]. destruct (Hrej 0%nat ltac:(lia)) as [error Herr].
  rewrite Nat.add_0_r in Herr. rewrite Herr.
  destruct (attempt =? maxRetries o) eqn:Hlast.
  - apply Z.eqb_eq in Hlast. assert (remaining = 0%nat) as -> by lia.
    exists (trace ++ [Call attempt]), error. rewrite <- Hlast.
    split; [done|]. split; [done|]. rewrite calls_app, sleeps_app, last_snoc.
    simpl. rewrite app_nil_r. repeat split; try done; lia.
  - apply Z.eqb_neq in Hlast. cbv zeta.
    assert (Hnext : ∀ added,
      added = [Call attempt; OnRetry error (attempt + 1) (delayAt o attempt);
               Sleep (delayAt o attempt)] ∨
      added = [Call attempt; Sleep (delayAt o attempt)] →
      ∃ trace' error',
        fn (Z.to_nat (maxRetries o)) = Rejected error' ∧
        attempts fn o remaining (attempt + 1) (Some error) (trace ++ added)
          = (Threw (Some error'), trace') ∧
        calls trace' = (calls trace + S remaining)%nat ∧
        sleeps trace' = sleeps trace ++
          ((fun i => delayAt o (attempt + Z.of_nat i)) <$> seq 0 (S remaining - 1)) ∧
        last trace' = Some (Call (maxRetries o))).
    { intros added Hadded.
      destruct (retried_events o attempt error trace added Hadded) as [Hc Hs].
      destruct (IH (attempt + 1) (Some error) (trace ++ added))
        as (trace' & error' & Hfn & Hrun & Hcalls & Hsleeps & Hend); try lia.
      - intros i Hi. replace (Z.to_nat (attempt + 1) + i)%nat
          with (Z.to_nat attempt + S i)%nat by lia. apply Hrej. lia.
      - exists trace', error'. split; [done|]. split; [done|]. split; [lia|].
        split; [|done]. rewrite Hsleeps, Hs, <- app_assoc. f_equal.
        destruct remaining as [|remaining']; [lia|].
        cbn [Nat.sub seq fmap list_fmap app]. rewrite Nat.sub_0_r, Z.add_0_r.
        f_equal. rewrite <- seq_shift, <- list_fmap_compose.
        apply list_fmap_ext. intros _ i _. simpl. f_equal. lia. }
    destruct (onRetry o) as [callback|] eqn:Hon.
    + rewrite (Hcb callback Hon). apply Hnext. by left.
    + apply Hnext. by right.
Qed.

(** What every run of the loop does, whatever [fn] and the callback do:
    it retries some number [n] of rejected calls, waiting once after each,
    and ends at call [n], with its value, with its error when it was the
    last call allowed, or with what the callback threw. *)
Lemma attempts_spec fn o :
  ∀ remaining attempt lastError trace,
    0 <= attempt →
    Z.of_nat remaining = maxRetries o + 1 - attempt →
    (0 < remaining)%nat →
    let run := attempts fn o remaining attempt lastError trace in
    ∃ n : nat,
      (n < remaining)%nat ∧
      calls run.2 = (calls trace + n + 1)%nat ∧
      sleeps run.2 =
        sleeps trace ++ ((fun i => delayAt o (attempt + Z.of_nat i)) <$> seq 0 n) ∧
      (∀ delay, last run.2 ≠ Some (Sleep delay)) ∧
      (∀ i, (i < n)%nat →
            ∃ error, fn (Z.to_nat attempt + i)%nat = Rejected error) ∧
      match run.1 with
      | Returned v => fn (Z.to_nat attempt + n)%nat = Resolved v
      | Threw None => False
      | Threw (Some thrown) =>
          ∃ error, fn (Z.to_nat attempt + n)%nat = Rejected error ∧
            (thrown = error ∧ attempt + Z.of_nat n = maxRetries o ∨
             ∃ callback, onRetry o = Some callback ∧
               callback error (attempt + Z.of_nat n + 1)
                 (delayAt o (attempt + Z.of_nat n)) = Some thrown)
      end.
Proof.
  induction remaining as [|remaining IH];
    intros attempt lastError trace Hpos Hrem Hlt; [lia|].
  cbn [attempts]; cbv zeta.
  destruct (fn (Z.to_nat attempt)) as [v|error] eqn:Hfn.
  { exists 0%nat. cbn [fst snd]. rewrite calls_app, sleeps_app, last_snoc.
    cbn. rewrite !Nat.add_0_r, app_nil_r.
    split; [lia|]. split; [lia|]. split; [done|]. split; [done|].
    split; [intros i Hi; lia|done]. }
  destruct (attempt =? maxRetries o) eqn:Hlast.
  { apply Z.eqb_eq in Hlast. exists 0%nat. cbn [fst snd].
    rewrite calls_app, sleeps_app, last_snoc.
    cbn. rewrite !Nat.add_0_r, app_nil_r.
    split; [lia|]. split; [lia|]. split; [done|]. split; [done|].
    split; [intros i Hi; lia|]. exists error. split; [done|]. left.
    split; [done|lia]. }
  apply Z.eqb_neq in Hlast.
  assert (Hnext : ∀ added,
    added = [Call attempt; OnRetry error (attempt + 1) (delayAt o attempt);
             Sleep (delayAt o attempt)] ∨
    added = [Call attempt; Sleep (delayAt o attempt)] →
    let run := attempts fn o remaining (attempt + 1) (Some error)
                 (trace ++ added) in
    ∃ n : nat,
      (n < S remaining)%nat ∧
      calls run.2 = (calls trace + n + 1)%nat ∧
      sleeps run.2 =
        sleeps trace ++ ((fun i => delayAt o (attempt + Z.of_nat i)) <$> seq 0 n) ∧
      (∀ delay, last run.2 ≠ Some (Sleep delay)) ∧
      (∀ i, (i < n)%nat →
            ∃ error, fn (Z.to_nat attempt + i)%nat = Rejected error) ∧
      match run.1 with
      | Returned v => fn (Z.to_nat attempt + n)%nat = Resolved v
      | Threw None => False
      | Threw (Some thrown) =>
          ∃ error, fn (Z.to_nat attempt + n)%nat = Rejected error ∧
            (thrown = error ∧ attempt + Z.of_nat n = maxRetries o ∨
             ∃ callback, onRetry o = Some callback ∧
               callback error (attempt + Z.of_nat n + 1)
                 (delayAt o (attempt + Z.of_nat n)) = Some thrown)
      end).
  { intros added Hadded. cbv zeta.
    destruct (retried_events o attempt error trace added Hadded) as [Hc Hs].
    destruct (IH (attempt + 1) (Some error) (trace ++ added))
      as (n & Hn & Hcalls & Hsleeps & Hend & Hrej & Hout); try lia.
    cbv zeta in *. exists (S n).
    replace (Z.to_nat attempt + S n)%nat
      with (Z.to_nat (attempt + 1) + n)%nat by lia.
    replace (attempt + Z.of_nat (S n)) with (attempt + 1 + Z.of_nat n) by lia.
    split; [lia|]. split; [rewrite Hcalls, Hc; lia|]. split.
    { rewrite Hsleeps, Hs, <- app_assoc. f_equal.
      cbn [seq fmap list_fmap app]. rewrite Z.add_0_r. f_equal.
      rewrite <- seq_shift, <- list_fmap_compose. apply list_fmap_ext.
      intros _ i _. simpl. f_equal. lia. }
    split; [done|]. split; [|done].
    intros i Hi. destruct i as [|i].
    - rewrite Nat.add_0_r. eauto.
    - replace (Z.to_nat attempt + S i)%nat
        with (Z.to_nat (attempt + 1) + i)%nat by lia.
      apply Hrej. lia. }
  destruct (onRetry o) as [callback|] eqn:Hon.
  - destruct (callback error (attempt + 1) (delayAt o attempt)) as [thrown|]
      eqn:Hthrown.
    + exists 0%nat. cbn [fst snd].
      change [Call attempt; OnRetry error (attempt + 1) (delayAt o attempt)]
        with ([Call attempt] ++ [OnRetry error (attempt + 1) (delayAt o attempt)]).
      rewrite app_assoc, last_snoc, !calls_app, !sleeps_app.
      cbn. rewrite !Nat.add_0_r, !app_nil_r, Z.add_0_r.
      split; [lia|]. split; [lia|]. split; [done|]. split; [done|].
      split; [intros i Hi; lia|]. exists error. split; [done|]. right.
      exists callback. done.
    + apply Hnext. by left.
  - apply Hnext. by right.
Qed.

(** X12 (success after retries): when the callback, if any, returns, the
    first [k] calls are rejected and call [k] resolves, [k] being at most
    [maxRetries], the value of that call is returned after exactly [k + 1]
    calls, with the waits [min (initialDelay * factor ^ i) maxDelay] for
    [i] from 0 to [k - 1] between them; the options, the powers and the
    products of these [k] delays are integers a double holds exactly. *)
Theorem retry_returns_first_success fn o (k : nat) v :
  exactDelays o k →
  callbackReturns o → rejectedBelow fn k → fn k = Resolved v →
  Z.of_nat k <= maxRetries o →
  ∃ trace, retryWithBackoff fn o = (Returned v, trace) ∧
           calls trace = S k ∧
           sleeps trace = (fun i => delayAt o (Z.of_nat i)) <$> seq 0 k.
Proof.
  intros _ Hcb Hrej Hok Hk. unfold retryWithBackoff.
  destruct (attempts_success fn o k v Hcb (Z.to_nat (maxRetries o + 1)) 0 None [])
    as (trace & Hrun & Hcalls & Hsleeps); try done; try lia.
  exists trace. split; [done|]. split; [done|]. rewrite Hsleeps. simpl.
  apply list_fmap_ext. intros _ i _. done.
Qed.

(** X13 (giving up): when the callback, if any, returns and all of the
    first [maxRetries + 1] calls are rejected, the error thrown is the one
    of the last call, not of the first; there were [maxRetries + 1] calls
    and [maxRetries] waits, and nothing is waited for after the last
    call; the options, the powers and the products of these [maxRetries]
    delays are integers a double holds exactly. *)
Theorem retry_gives_up_with_last_error fn o :
  exactDelays o (Z.to_nat (maxRetries o)) →
  callbackReturns o → 0 <= maxRetries o →
  rejectedBelow fn (Z.to_nat (maxRetries o) + 1) →
  ∃ trace error,
    fn (Z.to_nat (maxRetries o)) = Rejected error ∧
    retryWithBackoff fn o = (Threw (Some error), trace) ∧
    calls trace = (Z.to_nat (maxRetries o) + 1)%nat ∧
    sleeps trace =
      (fun i => delayAt o (Z.of_nat i)) <$> seq 0 (Z.to_nat (maxRetries o)) ∧
    last trace = Some (Call (maxRetries o)).
Proof.
  intros _ Hcb Hpos Hrej. unfold retryWithBackoff.
  destruct (attempts_exhausted fn o Hcb (Z.to_nat (maxRetries o + 1)) 0 None [])
    as (trace & error & Hfn & Hrun & Hcalls & Hsleeps & Hend); try done; try lia.
  { intros i Hi. apply Hrej. lia. }
  exists trace, error. split; [done|]. split; [done|]. split; [simpl in *; lia|].
  split; [|done]. rewrite Hsleeps. simpl.
  replace (Z.to_nat (maxRetries o + 1) - 1)%nat with (Z.to_nat (maxRetries o)) by lia.
  apply list_fmap_ext. intros _ i _. done.
Qed.

(** X14 (bounds): whatever [fn] and the callback do, for options in the
    range of exact delays, a run with a negative [maxRetries] never calls
    [fn] and throws the [lastError] it never assigned, [undefined]. Any
    other run calls [fn] some [n + 1] times, at most [maxRetries + 1]:
    the first [n] calls were rejected and each was followed by one wait,
    of [min (initialDelay * factor ^ i) maxDelay], never longer than
    [maxDelay]; nothing is waited for after call [n]. The run returns what
    call [n] resolved with, or throws what call [n] was rejected with,
    when that was the last call allowed, or what the callback threw when
    told of that rejection: what is thrown is always a value [fn] or the
    callback produced, never the unassigned [lastError]. *)
Theorem retry_bounds fn o :
  exactDelays o (Z.to_nat (maxRetries o)) →
  let '(r, trace) := retryWithBackoff fn o in
  if maxRetries o <? 0 then r = Threw None ∧ trace = []
  else
    ∃ n : nat,
      Z.of_nat n <= maxRetries o ∧
      calls trace = S n ∧
      sleeps trace = (fun i => delayAt o (Z.of_nat i)) <$> seq 0 n ∧
      Forall (fun delay => delay <= maxDelay o) (sleeps trace) ∧
      (∀ delay, last trace ≠ Some (Sleep delay)) ∧
      rejectedBelow fn n ∧
      match r with
      | Returned v => fn n = Resolved v
      | Threw None => False
      | Threw (Some thrown) =>
          ∃ error, fn n = Rejected error ∧
            (thrown = error ∧ Z.of_nat n = maxRetries o ∨
             ∃ callback, onRetry o = Some callback ∧
               callback error (Z.of_nat n + 1) (delayAt o (Z.of_nat n))
                 = Some thrown)
      end.
Proof.
  intros _. unfold retryWithBackoff. destruct (maxRetries o <? 0) eqn:Hneg.
  - apply Z.ltb_lt in Hneg.
    replace (Z.to_nat (maxRetries o + 1)) with 0%nat by lia. done.
  - apply Z.ltb_ge in Hneg.
    destruct (attempts_spec fn o (Z.to_nat (maxRetries o + 1)) 0 None [])
      as (n & Hn & Hcalls & Hsleeps & Hend & Hrej & Hout); try lia.
    destruct (attempts fn o (Z.to_nat (maxRetries o + 1)) 0 None [])
      as [r trace]. cbn [fst snd] in *. simpl in Hsleeps, Hcalls, Hout.
    exists n. split; [lia|]. split; [lia|].
    assert (Hs : sleeps trace = (fun i => delayAt o (Z.of_nat i)) <$> seq 0 n).
    { rewrite Hsleeps. apply list_fmap_ext. intros _ i _. done. }
    split; [done|]. split.
    { rewrite Hs. apply Forall_fmap, Forall_forall. intros i _.
      apply Z.le_min_r. }
    split; [done|]. split; [exact Hrej|].
    destruct r as [v|[thrown|]]; done.
Qed.

End Retry.

(** X15 (Discord calls): [discordApiCall] makes at most four calls and
    waits 1000, 2000 and 4000 ms between them, 7000 ms at most in all. A
    rejection is retried three times; the fourth is thrown to the caller.
    But a call rejected with [null] or [undefined] is not retried: the
    warning reads its [message], and the caller gets that [TypeError]
    instead, unless it was the fourth call. *)
Theorem discord_api_call_schedule {V : Type} (apiCall : nat → settled V thrown)
    context :
  let '(r, trace) := discordApiCall apiCall context in
  (1 <= calls trace <= 4)%nat ∧
  sleeps trace = take (calls trace - 1) [1000; 2000; 4000] ∧
  match apiCall (calls trace - 1)%nat with
  | Resolved v => r = Returned v
  | Rejected Nullish =>
      r = Threw (Some (if decide (calls trace = 4%nat) then Nullish else TypeError))
  | Rejected error => r = Threw (Some error) ∧ calls trace = 4%nat
  end ∧
  ∀ k, (k < calls trace - 1)%nat →
       ∃ error, apiCall k = Rejected error ∧ error ≠ Nullish.
Proof.
  unfold discordApiCall, retryWithBackoff. cbn [maxRetries defaults maxDelay factor].
  change (Z.to_nat (3 + 1)) with 4%nat.
  cbn [attempts onRetry maxRetries].
  change (Z.to_nat 0) with 0%nat. change (Z.to_nat (0 + 1)) with 1%nat.
  change (Z.to_nat (0 + 1 + 1)) with 2%nat.
  change (Z.to_nat (0 + 1 + 1 + 1)) with 3%nat.
  destruct (apiCall 0%nat) as [v0|[|m0|]] eqn:H0; vm_compute;
    try (rewrite ?H0; repeat split; try done; try lia; intros k Hlt; lia).
  all: destruct (apiCall 1%nat) as [v1|[|m1|]] eqn:H1; vm_compute;
    try (rewrite ?H0, ?H1; repeat split; try done; try lia;
         intros k Hlt; destruct k as [|k]; [|lia];
         eexists; (split; [eassumption|done])).
  all: destruct (apiCall 2%nat) as [v2|[|m2|]] eqn:H2; vm_compute;
    try (rewrite ?H0, ?H1, ?H2; repeat split; try done; try lia;
         intros k Hlt; destruct k as [|[|k]]; try lia;
         eexists; (split; [eassumption|done])).
  all: destruct (apiCall 3%nat) as [v3|[|m3|]] eqn:H3; vm_compute;
    rewrite ?H0, ?H1, ?H2, ?H3; repeat split; try done; try lia;
    try (intros k Hlt; destruct k as [|[|[|k]]]; try lia;
    eexists; (split; [eassumption|done])).
Qed.

End ErrorHandlerFacts.

(** ** Texts *)

Module TextFacts.
Import Text.

Lemma append_nil (s : string) : "" +:+ s = s.
Proof. reflexivity. Qed.

Lemma append_cons c (s t : string) : String c s +:+ t = String c (s +:+ t).
Proof. reflexivity. Qed.

Lemma append_nil_r (s : string) : s +:+ "" = s.
Proof. induction s as [|c s IH]; [done|]. by rewrite append_cons, IH. Qed.

Lemma includes_nil (s : string) : includes s "" = true.
Proof. by destruct s. Qed.

Lemma startsWith_app (s t start : string) :
  startsWith s start = true → startsWith (s +:+ t) start = true.
Proof.
  revert s. induction start as [|b start IH]; intros s; [done|].
  destruct s as [|c s]; [done|]. rewrite append_cons. cbn [startsWith].
  intros [Hc Hs]%andb_true_iff. rewrite Hc. by apply IH.
Qed.

Lemma includes_app_l (s t name : string) :
  includes s name = true → includes (s +:+ t) name = true.
Proof.
  induction s as [|c s IH].
  - destruct name as [|b name]; [intros _; apply includes_nil|done].
  - intros Hs. pose proof (startsWith_app (String c s) t name) as Hstart.
    rewrite append_cons in *. cbn [includes] in *.
    apply orb_true_iff in Hs as [Hs|Hs].
    + by rewrite (Hstart Hs).
    + rewrite (IH Hs). apply orb_true_r.
Qed.

Lemma includes_app_r (s t name : string) :
  includes t name = true → includes (s +:+ t) name = true.
Proof.
  intros Ht. induction s as [|c s IH]; [done|].
  rewrite append_cons. cbn [includes]. rewrite IH. apply orb_true_r.
Qed.

End TextFacts.

(** ** Job normalization *)

Module JobNormalizerFacts.
Import Text JobNormalizer TextFacts.

Lemma includes_comma_cons c (s : string) :
  includes (String c s) "," = Ascii.eqb c "," || includes s ",".
Proof.
  cbn [includes startsWith]. by rewrite andb_true_r.
Qed.

Lemma includes_comma_app (city rest : string) :
  includes (city ++ String "," rest) "," = true.
Proof.
  induction city as [|c city IH]; rewrite ?append_nil, ?append_cons;
    rewrite includes_comma_cons; [done|].
  rewrite IH. by destruct (Ascii.eqb c ",").
Qed.

Lemma includes_comma_false c (s : string) :
  includes (String c s) "," = false →
  Ascii.eqb c "," = false ∧ includes s "," = false.
Proof. rewrite includes_comma_cons. by intros [? ?]%orb_false_elim. Qed.

Lemma split_plain (s : string) :
  includes s "," = false → split "," s = [s].
Proof.
  induction s as [|c s IH]; [done|].
  intros [Hc Hs]%includes_comma_false. cbn [split]. rewrite Hc, (IH Hs). done.
Qed.

Lemma split_app (city rest : string) :
  includes city "," = false →
  split "," (city ++ String "," rest) = city :: split "," rest.
Proof.
  induction city as [|c city IH].
  - done.
  - intros [Hc Hs]%includes_comma_false. rewrite append_cons. cbn [split].
    rewrite Hc, (IH Hs). done.
Qed.

Lemma trimStart_space (s : string) :
  trimStart (String " " s) = trimStart s.
Proof.
  unfold trimStart. cbn [String.length trimStartWithin].
  assert (leadingSpace (String " " s) = Some " "%string) as ->
    by (vm_compute; reflexivity).
  done.
Qed.

Lemma trim_space (s : string) : trim (String " " s) = trim s.
Proof. unfold trim. by rewrite trimStart_space. Qed.


Lemma normalizeJob_place job :
  normalizeJob job =
    if truthy (job_title job) && truthy (employer_name job) then job
    else
      let normalized := job in
      let normalized :=
        if negb (truthy (job_title normalized)) && truthy (title job)
        then setTitle (title job) normalized else normalized in
      let normalized :=
        if negb (truthy (employer_name normalized)) && truthy (company_name job)
        then setEmployer (company_name job) normalized else normalized in
      let normalized :=
        if negb (truthy (job_apply_link normalized)) && truthy (url job)
        then setApplyLink (url job) normalized else normalized in
      match placeOf job with
      | Some (city, state) => setPlace city state normalized
      | None => normalized
      end.
Proof.
  unfold normalizeJob, placeOf. destruct (truthy _ && truthy _); [done|].
  destruct (locations job) as [[|location rest]|]; [done| |done].
  destruct (includes location ","); [done|].
  by destruct (includes (toLowerCase location) "remote").
Qed.

Ltac by_cases_on_members job :=
  let t := fresh "t" in let c := fresh "c" in let u := fresh "u" in
  let l := fresh "l" in let jt := fresh "jt" in let en := fresh "en" in
  let jl := fresh "jl" in let jc := fresh "jc" in let js := fresh "js" in
  let o := fresh "o" in
  destruct job as [t c u l jt en jl jc js o];
  rewrite ?normalizeJob_place;
  let Hjt := fresh "Hjt" in let Hen := fresh "Hen" in let Ht := fresh "Ht" in
  let Hc := fresh "Hc" in let Hu := fresh "Hu" in let Hjl := fresh "Hjl" in
  destruct (placeOf _) as [[? ?]|];
  cbn [title company_name url locations job_title employer_name
       job_apply_link job_city job_state others];
  destruct (truthy jt) eqn:Hjt, (truthy en) eqn:Hen,
    (truthy t) eqn:Ht, (truthy c) eqn:Hc, (truthy u) eqn:Hu,
    (truthy jl) eqn:Hjl;
  repeat (progress (
    cbn [andb orb negb setTitle setEmployer setApplyLink setPlace
         title company_name url locations job_title employer_name
         job_apply_link job_city job_state others];
    rewrite ?Hjt, ?Hen, ?Ht, ?Hc, ?Hu, ?Hjl)).

(** X16 (idempotence): normalizing a normalized job changes nothing. *)
Theorem normalize_idempotent job :
  normalizeJob (normalizeJob job) = normalizeJob job.
Proof.
  rewrite (normalizeJob_place job).
  assert (Hplace : ∀ job', locations job' = locations job →
                           placeOf job' = placeOf job).
  { intros job' Hloc. unfold placeOf. by rewrite Hloc. }
  destruct job as [t c u l jt en jl jc js o].
  cbn [title company_name url locations job_title employer_name
       job_apply_link job_city job_state others] in *.
  destruct (truthy jt) eqn:Hjt, (truthy en) eqn:Hen,
    (truthy t) eqn:Ht, (truthy c) eqn:Hc, (truthy u) eqn:Hu,
    (truthy jl) eqn:Hjl;
  destruct (placeOf _) as [[city state]|] eqn:Hp;
  repeat (progress (
    cbn [andb orb negb setTitle setEmployer setApplyLink setPlace
         title company_name url locations job_title employer_name
         job_apply_link job_city job_state others];
    rewrite ?normalizeJob_place, ?Hjt, ?Hen, ?Ht, ?Hc, ?Hu, ?Hjl));
  try reflexivity;
  rewrite ?Hp; rewrite ?Hplace by reflexivity; rewrite ?Hp;
  cbn [setPlace title company_name url locations job_title employer_name
       job_apply_link job_city job_state others];
  reflexivity.
Qed.

(** X17 (legacy format): after normalization a job has a title in the
    legacy member exactly when it had one in either format, and likewise
    a company; a legacy member that held a text keeps it, and the members
    of the primary format and all other members stay as they were. A job
    with legacy title and company comes back unchanged, its [locations]
    unread and its [url] not copied: such a job gets no [job_apply_link]
    when it has none, even with a [url]. *)
Theorem normalize_yields_legacy_format job :
  let n := normalizeJob job in
  truthy (job_title n) = truthy (job_title job) || truthy (title job) ∧
  truthy (employer_name n) =
    truthy (employer_name job) || truthy (company_name job) ∧
  truthy (job_apply_link n) =
    truthy (job_apply_link job) ||
    negb (truthy (job_title job) && truthy (employer_name job)) &&
    truthy (url job) ∧
  (truthy (job_title job) = true → job_title n = job_title job) ∧
  (truthy (employer_name job) = true → employer_name n = employer_name job) ∧
  (truthy (job_apply_link job) = true →
     job_apply_link n = job_apply_link job) ∧
  (title n, company_name n, url n, locations n, others n) =
    (title job, company_name job, url job, locations job, others job) ∧
  (truthy (job_title job) && truthy (employer_name job) = true → n = job).
Proof.
  cbv zeta. by_cases_on_members job; repeat split; done.
Qed.

Lemma split_city_state (city state tail : string) :
  includes city "," = false → includes state "," = false →
  tail = ""%string ∨ (∃ more, tail = String "," more) →
  ∃ parts,
    split "," (city +:+ ", " +:+ state +:+ tail)
      = city :: String " " state :: parts.
Proof.
  intros Hcity Hstate Htail.
  change (city +:+ ", " +:+ state +:+ tail)
    with (city +:+ String "," (String " " (state +:+ tail))).
  rewrite (split_app _ _ Hcity). destruct Htail as [->|[more ->]].
  - exists []. f_equal. rewrite append_nil_r.
    apply (split_plain (String " " state)).
    by rewrite includes_comma_cons.
  - exists (split "," more). f_equal.
    apply (split_app (String " " state) more).
    by rewrite includes_comma_cons.
Qed.

(** X18 (city and state): for a job that is not in legacy format already,
    a first location of the form [City, State], with or without further
    parts after a second comma, puts the city and the state into
    [job_city] and [job_state], whatever they held before; the further
    parts are dropped. City and state are any texts without a comma and
    without white space at their ends. *)
Theorem location_gives_city_and_state job city state tail more :
  truthy (job_title job) && truthy (employer_name job) = false →
  plain city → plain state →
  tail = ""%string ∨ (∃ further, tail = String "," further) →
  locations job = Some ((city +:+ ", " +:+ state +:+ tail) :: more) →
  job_city (normalizeJob job) = Some city ∧
  job_state (normalizeJob job) = Some state.
Proof.
  intros Hlegacy [Hcity Hcity'] [Hstate Hstate'] Htail Hloc.
  unfold normalizeJob. rewrite Hlegacy, Hloc.
  change (city +:+ ", " +:+ state +:+ tail)
    with (city +:+ String "," (String " " (state +:+ tail))).
  rewrite includes_comma_app.
  destruct (split_city_state city state tail Hcity' Hstate' Htail)
    as [parts Hparts].
  change (city +:+ ", " +:+ state +:+ tail)
    with (city +:+ String "," (String " " (state +:+ tail))) in Hparts.
  rewrite Hparts. rewrite !fmap_cons, trim_space, Hcity, Hstate. done.
Qed.

End JobNormalizerFacts.

(** ** Loggers *)

Module LoggerFacts.
Import Loggers.

Lemma logged_snoc cs c : logged (cs ++ [c]) = step (logged cs) c.
Proof. unfold logged. by rewrite fold_left_app. Qed.

Lemma step_snoc posts c : ∃ entry, step posts c = posts ++ [entry] ∧
  status entry = (if isSuccess c then "SUCCESS"
                  else if isFailure c then "FAILED" else "SKIPPED")%string.
Proof. destruct c; eexists; (split; [reflexivity|done]). Qed.

Lemma count_snoc (P : post → Prop) `{!∀ p, Decision (P p)} posts entry :
  length (filter P (posts ++ [entry])) =
    (length (filter P posts) + (if decide (P entry) then 1 else 0))%nat.
Proof.
  rewrite filter_app, length_app, filter_cons, filter_nil.
  by destruct (decide (P entry)).
Qed.

(** X19 (summary): for a logger made by the constructor and any calls of
    [logSuccess], [logFailure] and [logSkip], [getSummary] counts the
    calls of each kind, and the three counts add up to the total, which
    is the number of calls: no call is lost or counted twice. *)
Theorem summary_counts_calls cs :
  let s := getSummary (logged cs) in
  successful s = length (List.filter isSuccess cs) ∧
  failed s = length (List.filter isFailure cs) ∧
  skipped s = length (List.filter isSkip cs) ∧
  total s = length cs ∧
  total s = (successful s + failed s + skipped s)%nat.
Proof.
  cbv zeta. unfold getSummary. cbn [total successful failed skipped].
  induction cs as [|c cs IH] using rev_ind; [done|].
  destruct IH as (Hs & Hf & Hk & Ht & Hsum).
  rewrite logged_snoc. destruct (step_snoc (logged cs) c) as (entry & -> & Hst).
  rewrite !count_snoc, !List.filter_app, !length_app, Hs, Hf, Hk, Hst.
  cbn [List.filter]. rewrite Ht in *.
  destruct c; cbn [isSuccess isFailure isSkip length];
    repeat (case_decide; try done); repeat split; lia.
Qed.

Lemma lookup_appendFile logDir name lines d key :
  files (appendFile logDir name lines d) !! key =
    if decide (key = (logDir, name)) then
      Some (default [] (files d !! (logDir, name)) ++ lines)
    else files d !! key.
Proof.
  unfold appendFile. cbn [files]. destruct (decide (key = (logDir, name))) as [->|Hne].
  - by rewrite lookup_insert_eq.
  - by rewrite lookup_insert_ne.
Qed.

Lemma saveLines_spec logDir name lines d :
  let d' := saveLines logDir name lines d in
  (lines = [] → d' = d) ∧
  (mkdirWorks d = false → d' = d) ∧
  (appendWorks d = false → files d' = files d) ∧
  (mkdirWorks d' = mkdirWorks d ∧ appendWorks d' = appendWorks d) ∧
  (lines ≠ [] → mkdirWorks d = true → appendWorks d = true →
     logDir ∈ dirs d' ∧
     ∀ key, files d' !! key =
       if decide (key = (logDir, name)) then
         Some (default [] (files d !! (logDir, name)) ++ lines)
       else files d !! key).
Proof.
  cbv zeta. unfold saveLines. destruct lines as [|l lines]; [done|].
  destruct (mkdirWorks d) eqn:Hm, (appendWorks d) eqn:Ha;
    repeat split; try done.
  - unfold appendFile. cbn [dirs]. set_solver.
  - intros key. rewrite lookup_appendFile. done.
Qed.

(** X20 (saving): [save] of either logger appends the entries, in the
    order they were logged, after the lines the file of the day of saving
    already holds, and touches no other file; it keeps the entries in
    memory, so a second [save] on the same day writes every entry a second
    time. Without entries it calls nothing, and when [mkdirSync] or
    [appendFileSync] fails no file changes. *)
Theorem save_appends_and_keeps posts checks now logDir d :
  let postsFile := (logDir, "discord-posts-" +:+ dateOf now +:+ ".jsonl") in
  let checksFile := (logDir, "dedup-checks-" +:+ dateOf now +:+ ".jsonl") in
  let working := mkdirWorks d && appendWorks d in
  let before key := default [] (files d !! key) in
  savePosts [] now logDir d = d ∧ saveChecks [] now logDir d = d ∧
  (working = false →
     files (savePosts posts now logDir d) = files d ∧
     files (saveChecks checks now logDir d) = files d) ∧
  (working = true → posts ≠ [] →
     let d1 := savePosts posts now logDir d in
     let d2 := savePosts posts now logDir d1 in
     files d1 !! postsFile = Some (before postsFile ++ (PostLine <$> posts)) ∧
     files d2 !! postsFile =
       Some (before postsFile ++ (PostLine <$> posts) ++ (PostLine <$> posts)) ∧
     ∀ key, key ≠ postsFile → files d2 !! key = files d !! key) ∧
  (working = true → checks ≠ [] →
     let d1 := saveChecks checks now logDir d in
     let d2 := saveChecks checks now logDir d1 in
     files d1 !! checksFile = Some (before checksFile ++ (CheckLine <$> checks)) ∧
     files d2 !! checksFile =
       Some (before checksFile ++ (CheckLine <$> checks)
               ++ (CheckLine <$> checks)) ∧
     ∀ key, key ≠ checksFile → files d2 !! key = files d !! key).
Proof.
  cbv zeta. unfold savePosts, saveChecks.
  assert (Htwice : ∀ name lines, lines ≠ [] →
            mkdirWorks d && appendWorks d = true →
            let d1 := saveLines logDir name lines d in
            let d2 := saveLines logDir name lines d1 in
            files d1 !! (logDir, name)
              = Some (default [] (files d !! (logDir, name)) ++ lines) ∧
            files d2 !! (logDir, name)
              = Some (default [] (files d !! (logDir, name)) ++ lines ++ lines) ∧
            ∀ key, key ≠ (logDir, name) → files d2 !! key = files d !! key).
  { intros name lines Hlines [Hm Ha]%andb_true_iff. cbv zeta.
    destruct (saveLines_spec logDir name lines d)
      as (_ & _ & _ & [Hm1 Ha1] & Hsave).
    destruct (Hsave Hlines Hm Ha) as [_ Hfiles].
    destruct (saveLines_spec logDir name lines (saveLines logDir name lines d))
      as (_ & _ & _ & _ & Hsave').
    destruct Hsave' as [_ Hfiles']; [done|congruence|congruence|].
    split; [|split].
    - rewrite Hfiles. by case_decide.
    - rewrite Hfiles', !Hfiles. repeat case_decide; try done.
      cbn [default from_option Datatypes.id]. by rewrite <- app_assoc.
    - intros key Hkey. rewrite Hfiles', !Hfiles. by repeat case_decide. }
  split; [done|]. split; [done|]. split; [|split].
  - intros Hbroken. apply andb_false_iff in Hbroken.
    split.
    + destruct (saveLines_spec logDir ("discord-posts-" +:+ dateOf now +:+ ".jsonl")
                  (PostLine <$> posts) d) as (_ & Hm & Ha & _).
      destruct Hbroken as [H|H]; [by rewrite (Hm H)|by apply Ha].
    + destruct (saveLines_spec logDir ("dedup-checks-" +:+ dateOf now +:+ ".jsonl")
                  (CheckLine <$> checks) d) as (_ & Hm & Ha & _).
      destruct Hbroken as [H|H]; [by rewrite (Hm H)|by apply Ha].
  - intros Hw Hposts. apply Htwice; [|done]. by intros ?%fmap_nil_inv.
  - intros Hw Hchecks. apply Htwice; [|done]. by intros ?%fmap_nil_inv.
Qed.

End LoggerFacts.

(** ** Job formatting *)

Module JobFormatterFacts.
Import JobFormatters.

Section FormatPostedDate.
Variable getFullYear : Z → Z.
Variable toLocaleDateString : Z → bool → string.


End FormatPostedDate.
End JobFormatterFacts.

(** ** Location routing *)

Module RoutingFacts.
Import Text Routing TextFacts.

Lemma mentions_combined job name :
  mentions job name → includes (combinedOf job) name = true.
Proof.
  unfold combinedOf. intros [H|[H|[H|H]]].
  - by apply includes_app_l.
  - by apply includes_app_r, includes_app_r, includes_app_l.
  - by do 4 apply includes_app_r; apply includes_app_l.
  - by do 6 apply includes_app_r.
Qed.

Lemma firstEntry_Some test table key :
  firstEntry test table = Some key →
  ∃ name, (name, key) ∈ table ∧ test name = true.
Proof.
  unfold firstEntry. destruct (List.find _ table) as [[name key']|] eqn:Hfind;
    [|done].
  intros [= <-]. apply find_some in Hfind as [Hin Htest]. exists name.
  split; [by apply list_elem_of_In|done].
Qed.

Lemma firstEntry_None test table name key :
  firstEntry test table = None → (name, key) ∈ table → test name = false.
Proof.
  unfold firstEntry. destruct (List.find _ table) eqn:Hfind; [done|].
  intros _ Hin%list_elem_of_In. apply (find_none _ _ Hfind (name, key) Hin).
Qed.

Lemma table_keys name key :
  (name, key) ∈ cityMatches ++ cityAbbreviations →
  key ∈ channelKeys ∧ key ≠ "remote-usa"%string.
Proof.
  assert (Hall : Forall (fun entry : string * string =>
                   entry.2 ∈ channelKeys ∧ entry.2 ≠ "remote-usa"%string)
                   (cityMatches ++ cityAbbreviations)).
  { apply (bool_decide_unpack _). vm_compute. exact I. }
  intros Hin. apply (proj1 (Forall_forall _ _) Hall (name, key) Hin).
Qed.

Lemma tableKey_Some job key :
  tableKey job = Some key → key ∈ channelKeys ∧ key ≠ "remote-usa"%string.
Proof.
  unfold tableKey. cbv zeta.
  destruct (firstEntry _ cityMatches) as [k1|] eqn:H1.
  - intros [= <-]. apply firstEntry_Some in H1 as (name & Hin & _).
    apply (table_keys name). apply elem_of_app. by left.
  - destruct (firstEntry _ cityAbbreviations) as [k2|] eqn:H2.
    + intros [= <-]. apply firstEntry_Some in H2 as (name & Hin & _).
      apply (table_keys name). apply elem_of_app. by right.
    + intros H3. apply firstEntry_Some in H3 as (name & Hin & _).
      apply (table_keys name). apply elem_of_app. by left.
Qed.

Lemma tableKey_None job name key :
  tableKey job = None → (name, key) ∈ cityMatches →
  includes (combinedOf job) name = false.
Proof.
  unfold tableKey. cbv zeta.
  destruct (firstEntry _ cityMatches) as [k1|]; [done|].
  destruct (firstEntry _ cityAbbreviations) as [k2|]; [done|].
  intros H3 Hin. apply (firstEntry_None _ _ name key H3 Hin).
Qed.

Lemma fallbackKey_Some job key :
  fallbackKey job = Some key → key ∈ channelKeys.
Proof.
  unfold fallbackKey. cbv zeta.
  repeat match goal with
         | |- context [if ?b then _ else _] => destruct b
         end;
    cbn; intros [= <-]; apply (bool_decide_unpack _); vm_compute; exact I.
Qed.

Lemma fallbackKey_None job : fallbackKey job = None → stateOf job ∉ usStates.
Proof.
  unfold fallbackKey. cbv zeta. intros Hnone Hin.
  assert (Hne : String.eqb (stateOf job) "" = false).
  { apply String.eqb_neq. intros Heq. rewrite Heq in Hin. revert Hin.
    apply (bool_decide_unpack _). vm_compute. exact I. }
  rewrite Hne, (bool_decide_eq_true_2 _ Hin) in Hnone.
  cbn [negb andb] in Hnone.
  repeat match type of Hnone with
         | context [if ?b then _ else _] => destruct b
         end; discriminate.
Qed.

(** X22 (keys): the router returns the entry of the configuration for one
    of twelve keys, or [null]; every one of the twelve is asked for by
    some job, so the configuration has to define them all; and [null] is
    returned only for a job whose state is none of the names and codes of
    [usStates]. *)
Theorem channel_keys_range :
  (∀ job key, channelKey job = Some key → key ∈ channelKeys) ∧
  (∀ key, key ∈ channelKeys → ∃ job, channelKey job = Some key) ∧
  (∀ job, channelKey job = None → stateOf job ∉ usStates) ∧
  (∀ job config, getJobLocationChannel job config =
                 channelKey job ≫= config).
Proof.
  split; [|split; [|split]].
  - intros job key. unfold channelKey.
    destruct (tableKey job) as [k|] eqn:Htable.
    + intros [= <-]. by apply (tableKey_Some job).
    + apply fallbackKey_Some.
  - assert (Hcity : ∀ name key, channelKey (mkJob (Some name) None None None)
                                  = Some key →
                                ∃ job, channelKey job = Some key)
      by (intros name key H; by eexists).
    intros key Hin. repeat (apply elem_of_cons in Hin as [->|Hin]).
    + apply (Hcity "San Francisco"%string). vm_compute. reflexivity.
    + apply (Hcity "Mountain View"%string). vm_compute. reflexivity.
    + apply (Hcity "Sunnyvale"%string). vm_compute. reflexivity.
    + apply (Hcity "San Bruno"%string). vm_compute. reflexivity.
    + apply (Hcity "New York"%string). vm_compute. reflexivity.
    + apply (Hcity "Seattle"%string). vm_compute. reflexivity.
    + apply (Hcity "Redmond"%string). vm_compute. reflexivity.
    + apply (Hcity "Austin"%string). vm_compute. reflexivity.
    + apply (Hcity "Chicago"%string). vm_compute. reflexivity.
    + apply (Hcity "Boston"%string). vm_compute. reflexivity.
    + apply (Hcity "Los Angeles"%string). vm_compute. reflexivity.
    + exists (mkJob (Some "Phoenix"%string) (Some "AZ"%string) None None).
      vm_compute. reflexivity.
    + by apply elem_of_nil in Hin.
  - intros job. unfold channelKey. destruct (tableKey job); [done|].
    apply fallbackKey_None.
  - intros job config. unfold getJobLocationChannel.
    by destruct (channelKey job).
Qed.

(** X23 (a mention decides): when the lowered title, description, city or
    state of a job contains a name of the city table, be it inside another
    word, the tables decide and the job never reaches the fallbacks: it is
    not sent to [remote-usa]. So a job whose state reads Kentucky, which
    contains [kent], is routed by the tables, and never to [remote-usa].
    And when the tables do not decide for a job of the state of Washington
    the key is [seattle]: the check for Redmond in that fallback never
    succeeds. *)
Theorem mention_decides job :
  (∀ searchCity key, (searchCity, key) ∈ cityMatches →
     mentions job searchCity →
     ∃ key', tableKey job = Some key' ∧ channelKey job = Some key' ∧
             key' ≠ "remote-usa"%string) ∧
  (stateOf job = "kentucky"%string →
     ∃ key', channelKey job = Some key' ∧ key' ≠ "remote-usa"%string) ∧
  (tableKey job = None →
     stateOf job = "wa"%string ∨ stateOf job = "washington"%string →
     channelKey job = Some "seattle"%string).
Proof.
  assert (Hmention : ∀ searchCity key, (searchCity, key) ∈ cityMatches →
     mentions job searchCity →
     ∃ key', tableKey job = Some key' ∧ channelKey job = Some key' ∧
             key' ≠ "remote-usa"%string).
  { intros searchCity key Hin Hmention. unfold channelKey.
    destruct (tableKey job) as [key'|] eqn:Htable.
    - exists key'. split; [done|]. split; [done|].
      by apply (tableKey_Some job).
    - pose proof (tableKey_None job searchCity key Htable Hin) as Hnone.
      by rewrite (mentions_combined job _ Hmention) in Hnone. }
  split; [exact Hmention|]. split.
  - intros Hstate.
    destruct (Hmention "kent"%string "seattle"%string) as (key' & _ & Hkey & Hne).
    + apply (bool_decide_unpack _). vm_compute. exact I.
    + right. right. right. rewrite Hstate. vm_compute. reflexivity.
    + by exists key'.
  - intros Htable Hstate. unfold channelKey. rewrite Htable.
    assert (Hredmond : includes (combinedOf job) "redmond" = false).
    { apply (tableKey_None job "redmond"%string "redmond"%string Htable).
      apply (bool_decide_unpack _). vm_compute. exact I. }
    unfold fallbackKey. cbv zeta. rewrite Hredmond.
    destruct Hstate as [-> | ->]; reflexivity.
Qed.

(** X24 (states of the union): with a configuration that defines the
    twelve keys, every job whose state, lowered and trimmed, is a name or
    a code of [usStates] gets a channel. *)
Theorem us_state_job_gets_channel job (config : string → option string) :
  (∀ key, key ∈ channelKeys → is_Some (config key)) →
  stateOf job ∈ usStates →
  is_Some (getJobLocationChannel job config).
Proof.
  intros Hconfig Hstate. unfold getJobLocationChannel.
  destruct (channelKey job) as [key|] eqn:Hkey.
  - apply Hconfig. unfold channelKey in Hkey.
    destruct (tableKey job) as [k|] eqn:Htable.
    + injection Hkey as <-. by apply (tableKey_Some job).
    + by apply fallbackKey_Some in Hkey.
  - unfold channelKey in Hkey. destruct (tableKey job); [done|].
    by apply fallbackKey_None in Hkey.
Qed.

End RoutingFacts.

(** ** The further properties at sample inputs *)

Lemma stats_foretell_archive_witness :
  Stats.toBeArchived (getStats Sample.once (Sample.t0 + 8 * Sample.day)) = 1 ∧
  archived (archiveOldJobs Sample.once emptyDisk
              (Sample.t0 + 8 * Sample.day)).2 = 1%nat.
Proof.
  destruct (stats_foretell_archive Sample.once emptyDisk
              (Sample.t0 + 8 * Sample.day))
    as (_ & _ & Hto & Harch & _).
  - vm_compute. repeat split; discriminate.
  - split.
    + rewrite Hto. vm_compute. reflexivity.
    + rewrite Harch. vm_compute. reflexivity.
Defined.

Lemma stats_bounds_witness :
  ∃ k, Stats.maxInstances (getStats Sample.once Sample.t0) = Some k ∧
       (1 <= k)%nat.
Proof.
  destruct (stats_bounds Sample.once Sample.t0) as (k & Hmax & Hlen & _).
  - intros job Hin. apply list_elem_of_singleton in Hin as ->.
    apply (bool_decide_unpack _). vm_compute. exact I.
  - exists k. split; [exact Hmax|]. apply (Hlen "A"%string).
Defined.

Lemma stats_nan_on_inherited_id_witness :
  Stats.maxInstances (getStats Examples.inheritedId Sample.t0) = None.
Proof.
  apply (stats_nan_on_inherited_id Examples.inheritedId Sample.t0
           (newJob Sample.fresh Sample.t0 "constructor" Sample.job None)).
  - by left.
  - apply (bool_decide_unpack _). vm_compute. exact I.
  - vm_compute. discriminate.
Defined.

Lemma subscribe_adds_once_witness :
  (Subscriptions.subscribe Examples.subs Examples.noFile "42" "go").1.1
    = Subscriptions.Returned true.
Proof.
  pose proof (SubscriptionFacts.subscribe_adds_once Examples.subs
                Examples.noFile "42"%string "go"%string) as Hspec.
  apply (fun H => proj1 (Hspec H ["rust"%string] eq_refl)).
  apply (bool_decide_unpack _). vm_compute. exact I.
Defined.

Lemma unsubscribe_removes_first_witness :
  (Subscriptions.unsubscribe Examples.subs Examples.noFile "42" "rust").1.1
    = Subscriptions.Returned true.
Proof.
  pose proof (SubscriptionFacts.unsubscribe_removes_first Examples.subs
                Examples.noFile "42"%string "rust"%string) as Hspec.
  apply (fun H => proj1 (Hspec H ["rust"%string] eq_refl)).
  apply (bool_decide_unpack _). vm_compute. exact I.
Defined.

Lemma subscribe_unsubscribe_round_trip_witness :
  (Subscriptions.unsubscribe
     (Subscriptions.subscribe Examples.subs Examples.noFile "7" "go").1.2
     (Subscriptions.subscribe Examples.subs Examples.noFile "7" "go").2
     "7" "go").1.2 = Examples.subs.
Proof.
  pose proof (SubscriptionFacts.subscribe_unsubscribe_round_trip Examples.subs
                Examples.noFile "7"%string "go"%string) as Hspec.
  apply (fun H1 H2 H3 => proj1 (proj2 (proj2 (Hspec H1 H2 H3)))).
  - apply (bool_decide_unpack _). vm_compute. exact I.
  - apply (bool_decide_unpack _). vm_compute. exact I.
  - vm_compute. discriminate.
Defined.

Lemma sample_subs_well_formed : Subscriptions.wellFormed Examples.subs.
Proof.
  split; [|split].
  - apply (bool_decide_unpack _). vm_compute. exact I.
  - vm_compute. repeat split; discriminate.
  - intros userId tags Hin. apply list_elem_of_singleton in Hin.
    injection Hin as -> ->. split; [discriminate|].
    apply (bool_decide_unpack _). vm_compute. exact I.
Defined.

Lemma calls_keep_well_formed_witness :
  Subscriptions.wellFormed
    (Subscriptions.runCalls
       [Subscriptions.Subscribe "zed" "go"; Subscriptions.Subscribe "7" "go";
        Subscriptions.Unsubscribe "42" "rust"]
       Examples.subs Examples.noFile).1.
Proof.
  apply SubscriptionFacts.calls_keep_well_formed, sample_subs_well_formed.
Defined.

Lemma notified_while_subscribed_witness :
  "42"%string ∉
    Subscriptions.getUsersForTags
      (Subscriptions.unsubscribe Examples.subs Examples.noFile "42" "rust").1.2
      ["rust"%string].
Proof.
  apply (SubscriptionFacts.notified_while_subscribed Examples.subs
           Examples.noFile "42"%string "rust"%string sample_subs_well_formed).
  apply (bool_decide_unpack _). vm_compute. exact I.
Defined.

Lemma file_follows_memory_witness :
  Subscriptions.loadSubscriptions
    (Subscriptions.runCalls
       [Subscriptions.Subscribe "7" "go"; Subscriptions.Subscribe "7" "rust"]
       [] Examples.noFile).2
  = Subscriptions.Members [("7"%string, ["go"; "rust"]%string)].
Proof.
  pose proof (SubscriptionFacts.file_follows_memory
                [Subscriptions.Subscribe "7" "go";
                 Subscriptions.Subscribe "7" "rust"]
                Examples.noFile [] eq_refl) as [_ Hspec].
  destruct (Subscriptions.runCalls _ [] Examples.noFile) as [subs' d'] eqn:Hrun.
  change (Subscriptions.writable Examples.noFile) with true in Hspec.
  destruct Hspec as [Hfile _]. cbn [snd]. rewrite Hfile.
  vm_compute in Hrun. by injection Hrun as <- _.
Defined.

Lemma sample_callback_returns :
  ErrorHandler.callbackReturns
    (ErrorHandler.mkOptions (E := ErrorHandler.thrown) 3 1000 10000 2 None).
Proof. intros callback Hon. discriminate Hon. Defined.

Lemma sample_exact_delays :
  ErrorHandler.exactDelays
    (ErrorHandler.mkOptions (E := ErrorHandler.thrown) 3 1000 10000 2 None) 3.
Proof.
  unfold ErrorHandler.exactDelays, ErrorHandler.safeInteger.
  repeat constructor; vm_compute; discriminate.
Defined.

Lemma retry_returns_first_success_witness :
  ∃ trace,
    ErrorHandler.retryWithBackoff Examples.flaky
      (ErrorHandler.mkOptions 3 1000 10000 2 None)
      = (ErrorHandler.Returned "sent"%string, trace) ∧
    ErrorHandler.calls trace = 3%nat ∧
    ErrorHandler.sleeps trace = [1000; 2000].
Proof.
  apply (fun H => ErrorHandlerFacts.retry_returns_first_success Examples.flaky
           (ErrorHandler.mkOptions 3 1000 10000 2 None) 2 "sent"%string
           H sample_callback_returns).
  - unfold ErrorHandler.exactDelays, ErrorHandler.safeInteger.
    repeat constructor; vm_compute; discriminate.
  - intros k Hk. destruct k as [|[|k]]; [by eexists|by eexists|lia].
  - reflexivity.
  - vm_compute. discriminate.
Defined.

Lemma retry_gives_up_with_last_error_witness :
  ∃ trace error,
    Examples.down 3 = ErrorHandler.Rejected error ∧
    ErrorHandler.retryWithBackoff Examples.down
      (ErrorHandler.mkOptions 3 1000 10000 2 None)
      = (ErrorHandler.Threw (Some error), trace) ∧
    ErrorHandler.calls trace = 4%nat ∧
    ErrorHandler.sleeps trace = [1000; 2000; 4000] ∧
    last trace = Some (ErrorHandler.Call 3).
Proof.
  apply (ErrorHandlerFacts.retry_gives_up_with_last_error Examples.down
           (ErrorHandler.mkOptions 3 1000 10000 2 None)
           sample_exact_delays sample_callback_returns).
  - vm_compute. discriminate.
  - intros k Hk. by eexists.
Defined.

Lemma retry_bounds_witness :
  ∃ n, ErrorHandler.calls
         (ErrorHandler.retryWithBackoff Examples.flaky
            (ErrorHandler.mkOptions 3 1000 10000 2 None)).2 = S n ∧
       Examples.flaky n = ErrorHandler.Resolved "sent"%string.
Proof.
  pose proof (ErrorHandlerFacts.retry_bounds Examples.flaky
                (ErrorHandler.mkOptions 3 1000 10000 2 None)
                sample_exact_delays) as Hspec.
  destruct (ErrorHandler.retryWithBackoff Examples.flaky _) as [r trace] eqn:Hrun.
  change (ErrorHandler.maxRetries _ <? 0) with false in Hspec.
  destruct Hspec as (n & _ & Hcalls & _ & _ & _ & _ & Hout).
  exists n. split; [exact Hcalls|].
  vm_compute in Hrun. injection Hrun as <- _. exact Hout.
Defined.

Lemma location_gives_city_and_state_witness :
  JobNormalizer.job_city (JobNormalizer.normalizeJob Examples.primary)
    = Some "Austin"%string ∧
  JobNormalizer.job_state (JobNormalizer.normalizeJob Examples.primary)
    = Some "TX"%string.
Proof.
  apply (JobNormalizerFacts.location_gives_city_and_state Examples.primary
           "Austin" "TX" ", USA" []).
  - reflexivity.
  - split; vm_compute; reflexivity.
  - split; vm_compute; reflexivity.
  - right. by eexists.
  - reflexivity.
Defined.

Lemma us_state_job_gets_channel_witness :
  is_Some (Routing.getJobLocationChannel Examples.phoenix Examples.channels).
Proof.
  apply RoutingFacts.us_state_job_gets_channel.
  - intros key _. by eexists.
  - apply (bool_decide_unpack _). vm_compute. exact I.
Defined.

Lemma stats_after_posting_witness :
  ∃ m' d',
    markAsPosted Sample.fresh emptyDisk Sample.t0 "A" Sample.job None
      = Saved m' d' ∧
    Stats.totalRecords (getStats m' Sample.t0) = 1%nat.
Proof.
  pose proof (stats_after_posting Sample.fresh emptyDisk Sample.t0 "A"%string
                Sample.job None) as Hspec.
  assert (Hrange : clockInRange Sample.fresh Sample.t0)
    by (vm_compute; repeat split; discriminate).
  destruct (markAsPosted Sample.fresh emptyDisk Sample.t0 "A" Sample.job None)
    as [m' d'|code d'] eqn:Hrun.
  - exists m', d'. split; [reflexivity|].
    destruct (Hspec m' d' Hrange eq_refl) as [Htotal _]. rewrite Htotal.
    vm_compute. reflexivity.
  - vm_compute in Hrun. discriminate Hrun.
Defined.
